(** * Control-service management API (control/mgmtapi/api.go)

    A shallow embedding of the request-to-filter translation, the result
    ordering and the health aggregation of the control service's management
    API, together with the part of Go's standard library the handlers run
    on (package [sort], [time.Time] arithmetic, [encoding/hex]); and of
    the handlers that delete a beacon and that serve a beacon or the
    certificate chain of the signer as a PEM blob. *)

From Stdlib Require Import ZArith Lia Ascii String.
From stdpp Require Import base option list gmap strings pretty.

Local Open Scope Z_scope.

(* ===================================================================== *)
(** * Part I: the program *)
(* ===================================================================== *)

(** ** Go runtime conventions

    A Go [int] is modelled as [Z]. A slice is a [list]; indexing outside of
    it panics, which the model renders as [None]. Loops are run by [loop]
    with a bound computed from the loop's own variables; a loop that
    exhausts its bound also yields [None]. *)

Definition index {A : Type} (d : list A) (i : Z) : option A :=
  if 0 <=? i then d !! Z.to_nat i else None.

Fixpoint loop {St R : Type} (fuel : nat) (body : St → option (St + R)) (s : St)
    : option R :=
  match fuel with
  | O => None
  | S fuel' =>
      match body s with
      | Some (inl s') => loop fuel' body s'
      | Some (inr r) => Some r
      | None => None
      end
  end.

(** [math/bits.Len] and the conversion [uint(x)] on a 64-bit platform. *)
Definition uint (x : Z) : Z := x mod 2 ^ 64.
Definition bits_Len (x : Z) : Z := if x =? 0 then 0 else Z.log2 x + 1.

(** ** Package sort of the Go standard library (sort.go, zsortinterface.go)

    [GetBeacons] sorts with [sort.Sort], which since Go 1.19 is a
    pattern-defeating quicksort. The functions below follow the library's
    functions one by one; a method of the receiver [data] takes the slice
    it works on as an argument and returns the slice it leaves. *)

Module sort.

Record Interface (D : Type) : Type := {
  Len : D → Z;
  Less : D → Z → Z → option bool;
  Swap : D → Z → Z → option D
}.
Arguments Len {D} _ _.
Arguments Less {D} _ _ _ _.
Arguments Swap {D} _ _ _ _.

(** [type reverse struct { Interface }]: [Less(i, j)] is the embedded
    [Less(j, i)]; [Len] and [Swap] are inherited. *)
Definition Reverse {D : Type} (data : Interface D) : Interface D :=
  {| Len := Len data;
     Less := λ d i j, Less data d j i;
     Swap := Swap data |}.

Inductive sortedHint : Set := unknownHint | increasingHint | decreasingHint.

(** [type xorshift uint64] and its [Next] method. *)
Definition xorshift_Next (r : Z) : Z :=
  let r := Z.lxor r (uint (Z.shiftl r 13)) in
  let r := Z.lxor r (Z.shiftr r 7) in
  let r := Z.lxor r (uint (Z.shiftl r 17)) in
  r.

Definition nextPowerOfTwo (length : Z) : Z :=
  uint (Z.shiftl 1 (bits_Len (uint length))).

Section Algorithms.
Context {D : Type} (data : Interface D).

(** for j := i; j > a && data.Less(j, j-1); j-- { data.Swap(j, j-1) } *)
Definition insertionSort_inner (a : Z) (s : Z * D) : option (Z * D + D) :=
  let '(j, d) := s in
  if a <? j then
    c ← Less data d j (j - 1);
    if c : bool then d' ← Swap data d j (j - 1); Some (inl (j - 1, d'))
    else Some (inr d)
  else Some (inr d).

(** [insertionSort] sorts data[a:b] using insertion sort. *)
Definition insertionSort (d : D) (a b : Z) : option D :=
  loop (S (Z.to_nat (b - a)))
    (λ '(i, d),
      if i <? b then
        d' ← loop (S (Z.to_nat (i - a))) (insertionSort_inner a) (i, d);
        Some (inl (i + 1, d'))
      else Some (inr d))
    (a + 1, d).

(** [siftDown] implements the heap property on data[lo:hi]; [first] is an
    offset into the array where the root of the heap lies. [siftDown_body]
    is one turn of its loop. *)
Definition siftDown_body (hi first : Z) (s : Z * D) : option (Z * D + D) :=
  let '(root, d) := s in
  let child := 2 * root + 1 in
  if hi <=? child then Some (inr d)
  else
    child ← (if child + 1 <? hi then
               c ← Less data d (first + child) (first + child + 1);
               Some (if c : bool then child + 1 else child)
             else Some child);
    c ← Less data d (first + root) (first + child);
    if c : bool then
      d' ← Swap data d (first + root) (first + child);
      Some (inl (child, d'))
    else Some (inr d).

Definition siftDown (d : D) (lo hi first : Z) : option D :=
  loop (S (Z.to_nat (hi - lo))) (siftDown_body hi first) (lo, d).

(** [heapSort]: build the heap with the greatest element at the top, then
    pop elements, largest first, into the end of data[a:b]. *)
Definition heapSort (d : D) (a b : Z) : option D :=
  let first := a in
  let lo := 0 in
  let hi := b - a in
  d ← loop (S (S (Z.to_nat hi)))
        (λ '(i, d),
          if 0 <=? i then d' ← siftDown d i hi first; Some (inl (i - 1, d'))
          else Some (inr d))
        ((hi - 1) ÷ 2, d);
  loop (S (Z.to_nat hi))
    (λ '(i, d),
      if 0 <=? i then
        d' ← Swap data d first (first + i);
        d'' ← siftDown d' lo i first;
        Some (inl (i - 1, d''))
      else Some (inr d))
    (hi - 1, d).

(** The two scanning loops shared by [partition]:
    for i <= j && data.Less(i, a) { i++ } and
    for i <= j && !data.Less(j, a) { j-- }. *)
Definition scan_up (a j : Z) (d : D) (i : Z) : option Z :=
  loop (S (Z.to_nat (j + 1 - i)))
    (λ i, if i <=? j then
            c ← Less data d i a;
            Some (if c : bool then inl (i + 1) else inr i)
          else Some (inr i))
    i.

Definition scan_down (a i : Z) (d : D) (j : Z) : option Z :=
  loop (S (Z.to_nat (j + 1 - i)))
    (λ j, if i <=? j then
            c ← Less data d j a;
            Some (if c : bool then inr j else inl (j - 1))
          else Some (inr j))
    j.

(** [partition] does one quicksort partition: with p = data[pivot], it
    moves the elements of data[a:b] so that data[i] < p and data[j] >= p for
    i < newpivot and j > newpivot, and leaves p at newpivot. It returns
    newpivot and whether the slice was already partitioned. *)
Definition partition (d : D) (a b pivot : Z) : option (D * Z * bool) :=
  d ← Swap data d a pivot;
  let i := a + 1 in
  let j := b - 1 in
  i ← scan_up a j d i;
  j ← scan_down a i d j;
  if j <? i then
    d ← Swap data d j a; Some (d, j, true)
  else
    d ← Swap data d i j;
    let i := i + 1 in
    let j := j - 1 in
    '(i, j, d) ← loop (S (Z.to_nat (j + 1 - i)))
      (λ '(i, j, d),
        i ← scan_up a j d i;
        j ← scan_down a i d j;
        if j <? i then Some (inr (i, j, d))
        else d' ← Swap data d i j; Some (inl (i + 1, j - 1, d')))
      (i, j, d);
    d ← Swap data d j a;
    Some (d, j, false).

(** The scanning loops of [partitionEqual]:
    for i <= j && !data.Less(a, i) { i++ } and
    for i <= j && data.Less(a, j) { j-- }. *)
Definition scan_up_eq (a j : Z) (d : D) (i : Z) : option Z :=
  loop (S (Z.to_nat (j + 1 - i)))
    (λ i, if i <=? j then
            c ← Less data d a i;
            Some (if c : bool then inr i else inl (i + 1))
          else Some (inr i))
    i.

Definition scan_down_eq (a i : Z) (d : D) (j : Z) : option Z :=
  loop (S (Z.to_nat (j + 1 - i)))
    (λ j, if i <=? j then
            c ← Less data d a j;
            Some (if c : bool then inl (j - 1) else inr j)
          else Some (inr j))
    j.

(** [partitionEqual] partitions data[a:b] into elements equal to
    data[pivot] followed by elements greater than data[pivot]. *)
Definition partitionEqual (d : D) (a b pivot : Z) : option (D * Z) :=
  d ← Swap data d a pivot;
  let i := a + 1 in
  let j := b - 1 in
  loop (S (Z.to_nat (j + 1 - i)))
    (λ '(i, j, d),
      i ← scan_up_eq a j d i;
      j ← scan_down_eq a i d j;
      if j <? i then Some (inr (d, i))
      else d' ← Swap data d i j; Some (inl (i + 1, j - 1, d')))
    (i, j, d).

(** The inner shifting loops of [partialInsertionSort]. *)
Definition shift_left (d : D) (i : Z) : option D :=
  loop (S (Z.to_nat i))
    (λ '(j, d),
      if 1 <=? j then
        c ← Less data d j (j - 1);
        if c : bool then d' ← Swap data d j (j - 1); Some (inl (j - 1, d'))
        else Some (inr d)
      else Some (inr d))
    (i - 1, d).

Definition shift_right (d : D) (i b : Z) : option D :=
  loop (S (Z.to_nat (b - i)))
    (λ '(j, d),
      if j <? b then
        c ← Less data d j (j - 1);
        if c : bool then d' ← Swap data d j (j - 1); Some (inl (j + 1, d'))
        else Some (inr d)
      else Some (inr d))
    (i + 1, d).

(** for i < b && !data.Less(i, i-1) { i++ } *)
Definition scan_sorted (d : D) (b i : Z) : option Z :=
  loop (S (Z.to_nat (b - i)))
    (λ i, if i <? b then
            c ← Less data d i (i - 1);
            Some (if c : bool then inr i else inl (i + 1))
          else Some (inr i))
    i.

Definition maxSteps : Z := 5.
Definition shortestShifting : Z := 50.

(** [partialInsertionSort] partially sorts a slice; it returns true if the
    slice is sorted at the end. *)
Definition partialInsertionSort (d : D) (a b : Z) : option (D * bool) :=
  loop (S (Z.to_nat maxSteps))
    (λ '(j, i, d),
      if j <? maxSteps then
        i ← scan_sorted d b i;
        if i =? b then Some (inr (d, true))
        else if b - a <? shortestShifting then Some (inr (d, false))
        else
          d ← Swap data d i (i - 1);
          d ← (if 2 <=? i - a then shift_left d i else Some d);
          d ← (if 2 <=? b - i then shift_right d i b else Some d);
          Some (inl (j + 1, i, d))
      else Some (inr (d, false)))
    (0, a + 1, d).

(** [breakPatterns] scatters three elements around to break patterns that
    might cause imbalanced partitions. *)
Definition breakPatterns (d : D) (a b : Z) : option D :=
  let length := b - a in
  if 8 <=? length then
    let random := uint length in
    let modulus := nextPowerOfTwo length in
    let idx := a + (length ÷ 4) * 2 - 1 in
    '(_, _, d) ← loop 4%nat
      (λ '(i, random, d),
        if i <? 3 then
          let random := xorshift_Next random in
          let other := Z.land (uint random) (modulus - 1) in
          let other := if length <=? other then other - length else other in
          d' ← Swap data d (idx - 1 + i) (a + other);
          Some (inl (i + 1, random, d'))
        else Some (inr (i, random, d)))
      (0, random, d);
    Some d
  else Some d.

(** [order2], [median] and [medianAdjacent] thread the swap counter that
    the Go code passes by pointer. *)
Definition order2 (d : D) (a b swaps : Z) : option (Z * Z * Z) :=
  c ← Less data d b a;
  Some (if c : bool then (b, a, swaps + 1) else (a, b, swaps)).

Definition median (d : D) (a b c swaps : Z) : option (Z * Z) :=
  '(a, b, swaps) ← order2 d a b swaps;
  '(b, c, swaps) ← order2 d b c swaps;
  '(a, b, swaps) ← order2 d a b swaps;
  Some (b, swaps).

Definition medianAdjacent (d : D) (a swaps : Z) : option (Z * Z) :=
  median d (a - 1) a (a + 1) swaps.

Definition shortestNinther : Z := 50.
Definition maxSwaps : Z := 4 * 3.

(** [choosePivot] chooses a pivot in data[a:b]: a static one for fewer
    than 8 elements, the median of three below [shortestNinther], Tukey's
    ninther above. *)
Definition choosePivot (d : D) (a b : Z) : option (Z * sortedHint) :=
  let l := b - a in
  let swaps := 0 in
  let i := a + l ÷ 4 * 1 in
  let j := a + l ÷ 4 * 2 in
  let k := a + l ÷ 4 * 3 in
  '(j, swaps) ←
    (if 8 <=? l then
       '(i, j, k, swaps) ←
         (if shortestNinther <=? l then
            '(i, swaps) ← medianAdjacent d i swaps;
            '(j, swaps) ← medianAdjacent d j swaps;
            '(k, swaps) ← medianAdjacent d k swaps;
            Some (i, j, k, swaps)
          else Some (i, j, k, swaps));
       median d i j k swaps
     else Some (j, swaps));
  Some (if swaps =? 0 then (j, increasingHint)
        else if swaps =? maxSwaps then (j, decreasingHint)
        else (j, unknownHint)).

Definition reverseRange (d : D) (a b : Z) : option D :=
  loop (S (Z.to_nat (b - a)))
    (λ '(i, j, d),
      if i <? j then d' ← Swap data d i j; Some (inl (i + 1, j - 1, d'))
      else Some (inr d))
    (a, b - 1, d).

Definition maxInsertion : Z := 12.

Definition hint_eqb (h1 h2 : sortedHint) : bool :=
  match h1, h2 with
  | unknownHint, unknownHint | increasingHint, increasingHint
  | decreasingHint, decreasingHint => true
  | _, _ => false
  end.

(** [pdqsort] sorts data[a:b]. One unfolding is one turn of the Go
    function's [for] loop; the loop's variables [a], [b], [limit],
    [wasBalanced] and [wasPartitioned] are the arguments of the next
    turn, and the recursive call starts with both flags set. *)
Fixpoint pdqsort (fuel : nat) (d : D) (a b limit : Z)
    (wasBalanced wasPartitioned : bool) : option D :=
  match fuel with
  | O => None
  | S fuel =>
      let length := b - a in
      if length <=? maxInsertion then insertionSort d a b
      else if limit =? 0 then heapSort d a b
      else
        '(d, limit) ← (if negb wasBalanced
                       then d' ← breakPatterns d a b; Some (d', limit - 1)
                       else Some (d, limit));
        '(pivot, hint) ← choosePivot d a b;
        '(d, pivot, hint) ←
          (if hint_eqb hint decreasingHint then
             d' ← reverseRange d a b;
             Some (d', (b - 1) - (pivot - a), increasingHint)
           else Some (d, pivot, hint));
        '(d, done) ←
          (if wasBalanced && wasPartitioned && hint_eqb hint increasingHint
           then partialInsertionSort d a b
           else Some (d, false));
        if done : bool then Some d
        else
          dup ← (if 0 <? a then c ← Less data d (a - 1) pivot; Some (negb c)
                 else Some false);
          if dup : bool then
            '(d, mid) ← partitionEqual d a b pivot;
            pdqsort fuel d mid b limit wasBalanced wasPartitioned
          else
            '(d, mid, alreadyPartitioned) ← partition d a b pivot;
            let wasPartitioned := alreadyPartitioned in
            let leftLen := mid - a in
            let rightLen := b - mid in
            let balanceThreshold := length ÷ 8 in
            if leftLen <? rightLen then
              let wasBalanced := balanceThreshold <=? leftLen in
              d ← pdqsort fuel d a mid limit true true;
              pdqsort fuel d (mid + 1) b limit wasBalanced wasPartitioned
            else
              let wasBalanced := balanceThreshold <=? rightLen in
              d ← pdqsort fuel d (mid + 1) b limit true true;
              pdqsort fuel d a mid limit wasBalanced wasPartitioned
  end.

(** [func Sort(data Interface)]. *)
Definition Sort (d : D) : option D :=
  let n := Len data d in
  if n <=? 1 then Some d
  else
    let limit := bits_Len (uint n) in
    pdqsort (S (Z.to_nat n)) d 0 n limit true true.

End Algorithms.
End sort.

(** A slice of [A] ordered by a comparison of its elements, as
    [sortWrapper] implements [sort.Interface]. *)
Definition slice_Swap {A : Type} (w : list A) (i j : Z) : option (list A) :=
  x ← index w i;
  y ← index w j;
  Some (<[Z.to_nat j := x]> (<[Z.to_nat i := y]> w)).

Definition slice_Interface {A : Type} (less : A → A → bool)
    : sort.Interface (list A) :=
  {| sort.Len := λ w, Z.of_nat (length w);
     sort.Less := λ w i j, x ← index w i; y ← index w j; Some (less x y);
     sort.Swap := slice_Swap |}.

(** ** Package time

    A [time.Time] is an instant, counted in nanoseconds from the zero value
    [time.Time{}]; a [time.Duration] is an int64 count of nanoseconds. *)

Definition Time : Type := Z.
Definition Duration : Type := Z.

Definition Time_zero : Time := 0.
Definition minDuration : Duration := - 2 ^ 63.
Definition maxDuration : Duration := 2 ^ 63 - 1.
Definition Hour : Duration := 60 * (60 * (1000 * (1000 * 1000))).

Definition Time_Before (t u : Time) : bool := t <? u.

(** [t.Sub(u)]: the difference, saturated to the range of a Duration. *)
Definition Time_Sub (t u : Time) : Duration :=
  let d := t - u in
  if d <? minDuration then minDuration
  else if maxDuration <? d then maxDuration
  else d.

(** [time.Until(t)] when the clock reads [now]. *)
Definition time_Until (now t : Time) : Duration := Time_Sub t now.

(** [t.UTC()] changes the location a time is printed in, not the instant. *)
Definition Time_UTC (t : Time) : Time := t.

(** ** Errors *)

Inductive ctxval : Type :=
  | CtxString (s : string)
  | CtxInt (n : Z).

Inductive error : Type :=
  | serrors_New (msg : string) (ctx : list (string * ctxval))
  | serrors_Wrap (msg : string) (cause : error)
  | hex_ErrLength
  | hex_InvalidByteError (c : ascii)
  | external_error (text : string).

(** [serrors.List.ToError]: nil for an empty list, the list itself (as an
    error) otherwise. *)
Definition List_ToError (errs : list error) : option (list error) :=
  match errs with
  | [] => None
  | _ :: _ => Some errs
  end.

(** ** Package encoding/hex *)

Definition fromHexChar (c : ascii) : option Z :=
  let n := Z.of_nat (nat_of_ascii c) in
  if (48 <=? n) && (n <=? 57) then Some (n - 48)
  else if (97 <=? n) && (n <=? 102) then Some (n - 97 + 10)
  else if (65 <=? n) && (n <=? 70) then Some (n - 65 + 10)
  else None.

Fixpoint hex_Decode (src : string) : list Z * option error :=
  match src with
  | EmptyString => ([], None)
  | String p EmptyString =>
      match fromHexChar p with
      | None => ([], Some (hex_InvalidByteError p))
      | Some _ => ([], Some hex_ErrLength)
      end
  | String p (String q rest) =>
      match fromHexChar p with
      | None => ([], Some (hex_InvalidByteError p))
      | Some a =>
          match fromHexChar q with
          | None => ([], Some (hex_InvalidByteError q))
          | Some b =>
              let '(dst, err) := hex_Decode rest in
              (Z.lor (Z.shiftl a 4) b :: dst, err)
          end
      end
  end.

Definition hex_DecodeString (s : string) : list Z * option error := hex_Decode s.

(** ** Data of the handlers *)

Definition IA : Type := Z.

(** The fields of [seg.PathSegment] and [beaconstorage.Beacon] the handlers
    read. *)
Record ASEntry : Type := {
  Local : IA;
  ConsIngress : Z;
  ConsEgress : Z
}.

Record PathSegment : Type := {
  Info_Timestamp : Time;
  ASEntries : list ASEntry
}.

Record StoredBeacon : Type := {
  Segment : PathSegment;
  InIfID : Z;
  Usage : Z;
  stored_LastUpdated : Time
}.

Record QueryParams : Type := {
  SegIDs : list (list Z);
  StartsAt : list IA;
  IngressInterfaces : list Z;
  Usages : list Z;
  ValidAt : Time
}.

Record GetBeaconsParams : Type := {
  param_StartIsdAs : option string;
  param_Usages : option (list string);
  param_IngressInterface : option Z;
  param_All : option bool;
  param_ValidAt : option Time;
  param_Sort : option string;
  param_Desc : option bool
}.

Record Hop : Type := {
  Interface : Z;
  IsdAs : string
}.

Record Beacon : Type := {
  beacon_Usages : list string;
  IngressInterface : Z;
  Id : string;
  LastUpdated : Time;
  Timestamp : Time;
  Expiration : Time;
  Hops : list Hop
}.

Inductive ProblemType : Set := BadRequest | InternalError.

Record Problem : Type := {
  problem_Detail : option string;
  problem_Status : Z;
  problem_Title : string;
  problem_Type : option ProblemType
}.

Definition StatusBadRequest : Z := 400.
Definition StatusInternalServerError : Z := 500.

Inductive Status : Set := Passing | Degraded | Failing.

Inductive DataValue : Type :=
  | DString (s : string)
  | DBool (b : bool)
  | DNumber (n : Z).

Definition CheckData : Type := gmap string DataValue.

Record Check : Type := {
  check_Data : gmap string DataValue;
  check_Detail : option string;
  check_Name : string;
  check_Status : Status
}.

Record Health : Type := {
  health_Checks : list Check;
  health_Status : Status
}.

Record HealthResponse : Type := { response_Health : Health }.

Record SignerHealthData : Type := {
  SignerMissing : bool;
  SignerMissingDetail : string;
  signer_Expiration : Time;
  InGrace : bool
}.

Record TRCID : Type := {
  trcid_ISD : Z;
  trcid_Base : Z;
  trcid_Serial : Z
}.

Record TRCHealthData : Type := {
  TRCNotFound : bool;
  TRCNotFoundDetail : string;
  trc_TRCID : TRCID
}.

Definition CAHealthStatus : Type := string.
Definition Available : CAHealthStatus := "available".
Definition Starting : CAHealthStatus := "starting".
Definition Stopping : CAHealthStatus := "stopping".
Definition Unavailable : CAHealthStatus := "unavailable".

(** What a handler leaves on the wire: a problem document written by
    [ErrorResponse], or the JSON encoding of a value. A handler that panics
    writes neither. *)
Inductive Payload : Type :=
  | BeaconsPayload (rep : list Beacon)
  | BeaconPayload (b : Beacon)
  | HealthPayload (rep : HealthResponse).

Inductive Response : Type :=
  | ErrorResponse (p : Problem)
  | Encoded (v : Payload)
  | Panicked.

(** ** Collaborators

    Functions and constants the handlers call and the file does not
    define. *)

(** The four usage flags of package beacon and the four tokens of the API
    that name them. Their values are declared outside of api.go and are
    parameters here. *)
Class UsageNames : Type := {
  UsageUpReg : Z;
  UsageDownReg : Z;
  UsageCoreReg : Z;
  UsageProp : Z;
  UpRegistration : string;
  DownRegistration : string;
  CoreRegistration : string;
  Propagation : string
}.

(** [addr.ParseIA], [IA.String], the [Error] methods of an error and of a
    [serrors.List], [segapi.SegID], [PathSegment.MinExpiry],
    [Time.Format(time.RFC3339)], and the JSON encoder writing to the
    response ([None]: no error). *)
Class Collaborators : Type := {
  addr_ParseIA : string → IA + error;
  IA_String : IA → string;
  error_Error : error → string;
  List_Error : list error → string;
  segapi_SegID : PathSegment → string;
  MinExpiry : PathSegment → Time;
  Format_RFC3339 : Time → string;
  json_Encode : Payload → option error
}.

(** The interfaces [BeaconStore] and [Healther] of api.go; a store answers
    a query with records or with an error. *)
Class BeaconStore : Type := {
  store_GetBeacons : QueryParams → list StoredBeacon + error
}.

Class Healther : Type := {
  GetSignerHealth : SignerHealthData;
  GetTRCHealth : TRCHealthData;
  GetCAHealth : CAHealthStatus * bool
}.

(** Modelled from the spec: [healthapi.AggregateHealthStatus], which lives
    in private/mgmtapi/health/api: "the aggregate status is the least
    healthy of all included checks under the total order Failing > Degraded
    > Passing (Failing dominates if any check fails; otherwise Degraded
    dominates if any check is degraded; otherwise Passing)". *)
Definition AggregateHealthStatus (statuses : list Status) : Status :=
  if existsb (λ s, match s with Failing => true | _ => false end) statuses
  then Failing
  else if existsb (λ s, match s with Degraded => true | _ => false end) statuses
  then Degraded
  else Passing.

(** ** The handlers of api.go *)

Section Handlers.
Context {names : UsageNames} {ext : Collaborators} {store : BeaconStore}
        {healther : Healther}.

(** [UnpackBeaconUsages] extracts the Usage's bits as string constants. *)
Definition UnpackBeaconUsages (u : Z) : list string :=
  let names := [] in
  let names := if Z.land u UsageUpReg =? 0 then names
               else names ++ [UpRegistration] in
  let names := if Z.land u UsageDownReg =? 0 then names
               else names ++ [DownRegistration] in
  let names := if Z.land u UsageCoreReg =? 0 then names
               else names ++ [CoreRegistration] in
  let names := if Z.land u UsageProp =? 0 then names
               else names ++ [Propagation] in
  names.

(** One turn of the loop over [*params.Usages] in [GetBeacons]. *)
Definition usage_step (s : Z * list error) (usageFlag : string)
    : Z * list error :=
  let '(usage, errs) := s in
  if String.eqb usageFlag CoreRegistration
  then (Z.lor usage UsageCoreReg, errs)
  else if String.eqb usageFlag DownRegistration
  then (Z.lor usage UsageDownReg, errs)
  else if String.eqb usageFlag Propagation
  then (Z.lor usage UsageProp, errs)
  else if String.eqb usageFlag UpRegistration
  then (Z.lor usage UsageUpReg, errs)
  else (usage, errs ++ [serrors_New "unknown value for parameter"
                          [("usage", CtxString usageFlag)]]).

Definition uint16 (x : Z) : Z := x mod 2 ^ 16.

Definition len {A : Type} (l : list A) : Z := Z.of_nat (length l).

(** [sortFactory]: the less function for the sort parameter; the
    returned closure wraps it into a [sortWrapper]. *)
Definition sortFactory (sortParam : option string)
    : (Beacon → Beacon → bool) + error :=
  let by_ := match sortParam with Some s => s | None => "last_updated" end in
  if String.eqb by_ "expiration_time" then
    inl (λ a b, Time_Before (Expiration a) (Expiration b))
  else if String.eqb by_ "info_time" then
    inl (λ a b, Time_Before (Timestamp a) (Timestamp b))
  else if String.eqb by_ "start_isd_as" then
    inl (λ a b,
      match Hops a, Hops b with
      | ha :: _, hb :: _ => String.ltb (IsdAs ha) (IsdAs hb)
      | _, _ => len (Hops a) <? len (Hops b)
      end)
  else if String.eqb by_ "last_updated" then
    inl (λ a b, Time_Before (LastUpdated a) (LastUpdated b))
  else if String.eqb by_ "ingress_interface" then
    inl (λ a b, IngressInterface a <? IngressInterface b)
  else inr (serrors_New "unknown query parameter" [("sort", CtxString by_)]).

Definition sortWrapper (less : Beacon → Beacon → bool)
    : sort.Interface (list Beacon) :=
  slice_Interface less.

(** The hops of a segment: the first AS entry contributes its egress
    interface, every later one its ingress and then its egress. *)
Fixpoint hops_from (i : Z) (entries : list ASEntry) : list Hop :=
  match entries with
  | [] => []
  | as_ :: rest =>
      (if i =? 0 then []
       else [{| Interface := ConsIngress as_; IsdAs := IA_String (Local as_) |}])
      ++ {| Interface := ConsEgress as_; IsdAs := IA_String (Local as_) |}
      :: hops_from (i + 1) rest
  end.

(** The public form of a stored beacon, as both [GetBeacons] and
    [GetBeacon] build it. *)
Definition project (result : StoredBeacon) : Beacon :=
  let s := Segment result in
  {| beacon_Usages := UnpackBeaconUsages (Usage result);
     IngressInterface := InIfID result;
     Id := segapi_SegID s;
     LastUpdated := stored_LastUpdated result;
     Timestamp := Time_UTC (Info_Timestamp s);
     Expiration := Time_UTC (MinExpiry s);
     Hops := hops_from 0 (ASEntries s) |}.

(** The first part of [GetBeacons], up to the call of [errs.ToError]: the
    query for the store, the accumulated errors and the sort function
    ([None] for the nil function [sortFactory] returns with an error). *)
Definition GetBeacons_query (now : Time) (params : GetBeaconsParams)
    : QueryParams * list error * option (Beacon → Beacon → bool) :=
  let errs := [] in
  let '(startsAt, errs) :=
    match param_StartIsdAs params with
    | Some s =>
        match addr_ParseIA s with
        | inl ia => ([ia], errs)
        | inr err => ([], errs ++ [serrors_Wrap "parsing start_isd_as" err])
        end
    | None => ([], errs)
    end in
  let '(usages, errs) :=
    match param_Usages params with
    | Some flags =>
        let '(usage, errs) := fold_left usage_step flags (0, errs) in
        ([usage], errs)
    | None => ([], errs)
    end in
  let '(ifaces, errs) :=
    match param_IngressInterface params with
    | Some v =>
        let errs :=
          if (v <? 0) || (65535 <? v)
          then errs ++ [serrors_New "value for parameter out of range"
                          [("ingress_interface", CtxInt v)]]
          else errs in
        ([uint16 v], errs)
    | None => ([], errs)
    end in
  let validAt :=
    match param_All params, param_ValidAt params with
    | Some true, _ => Time_zero
    | _, Some t => t
    | _, None => now
    end in
  let '(sortFn, errs) :=
    match sortFactory (param_Sort params) with
    | inl less => (Some less, errs)
    | inr err => (None, errs ++ [err])
    end in
  ({| SegIDs := []; StartsAt := startsAt; IngressInterfaces := ifaces;
      Usages := usages; ValidAt := validAt |}, errs, sortFn).

(** [GetBeacons]: the queries sent to the beacon store, in order, and the
    response. [now] is what [time.Now()] returns. *)
Definition GetBeacons (now : Time) (params : GetBeaconsParams)
    : list QueryParams * Response :=
  let '(q, errs, sortFn) := GetBeacons_query now params in
  match List_ToError errs with
  | Some err =>
      ([], ErrorResponse
             {| problem_Detail := Some (List_Error err);
                problem_Status := StatusBadRequest;
                problem_Title := "malformed query parameters";
                problem_Type := Some BadRequest |})
  | None =>
      match store_GetBeacons q with
      | inr err =>
          ([q], ErrorResponse
                  {| problem_Detail := Some (error_Error err);
                     problem_Status := StatusInternalServerError;
                     problem_Title := "error getting beacons";
                     problem_Type := Some InternalError |})
      | inl results =>
          let rep := map project results in
          match sortFn with
          | None => ([q], Panicked)
          | Some less =>
              let sorter := sortWrapper less in
              let sorter :=
                match param_Desc params with
                | Some true => sort.Reverse sorter
                | _ => sorter
                end in
              match sort.Sort sorter rep with
              | None => ([q], Panicked)
              | Some rep =>
                  match json_Encode (BeaconsPayload rep) with
                  | Some err =>
                      ([q], ErrorResponse
                              {| problem_Detail := Some (error_Error err);
                                 problem_Status := StatusInternalServerError;
                                 problem_Title := "unable to marshal response";
                                 problem_Type := Some InternalError |})
                  | None => ([q], Encoded (BeaconsPayload rep))
                  end
              end
          end
      end
  end.

Definition GetBeacon (segmentId : string) : list QueryParams * Response :=
  match hex_DecodeString segmentId with
  | (_, Some err) =>
      ([], ErrorResponse
             {| problem_Detail := Some (error_Error err);
                problem_Status := StatusBadRequest;
                problem_Title := "error decoding segment id";
                problem_Type := Some BadRequest |})
  | (id, None) =>
      let q := {| SegIDs := [id]; StartsAt := []; IngressInterfaces := [];
                  Usages := []; ValidAt := Time_zero |} in
      match store_GetBeacons q with
      | inr err =>
          ([q], ErrorResponse
                  {| problem_Detail := Some (error_Error err);
                     problem_Status := StatusInternalServerError;
                     problem_Title := "error getting beacons";
                     problem_Type := Some InternalError |})
      | inl results =>
          if len results =? 0 then
            ([q], ErrorResponse
                    {| problem_Detail :=
                         Some ("no beacon matched provided segment ID: "
                               +:+ segmentId);
                       problem_Status := StatusBadRequest;
                       problem_Title := "malformed query parameter";
                       problem_Type := Some BadRequest |})
          else if 1 <? len results then
            ([q], ErrorResponse
                    {| problem_Detail :=
                         Some (pretty (len results)
                               +:+ " beacons matched provided segment ID: "
                               +:+ segmentId);
                       problem_Status := StatusBadRequest;
                       problem_Title := "malformed query parameter";
                       problem_Type := Some BadRequest |})
          else
            match results with
            | [] => ([q], Panicked)
            | result :: _ =>
                let res := BeaconPayload (project result) in
                match json_Encode res with
                | Some err =>
                    ([q], ErrorResponse
                            {| problem_Detail := Some (error_Error err);
                               problem_Status := StatusInternalServerError;
                               problem_Title := "unable to marshal response";
                               problem_Type := Some InternalError |})
                | None => ([q], Encoded res)
                end
            end
      end
  end.

Definition StringRef_nonempty (s : string) : option string :=
  if String.eqb s "" then None else Some s.

Definition grace_detail : string :=
  "signer certificate is authenticated" +:+ String (ascii_of_nat 10)
    (String (ascii_of_nat 9) (String (ascii_of_nat 9) "by TRC in grace period")).

(** The signer check of [GetHealth]. [now1] and [now2] are the clock
    readings of the two calls of [time.Until], in the order the switch
    evaluates its cases. *)
Definition signerCheck (now1 now2 : Time) (signerHealth : SignerHealthData)
    : Check :=
  let name := "valid signer available" in
  let expires_at := DString (Format_RFC3339 (signer_Expiration signerHealth)) in
  if SignerMissing signerHealth then
    {| check_Data := ∅;
       check_Detail := StringRef_nonempty (SignerMissingDetail signerHealth);
       check_Name := name;
       check_Status := Failing |}
  else if time_Until now1 (signer_Expiration signerHealth) <=? 0 then
    {| check_Data := {[ "expires_at" := expires_at ]};
       check_Detail := Some "signer certificate has expired";
       check_Name := name;
       check_Status := Failing |}
  else if InGrace signerHealth then
    {| check_Data := <[ "in_grace" := DBool true ]>
                       {[ "expires_at" := expires_at ]};
       check_Detail := Some grace_detail;
       check_Name := name;
       check_Status := Degraded |}
  else if time_Until now2 (signer_Expiration signerHealth) <? 6 * Hour then
    {| check_Data := {[ "expires_at" := expires_at ]};
       check_Detail := Some "signer certificate is close to expiration";
       check_Name := name;
       check_Status := Degraded |}
  else
    {| check_Data := {[ "expires_at" := expires_at ]};
       check_Detail := None;
       check_Name := name;
       check_Status := Passing |}.

Definition trcCheck (trcHealthData : TRCHealthData) : Check :=
  let detail := StringRef_nonempty (TRCNotFoundDetail trcHealthData) in
  if negb (TRCNotFound trcHealthData) then
    {| check_Data :=
         <[ "isd" := DNumber (trcid_ISD (trc_TRCID trcHealthData)) ]>
         (<[ "serial_number" := DNumber (trcid_Serial (trc_TRCID trcHealthData)) ]>
          {[ "base_number" := DNumber (trcid_Base (trc_TRCID trcHealthData)) ]});
       check_Detail := detail;
       check_Name := "TRC for local ISD available";
       check_Status := Passing |}
  else
    {| check_Data := ∅;
       check_Detail := detail;
       check_Name := "TRC for local ISD available";
       check_Status := Failing |}.

Definition caCheck (status : CAHealthStatus) : Check :=
  {| check_Data := {[ "status" := DString status ]};
     check_Detail := None;
     check_Name := "CPPKI CA Connection";
     check_Status := if String.eqb status Available then Passing else Degraded |}.

(** The checks [GetHealth] collects, in the order it appends them. *)
Definition GetHealth_checks (now1 now2 : Time) : list Check :=
  let checks := [] in
  let checks := checks ++ [signerCheck now1 now2 GetSignerHealth] in
  let checks := checks ++ [trcCheck GetTRCHealth] in
  let checks :=
    match GetCAHealth with
    | (status, true) => checks ++ [caCheck status]
    | (_, false) => checks
    end in
  checks.

Definition GetHealth_report (now1 now2 : Time) : HealthResponse :=
  let checks := GetHealth_checks now1 now2 in
  {| response_Health :=
       {| health_Checks := checks;
          health_Status := AggregateHealthStatus (map check_Status checks) |} |}.

Definition GetHealth (now1 now2 : Time) : Response :=
  let rep := GetHealth_report now1 now2 in
  match json_Encode (HealthPayload rep) with
  | Some err =>
      ErrorResponse
        {| problem_Detail := Some (error_Error err);
           problem_Status := StatusInternalServerError;
           problem_Title := "unable to marshal response";
           problem_Type := Some InternalError |}
  | None => Encoded (HealthPayload rep)
  end.

End Handlers.

(** ** The handlers that answer with a status or with a blob

    [DeleteBeacon], [GetBeaconBlob] and [GetSignerChain] answer with a bare
    status or with raw bytes. They are modelled on the response writer
    itself: a [ResponseWriter] is the list of the calls it has received,
    in order. *)

Module Writer.

Inductive Call : Type :=
  | Header_Set (key value : string)
  | WriteHeader (statusCode : Z)
  | Encode (p : Problem)
  | Write (b : list Z).

Definition ResponseWriter : Type := list Call.

Definition StatusNoContent : Z := 204.

(** [ErrorResponse] creates a detailed error response; the error of the
    encoder is dropped. *)
Definition ErrorResponse (w : ResponseWriter) (p : Problem) : ResponseWriter :=
  let w := w ++ [Header_Set "Content-Type" "application/problem+json"] in
  let w := w ++ [WriteHeader (problem_Status p)] in
  w ++ [Encode p].

(** The method [DeleteBeacon] of the interface [BeaconStore] ([None]: no
    error). *)
Class BeaconDeleter : Type := {
  store_DeleteBeacon : string → option error
}.

(** [proto.Marshal(seg.PathSegmentToPB(segment))], and [pem.Encode] on a
    block of the given type and bytes: what it appends to the buffer, or
    its error. *)
Class BlobCollaborators : Type := {
  proto_Marshal : PathSegment → list Z + error;
  pem_Encode : string → list Z → list Z + error
}.

(** The fields of [trust.Signer] and [x509.Certificate] that
    [GetSignerChain] reads, [SignerGen.Generate] and [trust.LastExpiring]
    with the bounds of the validity period it is given. *)
Record Certificate : Type := { Raw : list Z }.

Record Signer : Type := { Chain : list Certificate }.

Class SignerSource : Type := {
  SignerGen_Generate : list Signer + error;
  trust_LastExpiring : list Signer → Time → Time → Signer + error
}.

Section Handlers.
Context {names : UsageNames} {ext : Collaborators} {store : BeaconStore}
        {deleter : BeaconDeleter} {blob : BlobCollaborators}
        {signers : SignerSource}.

(** [DeleteBeacon]: the identifiers the store is asked to delete, in
    order, and the writer the handler leaves. *)
Definition DeleteBeacon (w : ResponseWriter) (segmentId : string)
    : list string * ResponseWriter :=
  if String.eqb segmentId "" then
    ([], ErrorResponse w
           {| problem_Detail := None;
              problem_Status := StatusBadRequest;
              problem_Title := "segment ID is required";
              problem_Type := Some BadRequest |})
  else
    match store_DeleteBeacon segmentId with
    | Some err =>
        ([segmentId], ErrorResponse w
                        {| problem_Detail := Some (error_Error err);
                           problem_Status := StatusInternalServerError;
                           problem_Title := "unable to delete beacon";
                           problem_Type := Some InternalError |})
    | None => ([segmentId], w ++ [WriteHeader StatusNoContent])
    end.

(** [GetBeaconBlob]: the queries sent to the beacon store and the writer
    the handler leaves, [None] if it panics. *)
Definition GetBeaconBlob (w : ResponseWriter) (segmentId : string)
    : list QueryParams * option ResponseWriter :=
  let w := w ++ [Header_Set "Content-Type" "application/x-pem-file"] in
  match hex_DecodeString segmentId with
  | (_, Some err) =>
      ([], Some (ErrorResponse w
             {| problem_Detail := Some (error_Error err);
                problem_Status := StatusBadRequest;
                problem_Title := "error decoding segment id";
                problem_Type := Some BadRequest |}))
  | (id, None) =>
      let q := {| SegIDs := [id]; StartsAt := []; IngressInterfaces := [];
                  Usages := []; ValidAt := Time_zero |} in
      match store_GetBeacons q with
      | inr err =>
          ([q], Some (ErrorResponse w
                  {| problem_Detail := Some (error_Error err);
                     problem_Status := StatusInternalServerError;
                     problem_Title := "error getting beacons";
                     problem_Type := Some InternalError |}))
      | inl results =>
          if len results =? 0 then
            ([q], Some (ErrorResponse w
                    {| problem_Detail :=
                         Some ("no beacon matched provided segment ID: "
                               +:+ segmentId);
                       problem_Status := StatusBadRequest;
                       problem_Title := "malformed query parameter";
                       problem_Type := Some BadRequest |}))
          else if 1 <? len results then
            ([q], Some (ErrorResponse w
                    {| problem_Detail :=
                         Some (pretty (len results)
                               +:+ " beacons matched provided segment ID: "
                               +:+ segmentId);
                       problem_Status := StatusBadRequest;
                       problem_Title := "malformed query parameter";
                       problem_Type := Some BadRequest |}))
          else
            match index results 0 with
            | None => ([q], None)
            | Some result =>
                let buf : list Z := [] in
                let segment := Segment result in
                match proto_Marshal segment with
                | inr err =>
                    ([q], Some (ErrorResponse w
                            {| problem_Detail := Some (error_Error err);
                               problem_Status := StatusInternalServerError;
                               problem_Title := "unable to marshal beacon";
                               problem_Type := Some InternalError |}))
                | inl bytes =>
                    match pem_Encode "PATH SEGMENT" bytes with
                    | inr err =>
                        ([q], Some (ErrorResponse w
                                {| problem_Detail := Some (error_Error err);
                                   problem_Status := StatusInternalServerError;
                                   problem_Title := "unable to marshal response";
                                   problem_Type := Some InternalError |}))
                    | inl out => ([q], Some (w ++ [Write (buf ++ out)]))
                    end
                end
            end
      end
  end.

(** [Server.now]: the time of [nowProvider] when one is set, the clock
    otherwise. *)
Definition now (nowProvider : option Time) (clock : Time) : Time :=
  match nowProvider with
  | Some t => t
  | None => clock
  end.

(** The loop of [GetSignerChain] over [p.Chain]: the buffer once every
    certificate is encoded, or the error that ends the loop. *)
Fixpoint encode_chain (buf : list Z) (chain : list Certificate)
    : list Z + error :=
  match chain with
  | [] => inl buf
  | cert :: rest =>
      match pem_Encode "CERTIFICATE" (Raw cert) with
      | inr err => inr err
      | inl out => encode_chain (buf ++ out) rest
      end
  end.

Definition GetSignerChain (w : ResponseWriter) (nowProvider : option Time)
    (clock : Time) : ResponseWriter :=
  match SignerGen_Generate with
  | inr err =>
      ErrorResponse w
        {| problem_Detail := Some (error_Error err);
           problem_Status := StatusInternalServerError;
           problem_Title := "unable to get signer";
           problem_Type := Some InternalError |}
  | inl signers =>
      let now := now nowProvider clock in
      match trust_LastExpiring signers now now with
      | inr err =>
          ErrorResponse w
            {| problem_Detail := Some (error_Error err);
               problem_Status := StatusInternalServerError;
               problem_Title := "no signer currently valid";
               problem_Type := Some InternalError |}
      | inl p =>
          let buf : list Z := [] in
          if len (Chain p) =? 0 then
            ErrorResponse w
              {| problem_Detail := None;
                 problem_Status := StatusInternalServerError;
                 problem_Title := "no certificates available";
                 problem_Type := Some InternalError |}
          else
            match encode_chain buf (Chain p) with
            | inr err =>
                ErrorResponse w
                  {| problem_Detail := Some (error_Error err);
                     problem_Status := StatusInternalServerError;
                     problem_Title := "unable to marshal response";
                     problem_Type := Some InternalError |}
            | inl buf => w ++ [Write buf]
            end
      end
  end.

End Handlers.
End Writer.

(** ** Vocabulary of the statements *)

(** Modelled from the spec: "four flags exist: Up-Registration,
    Down-Registration, Core-Registration, Propagation, each a distinct
    bit". The four usage flags are powers of two, pairwise different; the
    four tokens are pairwise different (Go rejects a switch with a repeated
    constant case). *)
Definition single_bit (x : Z) : Prop := ∃ k, 0 ≤ k ∧ x = 2 ^ k.

Class UsageNamesSpec (names : UsageNames) : Prop := {
  flags_bits : Forall single_bit [UsageUpReg; UsageDownReg; UsageCoreReg; UsageProp];
  flags_distinct : NoDup [UsageUpReg; UsageDownReg; UsageCoreReg; UsageProp];
  tokens_distinct :
    NoDup [UpRegistration; DownRegistration; CoreRegistration; Propagation]
}.

Section Vocabulary.
Context {names : UsageNames} {ext : Collaborators}.

(** The bitmask obtained by OR-ing a subset of the four flags, the subset
    given by one boolean per flag. *)
Definition usage_mask (up down core prop : bool) : Z :=
  Z.lor (Z.lor (Z.lor (if up then UsageUpReg else 0)
                      (if down then UsageDownReg else 0))
               (if core then UsageCoreReg else 0))
        (if prop then UsageProp else 0).

Definition known_usage (t : string) : bool :=
  String.eqb t CoreRegistration || String.eqb t DownRegistration
  || String.eqb t Propagation || String.eqb t UpRegistration.

Definition known_sort_key (k : string) : bool :=
  bool_decide (k ∈ ["expiration_time"; "info_time"; "start_isd_as";
                    "last_updated"; "ingress_interface"]).

(** The errors of each field of a request, taken on its own. *)
Definition start_isd_as_errors (params : GetBeaconsParams) : list error :=
  match param_StartIsdAs params with
  | Some s =>
      match addr_ParseIA s with
      | inl _ => []
      | inr err => [serrors_Wrap "parsing start_isd_as" err]
      end
  | None => []
  end.

Definition usage_error (t : string) : error :=
  serrors_New "unknown value for parameter" [("usage", CtxString t)].

Definition usages_errors (params : GetBeaconsParams) : list error :=
  match param_Usages params with
  | Some flags => map usage_error (filter (λ t, known_usage t = false) flags)
  | None => []
  end.

Definition ingress_interface_errors (params : GetBeaconsParams) : list error :=
  match param_IngressInterface params with
  | Some v =>
      if bool_decide (0 ≤ v ≤ 65535) then []
      else [serrors_New "value for parameter out of range"
              [("ingress_interface", CtxInt v)]]
  | None => []
  end.

Definition sort_errors (params : GetBeaconsParams) : list error :=
  match param_Sort params with
  | Some k =>
      if known_sort_key k then []
      else [serrors_New "unknown query parameter" [("sort", CtxString k)]]
  | None => []
  end.

Definition field_errors (params : GetBeaconsParams) : list error :=
  start_isd_as_errors params ++ usages_errors params
  ++ ingress_interface_errors params ++ sort_errors params.

(** The number of malformed parameters of a request: one for an
    unparsable start ISD-AS, one per unknown usage token, one for an
    ingress interface out of range, one for an unknown sort key. *)
Definition malformed_count (params : GetBeaconsParams) : nat :=
  let start_isd_as : nat :=
    match param_StartIsdAs params with
    | Some s => if addr_ParseIA s is inr _ then 1%nat else 0%nat
    | None => 0%nat
    end in
  let usages : nat :=
    match param_Usages params with
    | Some flags => length (filter (λ t, known_usage t = false) flags)
    | None => 0%nat
    end in
  let ingress_interface : nat :=
    match param_IngressInterface params with
    | Some v => if bool_decide (0 ≤ v ≤ 65535) then 0%nat else 1%nat
    | None => 0%nat
    end in
  let sort_key : nat :=
    match param_Sort params with
    | Some k => if known_sort_key k then 0%nat else 1%nat
    | None => 0%nat
    end in
  (start_isd_as + usages + ingress_interface + sort_key)%nat.

Definition bad_request (title : string) (detail : string) : Response :=
  ErrorResponse {| problem_Detail := Some detail;
                   problem_Status := 400;
                   problem_Title := title;
                   problem_Type := Some BadRequest |}.

End Vocabulary.

(** The order Failing > Degraded > Passing. *)
Definition severity (s : Status) : nat :=
  match s with Passing => 0 | Degraded => 1 | Failing => 2 end.

(** The request that carries only usage tokens. *)
Definition request_with_usages (tokens : list string) : GetBeaconsParams :=
  {| param_StartIsdAs := None; param_Usages := Some tokens;
     param_IngressInterface := None; param_All := None;
     param_ValidAt := None; param_Sort := None; param_Desc := None |}.

(** The store query of a single-beacon lookup. *)
Definition lookup_query (id : list Z) : QueryParams :=
  {| SegIDs := [id]; StartsAt := []; IngressInterfaces := [];
     Usages := []; ValidAt := Time_zero |}.

(** The direction, the comparison and the sorter of a request. *)
Definition descending (params : GetBeaconsParams) : bool :=
  match param_Desc params with Some true => true | _ => false end.

Definition request_less (less : Beacon → Beacon → bool)
    (params : GetBeaconsParams) : Beacon → Beacon → bool :=
  if descending params then λ a b, less b a else less.

Definition request_sorter (less : Beacon → Beacon → bool)
    (params : GetBeaconsParams) : sort.Interface (list Beacon) :=
  if descending params then sort.Reverse (sortWrapper less) else sortWrapper less.

(** The response of a handler that has [v] to encode. *)
Definition encoded {ext : Collaborators} (v : Payload) : Response :=
  match json_Encode v with
  | Some err =>
      ErrorResponse {| problem_Detail := Some (error_Error err);
                       problem_Status := 500;
                       problem_Title := "unable to marshal response";
                       problem_Type := Some InternalError |}
  | None => Encoded v
  end.

(** The comparison [sortFactory] returns for start_isd_as. *)
Definition start_isd_as_less (a b : Beacon) : bool :=
  match Hops a, Hops b with
  | ha :: _, hb :: _ => String.ltb (IsdAs ha) (IsdAs hb)
  | _, _ => len (Hops a) <? len (Hops b)
  end.

(** ** Vocabulary of the proofs about package sort *)

(** [m] returns a result, and the result satisfies [Q]. *)
Definition wp {R : Type} (m : option R) (Q : R → Prop) : Prop :=
  ∃ r, m = Some r ∧ Q r.

(** The transposition of [i] and [j]. *)
Definition tr (i j k : Z) : Z :=
  if k =? i then j else if k =? j then i else k.

(** Case analysis on the positions a transposition moves. *)
Ltac tr_cases :=
  unfold tr in *;
  repeat match goal with
         | H : context [?a =? ?b] |- _ => destruct (Z.eqb_spec a b); try lia
         | |- context [?a =? ?b] => destruct (Z.eqb_spec a b); try lia
         end.

(** A [sort.Interface] over a slice that compares elements with [lt]. *)
Class SliceOrder {A : Type} (data : sort.Interface (list A)) (lt : A → A → bool)
    : Prop := {
  Len_eq : ∀ d, sort.Len data d = Z.of_nat (length d);
  Less_eq : ∀ d i j,
    sort.Less data d i j = (x ← index d i; y ← index d j; Some (lt x y));
  Swap_eq : ∀ d i j, sort.Swap data d i j = slice_Swap d i j
}.

(** [lt] is a strict weak order. *)
Class StrictWeak {A : Type} (lt : A → A → bool) : Prop := {
  lt_irrefl : ∀ x, lt x x = false;
  lt_trans : ∀ x y z, lt x y = true → lt y z = true → lt x z = true;
  lt_negtrans : ∀ x y z, lt x y = false → lt y z = false → lt x z = false
}.

Section ranges.
Context {A : Type} (lt : A → A → bool).
Implicit Types d : list A.

(** [d[a:b]] is in order: no element is less than an earlier one. *)
Definition sorted_range d (a b : Z) : Prop :=
  ∀ i j x y, a ≤ i → i < j → j < b →
    index d i = Some x → index d j = Some y → lt y x = false.

(** Every element of [d[a:b]] satisfies [P]. *)
Definition all_range d (a b : Z) (P : A → Prop) : Prop :=
  ∀ k x, a ≤ k < b → index d k = Some x → P x.

(** [d'] is [d] with the elements of [d[a:b]] rearranged. *)
Record within (a b : Z) d d' : Prop := {
  within_length : length d' = length d;
  within_frame : ∀ k, k < a ∨ b ≤ k → index d' k = index d k;
  within_from : ∀ k x, a ≤ k < b → index d' k = Some x →
                       ∃ k', a ≤ k' < b ∧ index d k' = Some x;
  within_perm : d' ≡ₚ d
}.

(** Elements that compare equal. *)
Definition tied (x y : A) : Prop := lt x y = false ∧ lt y x = false.

Global Instance tied_dec x y : Decision (tied x y).
Proof. unfold tied. apply _. Defined.

(** [d'] keeps the elements of each class of ties in the order of [d]. *)
Definition ties_kept d d' : Prop :=
  ∀ x, filter (tied x) d' = filter (tied x) d.

(** The state of an insertion: [d[a:j]] and [d[j:i+1]] are in order, and
    so is every pair around position [j]. *)
Definition ins_inv d (a i j : Z) : Prop :=
  sorted_range d a j ∧ sorted_range d j (i + 1)
  ∧ ∀ k k' x y, a ≤ k < j → j < k' ≤ i →
      index d k = Some x → index d k' = Some y → lt y x = false.

(** The state of [partition] between two exchanges: everything before
    [i] is less than the pivot [p] kept at [a], nothing after [j] is. *)
Definition part_inv (d0 : list A) (a b : Z) (p : A) (s : Z * Z * list A) : Prop :=
  let '(i, j, d) := s in
  a + 1 ≤ i ∧ j ≤ b - 1 ∧ i ≤ j + 1 ∧ within a b d0 d ∧ index d a = Some p
  ∧ all_range d (a + 1) i (λ x, lt x p = true)
  ∧ all_range d (j + 1) b (λ x, lt x p = false).

(** [d[mid]] is a pivot: everything before it in [d[a:b]] is less, nothing
    after it is. *)
Definition partitioned d (a b mid : Z) : Prop :=
  a ≤ mid < b
  ∧ ∃ p, index d mid = Some p
         ∧ all_range d a mid (λ x, lt x p = true)
         ∧ all_range d (mid + 1) b (λ x, lt x p = false).

(** The state of [partitionEqual]: nothing before [i] is greater than
    the pivot [p] kept at [a], everything after [j] is. *)
Definition parteq_inv (d0 : list A) (a b : Z) (p : A) (s : Z * Z * list A)
    : Prop :=
  let '(i, j, d) := s in
  a + 1 ≤ i ∧ j ≤ b - 1 ∧ i ≤ j + 1 ∧ within a b d0 d ∧ index d a = Some p
  ∧ all_range d (a + 1) i (λ x, lt p x = false)
  ∧ all_range d (j + 1) b (λ x, lt p x = true).

(** The element before [d[a:b]], if there is one, is not greater than
    any element of [d[a:b]]. *)
Definition lower_bounded d (a b : Z) : Prop :=
  a ≤ 0 ∨ ∃ q, index d (a - 1) = Some q ∧ all_range d a b (λ x, lt x q = false).

(** Node [r] of the heap laid out in [d[first : first+hi]] is not less
    than its children. *)
Definition heap_node d (first hi r : Z) : Prop :=
  ∀ c x y, c = 2 * r + 1 ∨ c = 2 * r + 2 → c < hi →
    index d (first + r) = Some x → index d (first + c) = Some y →
    lt x y = false.

(** The state of [siftDown]: every node but [root] is in heap order, and
    the parent of [root] is not less than the children of [root]. *)
Definition sift_inv d0 (lo hi first : Z) (s : Z * list A) : Prop :=
  let '(root, d) := s in
  lo ≤ root
  ∧ within (first + lo) (first + hi) d0 d
  ∧ (∀ r, lo ≤ r < hi → r ≠ root → heap_node d first hi r)
  ∧ (∀ pr c x y, lo ≤ pr → root = 2 * pr + 1 ∨ root = 2 * pr + 2 →
       c = 2 * root + 1 ∨ c = 2 * root + 2 → c < hi →
       index d (first + pr) = Some x → index d (first + c) = Some y →
       lt x y = false).

(** The state of the second loop of [heapSort]: a heap of [i+1] nodes,
    followed by its larger elements in order. *)
Definition pop_inv d0 (a b : Z) (s : Z * list A) : Prop :=
  let '(i, d) := s in
  -1 ≤ i < b - a
  ∧ within a b d0 d
  ∧ (∀ r, 0 ≤ r < i + 1 → heap_node d a (i + 1) r)
  ∧ sorted_range d (a + i + 1) b
  ∧ (∀ k k' x y, a ≤ k < a + i + 1 → a + i + 1 ≤ k' < b →
       index d k = Some x → index d k' = Some y → lt y x = false).
End ranges.

Section ordered.
Context {A : Type} (lt : A → A → bool).

(** A list in order: no element is less than an earlier one. *)
Definition ordered_by (l : list A) : Prop :=
  ∀ (i j : nat) x y, (i < j)%nat → l !! i = Some x → l !! j = Some y →
                     lt y x = false.
End ordered.

(** ** A concrete deployment, used to run the handlers *)

Definition example_names : UsageNames :=
  {| UsageUpReg := 1; UsageDownReg := 2; UsageCoreReg := 4; UsageProp := 8;
     UpRegistration := "up_registration";
     DownRegistration := "down_registration";
     CoreRegistration := "core_registration";
     Propagation := "propagation" |}.

Definition example_ext : Collaborators :=
  {| addr_ParseIA := λ s, if String.eqb s "1-ff00:0:110" then inl 1
                          else inr (external_error "invalid ISD-AS");
     IA_String := λ ia, pretty ia;
     error_Error := λ _, "error";
     List_Error := λ errs, pretty (len errs) +:+ " errors";
     segapi_SegID := λ s, pretty (Info_Timestamp s);
     MinExpiry := λ s, Info_Timestamp s + 6 * Hour;
     Format_RFC3339 := λ t, pretty t;
     json_Encode := λ _, None |}.

(** A stored beacon numbered [id] (its info timestamp and ingress
    interface), last updated at [updated]. *)
Definition example_beacon (id : Z) (updated : Time) (entries : list ASEntry)
    : StoredBeacon :=
  {| Segment := {| Info_Timestamp := id; ASEntries := entries |};
     InIfID := id; Usage := 1; stored_LastUpdated := updated |}.

Definition example_store (results : list StoredBeacon) : BeaconStore :=
  {| store_GetBeacons := λ _, inl results |}.

Definition example_healther (signer : SignerHealthData) (trc : TRCHealthData)
    (ca : CAHealthStatus * bool) : Healther :=
  {| GetSignerHealth := signer; GetTRCHealth := trc; GetCAHealth := ca |}.

Definition no_params : GetBeaconsParams :=
  {| param_StartIsdAs := None; param_Usages := None;
     param_IngressInterface := None; param_All := None;
     param_ValidAt := None; param_Sort := None; param_Desc := None |}.

Definition bad_params : GetBeaconsParams :=
  {| param_StartIsdAs := Some "garbage";
     param_Usages := Some ["up_registration"; "bogus"; "nope"];
     param_IngressInterface := Some 70000; param_All := None;
     param_ValidAt := None; param_Sort := None; param_Desc := None |}.

Definition desc_params : GetBeaconsParams :=
  {| param_StartIsdAs := None; param_Usages := None;
     param_IngressInterface := None; param_All := None;
     param_ValidAt := None; param_Sort := None; param_Desc := Some true |}.

Definition start_isd_as_params (desc : option bool) : GetBeaconsParams :=
  {| param_StartIsdAs := None; param_Usages := None;
     param_IngressInterface := None; param_All := None;
     param_ValidAt := None; param_Sort := Some "start_isd_as";
     param_Desc := desc |}.

(** A request with both the all flag and a validAt instant. *)
Definition all_and_validAt_params : GetBeaconsParams :=
  {| param_StartIsdAs := None; param_Usages := None;
     param_IngressInterface := None; param_All := Some true;
     param_ValidAt := Some 77; param_Sort := None; param_Desc := None |}.

(** The beacons of a response that carries some. *)
Definition response_beacons (r : Response) : option (list Beacon) :=
  match r with
  | Encoded (BeaconsPayload rep) => Some rep
  | _ => None
  end.

(** Thirteen stored beacons, numbered 0 to 12 in store order, all last
    updated at instant 1 except beacon 6, last updated at instant 0. *)
Definition thirteen_beacons : list StoredBeacon :=
  map (λ id, example_beacon id (if id =? 6 then 0 else 1) []) (seqZ 0 13).

(** The comparison [sortFactory] returns for last_updated. *)
Definition last_updated_less (a b : Beacon) : bool :=
  Time_Before (LastUpdated a) (LastUpdated b).

(** A beacon with no AS entry, then a beacon with one. *)
Definition one_entry : list ASEntry :=
  [{| Local := 1; ConsIngress := 0; ConsEgress := 2 |}].

Definition two_beacons : list StoredBeacon :=
  [example_beacon 0 0 []; example_beacon 1 0 one_entry].

(** Signer facts of a certificate that expires three hours after instant
    0 and is not in a grace period. *)
Definition signer_three_hours : SignerHealthData :=
  {| SignerMissing := false; SignerMissingDetail := EmptyString;
     signer_Expiration := 3 * Hour; InGrace := false |}.

(** Trust-root facts that report the TRC as found and still carry a
    not-found detail. *)
Definition trc_found_with_detail : TRCHealthData :=
  {| TRCNotFound := false; TRCNotFoundDetail := "stale";
     trc_TRCID := {| trcid_ISD := 1; trcid_Base := 1; trcid_Serial := 2 |} |}.

(** ** Vocabulary of the statements about the rest of the handlers *)

Section Vocabulary_more.
Context {names : UsageNames} {ext : Collaborators}.

(** The flag a usage token stands for in [GetBeacons]; a token it does
    not know stands for no bit. *)
Definition usage_flag (t : string) : Z :=
  if String.eqb t CoreRegistration then UsageCoreReg
  else if String.eqb t DownRegistration then UsageDownReg
  else if String.eqb t Propagation then UsageProp
  else if String.eqb t UpRegistration then UsageUpReg
  else 0.

(** The two hops an AS entry stands for. *)
Definition ingress_hop (e : ASEntry) : Hop :=
  {| Interface := ConsIngress e; IsdAs := IA_String (Local e) |}.

Definition egress_hop (e : ASEntry) : Hop :=
  {| Interface := ConsEgress e; IsdAs := IA_String (Local e) |}.

End Vocabulary_more.

(** A hexadecimal digit, of either case. *)
Definition hex_digit (c : ascii) : Prop :=
  let n := Z.of_nat (nat_of_ascii c) in
  48 ≤ n ≤ 57 ∨ 97 ≤ n ≤ 102 ∨ 65 ≤ n ≤ 70.

(** The field of a beacon a sort key names, for the keys that compare one
    number. *)
Definition sort_key (by_ : string) : option (Beacon → Z) :=
  if String.eqb by_ "expiration_time" then Some Expiration
  else if String.eqb by_ "info_time" then Some Timestamp
  else if String.eqb by_ "last_updated" then Some LastUpdated
  else if String.eqb by_ "ingress_interface" then Some IngressInterface
  else None.

(** The header map at the first call that is not [Header_Set], which is
    when the headers leave. *)
Fixpoint headers_sent (hdr : gmap string string) (w : Writer.ResponseWriter)
    : gmap string string :=
  match w with
  | Writer.Header_Set key value :: w => headers_sent (<[key := value]> hdr) w
  | _ => hdr
  end.

(** The statuses passed to [WriteHeader], the problems encoded and the
    bytes written, in order. *)
Definition statuses_written (w : Writer.ResponseWriter) : list Z :=
  omap (λ c, match c with Writer.WriteHeader s => Some s | _ => None end) w.

Definition problems_written (w : Writer.ResponseWriter) : list Problem :=
  omap (λ c, match c with Writer.Encode p => Some p | _ => None end) w.

Definition bytes_written (w : Writer.ResponseWriter) : list (list Z) :=
  omap (λ c, match c with Writer.Write b => Some b | _ => None end) w.

(** More of the concrete deployment. *)
Definition example_deleter : Writer.BeaconDeleter :=
  {| Writer.store_DeleteBeacon := λ _, None |}.

(** An encoder of PEM blocks that refuses a block without bytes. *)
Definition example_blob : Writer.BlobCollaborators :=
  {| Writer.proto_Marshal := λ s, inl [Info_Timestamp s];
     Writer.pem_Encode := λ type bytes,
       match bytes with
       | [] => inr (external_error "empty block")
       | _ :: _ => inl (45 :: bytes ++ [45])
       end |}.

(** A source of signers whose only signer has the given chain. *)
Definition example_signers (chain : list Writer.Certificate)
    : Writer.SignerSource :=
  {| Writer.SignerGen_Generate := inl [{| Writer.Chain := chain |}];
     Writer.trust_LastExpiring := λ signers _ _,
       match signers with
       | p :: _ => inl p
       | [] => inr (external_error "no signer")
       end |}.

Definition broken_chain : list Writer.Certificate :=
  [{| Writer.Raw := [1] |}; {| Writer.Raw := [] |}; {| Writer.Raw := [2] |}].

Definition ingress_params (v : Z) : GetBeaconsParams :=
  {| param_StartIsdAs := None; param_Usages := None;
     param_IngressInterface := Some v; param_All := None;
     param_ValidAt := None; param_Sort := None; param_Desc := None |}.

(** The problems of a lookup that both [GetBeacon] and [GetBeaconBlob]
    can answer with. *)
Definition lookup_problem (p : Problem) : Prop :=
  problem_Title p ∈ ["error decoding segment id"; "error getting beacons";
                     "malformed query parameter"].

(** The certificates of [chain] encode one by one into [outs]. *)
Definition chain_encodes {blob : Writer.BlobCollaborators}
    (chain : list Writer.Certificate) (outs : list (list Z)) : Prop :=
  Forall2 (λ cert out,
             Writer.pem_Encode "CERTIFICATE" (Writer.Raw cert) = inl out)
    chain outs.

(** The writer of [GetBeaconBlob] once its content type is set. *)
Definition pem_writer (w : Writer.ResponseWriter) : Writer.ResponseWriter :=
  w ++ [Writer.Header_Set "Content-Type" "application/x-pem-file"].

(** The four usage flags together. *)
Definition all_usage_flags {names : UsageNames} : Z :=
  Z.lor (Z.lor (Z.lor UsageUpReg UsageDownReg) UsageCoreReg) UsageProp.

(** Two stored beacons whose segments start in the same AS. *)
Definition two_beacons_with_hops : list StoredBeacon :=
  [example_beacon 0 0 one_entry; example_beacon 1 0 one_entry].

(* ===================================================================== *)
(** * Part II: proofs *)
(* ===================================================================== *)

(** ** A small program logic for the option monad *)

Lemma wp_ret {R} (r : R) (Q : R → Prop) : Q r → wp (Some r) Q.
Proof. intros. exists r. done. Qed.

Lemma wp_bind {R1 R2} (m : option R1) (k : R1 → option R2) (Q : R2 → Prop) :
  wp m (λ x, wp (k x) Q) → wp (m ≫= k) Q.
Proof. intros (x & -> & Hk). exact Hk. Qed.

Lemma wp_mono {R} (m : option R) (P Q : R → Prop) :
  wp m P → (∀ r, P r → Q r) → wp m Q.
Proof. intros (r & -> & HP) HPQ. exists r. auto. Qed.

Lemma wp_loop {St R} (Inv : St → Prop) (measure : St → nat) (Q : R → Prop)
    (body : St → option (St + R)) :
  (∀ s, Inv s →
     wp (body s) (λ r, match r with
                       | inl s' => Inv s' ∧ (measure s' < measure s)%nat
                       | inr r => Q r
                       end)) →
  ∀ fuel s, Inv s → (measure s < fuel)%nat → wp (loop fuel body s) Q.
Proof.
  intros Hbody fuel. induction fuel as [|fuel IH]; intros s Hs Hm; [lia|].
  destruct (Hbody s Hs) as ([s'|r] & Hb & Hr); simpl; rewrite Hb.
  - destruct Hr. apply IH; [done | lia].
  - by apply wp_ret.
Qed.

(** ** Slices *)

Section slices.
Context {A : Type}.
Implicit Types d : list A.

Lemma index_Some d i x : index d i = Some x → 0 ≤ i < Z.of_nat (length d).
Proof.
  unfold index. destruct (Z.leb_spec 0 i); [|done].
  intros Hx%lookup_lt_Some. lia.
Qed.

Lemma index_is_Some d i : 0 ≤ i < Z.of_nat (length d) → ∃ x, index d i = Some x.
Proof.
  intros Hi. unfold index. destruct (Z.leb_spec 0 i); [|lia].
  apply lookup_lt_is_Some. lia.
Qed.

Lemma tr_inj i j k1 k2 : tr i j k1 = tr i j k2 → k1 = k2.
Proof.
  unfold tr. repeat match goal with |- context [?x =? ?y] => destruct (Z.eqb_spec x y) end; lia.
Qed.

Lemma slice_Swap_spec d i j :
  0 ≤ i < Z.of_nat (length d) → 0 ≤ j < Z.of_nat (length d) →
  ∃ d', slice_Swap d i j = Some d' ∧ length d' = length d
        ∧ (∀ k, index d' k = index d (tr i j k)) ∧ d' ≡ₚ d.
Proof.
  intros Hi Hj.
  destruct (index_is_Some d i Hi) as [x Hx], (index_is_Some d j Hj) as [y Hy].
  unfold slice_Swap. rewrite Hx, Hy. simpl. eexists. split; [done|].
  assert (Hidx : ∀ k, index (<[Z.to_nat j:=x]> (<[Z.to_nat i:=y]> d)) k
                      = index d (tr i j k)).
  { intros k. unfold index in *. unfold tr.
    destruct (Z.leb_spec 0 i), (Z.leb_spec 0 j); try lia.
    destruct (Z.leb_spec 0 k).
    - rewrite !list_lookup_insert, !length_insert.
      destruct (Z.eqb_spec k i), (Z.eqb_spec k j);
        repeat case_decide; destruct_and?; subst;
        repeat match goal with |- context [0 <=? ?z] => destruct (Z.leb_spec 0 z) end;
        try done; try lia; congruence.
    - destruct (Z.eqb_spec k i), (Z.eqb_spec k j); try lia.
      destruct (Z.leb_spec 0 k); [lia | done]. }
  split; [by rewrite !length_insert|]. split; [done|].
  apply Permutation_inj. split; [by rewrite !length_insert|].
  exists (λ n, Z.to_nat (tr i j (Z.of_nat n))). split.
  - intros n1 n2 Hn.
    assert (0 ≤ tr i j (Z.of_nat n1) ∧ 0 ≤ tr i j (Z.of_nat n2)) as [??].
    { unfold tr. repeat case_match; lia. }
    apply Nat2Z.inj, (tr_inj i j). lia.
  - intros n. specialize (Hidx (Z.of_nat n)). unfold index in Hidx.
    assert (0 ≤ tr i j (Z.of_nat n)) by (unfold tr; repeat case_match; lia).
    destruct (Z.leb_spec 0 (Z.of_nat n)); [|lia].
    destruct (Z.leb_spec 0 (tr i j (Z.of_nat n))); [|lia].
    by rewrite Nat2Z.id in Hidx.
Qed.
End slices.

Section within_facts.
Context {A : Type}.
Implicit Types d : list A.

Lemma within_refl a b d : within a b d d.
Proof. split; eauto. Qed.

Lemma within_trans a b d1 d2 d3 :
  within a b d1 d2 → within a b d2 d3 → within a b d1 d3.
Proof.
  intros [L1 F1 R1 P1] [L2 F2 R2 P2]. split.
  - congruence.
  - intros k Hk. rewrite F2, F1; done.
  - intros k x Hk Hx. destruct (R2 k x Hk Hx) as (k' & Hk' & Hx'). eauto.
  - by rewrite P2.
Qed.

Lemma within_weaken a b a' b' d d' :
  a ≤ a' → b' ≤ b → within a' b' d d' → within a b d d'.
Proof.
  intros Ha Hb [L F R P]. split; [done| |..|done].
  - intros k Hk. apply F. lia.
  - intros k x Hk Hx.
    destruct (decide (a' ≤ k < b')) as [Hin|Hout].
    + destruct (R k x Hin Hx) as (k' & ? & ?). exists k'. split; [lia|done].
    + exists k. split; [done|]. rewrite <- F; [done|lia].
Qed.

Lemma within_all_range a b d d' P :
  within a b d d' → all_range d a b P → all_range d' a b P.
Proof.
  intros [_ _ R _] HP k x Hk Hx. destruct (R k x Hk Hx) as (k' & ? & ?). eauto.
Qed.

Lemma within_all_range_out a b d d' a' b' P :
  within a b d d' → (b' ≤ a ∨ b ≤ a') → all_range d a' b' P → all_range d' a' b' P.
Proof.
  intros [_ F _ _] Hout HP k x Hk Hx. rewrite F in Hx by lia. eauto.
Qed.

Lemma within_swap a b d d' i j :
  a ≤ i < b → a ≤ j < b →
  length d' = length d → (∀ k, index d' k = index d (tr i j k)) → d' ≡ₚ d →
  within a b d d'.
Proof.
  intros Hi Hj HL Hidx HP. split; [done| | |done].
  - intros k Hk. rewrite Hidx. unfold tr.
    destruct (Z.eqb_spec k i), (Z.eqb_spec k j); (lia || done).
  - intros k x Hk Hx. rewrite Hidx in Hx. exists (tr i j k). split; [|done].
    unfold tr. destruct (Z.eqb_spec k i), (Z.eqb_spec k j); lia.
Qed.
End within_facts.

Section order_facts.
Context {A : Type} {lt : A → A → bool} {SW : StrictWeak lt}.

Lemma lt_asym x y : lt x y = true → lt y x = false.
Proof.
  intros Hxy. destruct (lt y x) eqn:Hyx; [|done].
  pose proof (lt_trans x y x Hxy Hyx) as H. by rewrite lt_irrefl in H.
Qed.

Lemma tied_trans x y z : tied lt x y → tied lt y z → tied lt x z.
Proof. intros [??] [??]. split; eapply lt_negtrans; eauto. Qed.

Lemma tied_sym x y : tied lt x y → tied lt y x.
Proof. intros [??]. by split. Qed.
End order_facts.

Section slice_order.
Context {A : Type} {data : sort.Interface (list A)} {lt : A → A → bool}
        {SO : SliceOrder data lt}.
Implicit Types d : list A.

Lemma wp_Less d i j x y (Q : bool → Prop) :
  index d i = Some x → index d j = Some y → Q (lt x y) →
  wp (sort.Less data d i j) Q.
Proof. intros Hx Hy HQ. rewrite Less_eq, Hx, Hy. by apply wp_ret. Qed.

Lemma wp_Swap a b d i j (Q : list A → Prop) :
  0 ≤ a → b ≤ Z.of_nat (length d) → a ≤ i < b → a ≤ j < b →
  (∀ d', slice_Swap d i j = Some d' → within a b d d' →
         (∀ k, index d' k = index d (tr i j k)) → Q d') →
  wp (sort.Swap data d i j) Q.
Proof.
  intros Ha Hb Hi Hj HQ. rewrite Swap_eq.
  destruct (slice_Swap_spec d i j) as (d' & Hd' & ? & ? & ?); [lia..|].
  rewrite Hd'. apply wp_ret. apply HQ; [done| |done].
  by apply (within_swap a b d d' i j).
Qed.
End slice_order.

Section insertion.
Context {A : Type} {data : sort.Interface (list A)} {lt : A → A → bool}
        {SO : SliceOrder data lt} {SW : StrictWeak lt}.
Implicit Types d : list A.

Lemma sorted_range_mono d a b a' b' :
  a ≤ a' → b' ≤ b → sorted_range lt d a b → sorted_range lt d a' b'.
Proof. intros ?? Hs i j x y ???. apply Hs; lia. Qed.

Lemma ins_inv_step d d' a i j x y :
  a < j ≤ i → index d j = Some x → index d (j - 1) = Some y →
  lt x y = true → (∀ k, index d' k = index d (tr j (j - 1) k)) →
  ins_inv lt d a i j → ins_inv lt d' a i (j - 1).
Proof.
  intros Hj Hx Hy Hlt Hidx (S1 & S2 & S3).
  split; [|split]; intros p q u v; intros; rewrite Hidx in *; tr_cases;
    subst; simplify_eq;
    match goal with
    | Hu : index d ?p = Some ?u, Hv : index d ?q = Some ?v
      |- lt ?v ?u = false =>
        solve [ by apply lt_asym
              | apply (S1 p q); (lia || done)
              | apply (S2 p q); (lia || done)
              | apply (S3 p q); (lia || done) ]
    end.
Qed.

Lemma ins_inv_done d a i j :
  a ≤ j ≤ i →
  (j ≤ a ∨ ∃ x y, index d j = Some x ∧ index d (j - 1) = Some y
                  ∧ lt x y = false) →
  ins_inv lt d a i j → sorted_range lt d a (i + 1).
Proof.
  intros Hj Hstop (S1 & S2 & S3) p q u v ??? Hu Hv.
  destruct (decide (q < j)); [apply (S1 p q); (lia || done)|].
  destruct (decide (j ≤ p)); [apply (S2 p q); (lia || done)|].
  destruct (decide (j < q)); [apply (S3 p q); (lia || done)|].
  assert (q = j) as -> by lia.
  destruct Hstop as [?|(x & y & Hx & Hy & Hxy)]; [lia|].
  rewrite Hx in Hv. simplify_eq.
  destruct (decide (p = j - 1)) as [->|]; [by simplify_eq|].
  apply (lt_negtrans _ y); [done|]. apply (S1 p (j - 1)); (lia || done).
Qed.

Lemma adjacent_swap_ties d d' j x y :
  index d j = Some x → index d (j - 1) = Some y → lt x y = true →
  slice_Swap d j (j - 1) = Some d' → ties_kept lt d d'.
Proof.
  intros Hx Hy Hlt Hswap. unfold slice_Swap in Hswap.
  rewrite Hx, Hy in Hswap. simpl in Hswap. simplify_eq.
  pose proof (index_Some _ _ _ Hy) as Hb.
  unfold index in Hx, Hy.
  destruct (Z.leb_spec 0 j), (Z.leb_spec 0 (j - 1)); try done.
  replace (Z.to_nat j) with (S (Z.to_nat (j - 1))) in * by lia.
  set (n := Z.to_nat (j - 1)) in *.
  rewrite <- (take_drop_middle d n y Hy).
  assert (Hd : drop (S n) d = x :: drop (S (S n)) d).
  { rewrite <- (take_drop_middle d (S n) x Hx) at 1.
    rewrite drop_app_length'; [done|]. rewrite length_take.
    apply lookup_lt_Some in Hx. lia. }
  rewrite Hd.
  assert (Hn : length (take n d) = n).
  { rewrite length_take. apply lookup_lt_Some in Hy. lia. }
  rewrite (insert_app_r_alt _ _ (S n)), Hn by lia.
  replace (S n - n)%nat with 1%nat by lia. simpl.
  rewrite (insert_app_r_alt _ _ n), Hn by lia.
  replace (n - n)%nat with 0%nat by lia. simpl.
  intros z. rewrite !filter_app, !filter_cons.
  destruct (decide (tied lt z x)) as [Tx|], (decide (tied lt z y)) as [Ty|];
    try done.
  pose proof (tied_trans _ _ _ (tied_sym _ _ Tx) Ty) as [? ?]. congruence.
Qed.

Lemma ties_kept_trans d1 d2 d3 :
  ties_kept lt d1 d2 → ties_kept lt d2 d3 → ties_kept lt d1 d3.
Proof. intros H1 H2 x. by rewrite H2, H1. Qed.

Lemma insertionSort_spec d a b :
  0 ≤ a → b ≤ Z.of_nat (length d) →
  wp (sort.insertionSort data d a b)
     (λ d', within a b d d' ∧ sorted_range lt d' a b ∧ ties_kept lt d d').
Proof.
  intros Ha Hb. unfold sort.insertionSort.
  apply (wp_loop
    (λ '(i, d1), a + 1 ≤ i ≤ Z.max b (a + 1) ∧ within a b d d1
                 ∧ sorted_range lt d1 a i ∧ ties_kept lt d d1)
    (λ '(i, _), Z.to_nat (b - i))).
  - intros [i d1] (Hi & Hw & Hs & Ht).
    destruct (Z.ltb_spec i b) as [Hlt|Hge].
    + apply wp_bind. eapply wp_mono.
      apply (wp_loop
        (λ '(j, d2), a ≤ j ≤ i ∧ within a b d d2 ∧ ins_inv lt d2 a i j
                     ∧ ties_kept lt d d2)
        (λ '(j, _), Z.to_nat (j - a))
        (λ d2, within a b d d2 ∧ sorted_range lt d2 a (i + 1)
               ∧ ties_kept lt d d2)).
      * intros [j d2] (Hj & Hw2 & Hinv & Ht2). unfold sort.insertionSort_inner.
        pose proof (within_length _ _ _ _ Hw2) as HL.
        destruct (Z.ltb_spec a j) as [Haj|Haj].
        -- destruct (index_is_Some d2 j) as [x Hx]; [lia|].
           destruct (index_is_Some d2 (j - 1)) as [y Hy]; [lia|].
           apply wp_bind, (wp_Less _ _ _ x y); [done..|].
           destruct (lt x y) eqn:Hxy.
           ++ apply wp_bind, (wp_Swap a b); [lia..|].
              intros d3 Hsw Hw3 Hidx. apply wp_ret.
              split; [|lia]. split; [lia|]. split_and!.
              ** by apply (within_trans _ _ _ d2).
              ** apply (ins_inv_step d2 d3 a i j x y); (lia || done).
              ** apply (ties_kept_trans _ d2); [done|].
                 by apply (adjacent_swap_ties d2 d3 j x y).
           ++ apply wp_ret. split_and!; [done| |done].
              apply (ins_inv_done d2 a i j); [lia| |done]. right. eauto.
        -- apply wp_ret. split_and!; [done| |done].
           apply (ins_inv_done d2 a i j); [lia| |done]. left. lia.
      * split; [lia|]. split_and!; [done| |done]. unfold ins_inv. split_and!.
        -- done.
        -- intros p q ?????. lia.
        -- intros p q ????. lia.
      * lia.
      * intros d2 (Hw2 & Hs2 & Ht2). apply wp_ret.
        split; [|lia]. split; [lia|]. done.
    + apply wp_ret. split_and!; [done| |done].
      apply (sorted_range_mono d1 a i); (lia || done).
  - split; [lia|]. split_and!; [apply within_refl| |done].
    intros p q ?????. lia.
  - lia.
Qed.
End insertion.

Section partition.
Context {A : Type} {data : sort.Interface (list A)} {lt : A → A → bool}
        {SO : SliceOrder data lt} {SW : StrictWeak lt}.
Implicit Types d : list A.

Lemma scan_up_spec d a i j p :
  index d a = Some p → 0 ≤ i ≤ j + 1 → j < Z.of_nat (length d) →
  wp (sort.scan_up data a j d i)
     (λ i', i ≤ i' ≤ j + 1
            ∧ all_range d i i' (λ x, lt x p = true)
            ∧ (i' ≤ j → ∃ x, index d i' = Some x ∧ lt x p = false)).
Proof.
  intros Hp Hi Hj. unfold sort.scan_up.
  apply (wp_loop
    (λ k, i ≤ k ≤ j + 1 ∧ all_range d i k (λ x, lt x p = true))
    (λ k, Z.to_nat (j + 1 - k))).
  - intros k (Hk & Hall). destruct (Z.leb_spec k j).
    + destruct (index_is_Some d k) as [x Hx]; [lia|].
      apply wp_bind, (wp_Less _ _ _ x p); [done..|].
      destruct (lt x p) eqn:Hxp; apply wp_ret.
      * split; [|lia]. split; [lia|]. intros k' x' Hk' Hx'.
        destruct (decide (k' = k)) as [->|]; [by simplify_eq|].
        apply (Hall k'); (lia || done).
      * split_and!; try done; try lia. eauto.
    + apply wp_ret. split_and!; try done; lia.
  - split; [lia|]. intros k x ?. lia.
  - lia.
Qed.

Lemma scan_down_spec d a i j p :
  index d a = Some p → 0 ≤ i ≤ j + 1 → j < Z.of_nat (length d) →
  wp (sort.scan_down data a i d j)
     (λ j', i - 1 ≤ j' ≤ j
            ∧ all_range d (j' + 1) (j + 1) (λ x, lt x p = false)
            ∧ (i ≤ j' → ∃ x, index d j' = Some x ∧ lt x p = true)).
Proof.
  intros Hp Hi Hj. unfold sort.scan_down.
  apply (wp_loop
    (λ k, i - 1 ≤ k ≤ j ∧ all_range d (k + 1) (j + 1) (λ x, lt x p = false))
    (λ k, Z.to_nat (k + 1 - i))).
  - intros k (Hk & Hall). destruct (Z.leb_spec i k).
    + destruct (index_is_Some d k) as [x Hx]; [lia|].
      apply wp_bind, (wp_Less _ _ _ x p); [done..|].
      destruct (lt x p) eqn:Hxp; apply wp_ret.
      * split_and!; try done; try lia. eauto.
      * split; [|lia]. split; [lia|]. intros k' x' Hk' Hx'.
        destruct (decide (k' = k)) as [->|]; [by simplify_eq|].
        apply (Hall k'); (lia || done).
    + apply wp_ret. split_and!; try done; lia.
  - split; [lia|]. intros k x ?. lia.
  - lia.
Qed.

Lemma partition_scans {R} d0 a b p i j d (K : Z → Z → option R) (Q : R → Prop) :
  0 ≤ a → b ≤ Z.of_nat (length d0) →
  part_inv lt d0 a b p (i, j, d) →
  (∀ i' j', part_inv lt d0 a b p (i', j', d) → i ≤ i' → j' ≤ j →
     (j' < i' ∨
      (i' < j' ∧ ∃ x y, index d i' = Some x ∧ lt x p = false
                        ∧ index d j' = Some y ∧ lt y p = true)) →
     wp (K i' j') Q) →
  wp (sort.scan_up data a j d i ≫= λ i',
      sort.scan_down data a i' d j ≫= λ j', K i' j') Q.
Proof.
  intros Ha Hb (Hi & Hj & Hij & Hw & Hp & Hlo & Hhi) HQ.
  pose proof (within_length _ _ _ _ Hw) as HL.
  apply wp_bind.
  eapply wp_mono; [apply (scan_up_spec d a i j p); (lia || done)|].
  intros i' (Hi' & Hup & Hstop). apply wp_bind.
  eapply wp_mono; [apply (scan_down_spec d a i' j p); (lia || done)|].
  intros j' (Hj' & Hdown & Hstop'). apply HQ; [|lia|lia|].
  - split_and!; try done; try lia.
    + intros k x Hk Hx. destruct (decide (k < i)); [apply (Hlo k); (lia || done)|].
      apply (Hup k); (lia || done).
    + intros k x Hk Hx. destruct (decide (j < k)); [apply (Hhi k); (lia || done)|].
      apply (Hdown k); (lia || done).
  - destruct (decide (j' < i')); [by left|right].
    destruct Hstop as (x & Hx & Hxp); [lia|].
    destruct Hstop' as (y & Hy & Hyp); [lia|].
    split; [|by eauto 10].
    destruct (decide (i' = j')) as [->|]; [|lia]. simplify_eq. congruence.
Qed.

Lemma partition_exchange d0 a b p i j d d' x y :
  part_inv lt d0 a b p (i, j, d) → i < j →
  index d i = Some x → lt x p = false → index d j = Some y → lt y p = true →
  within a b d d' → (∀ k, index d' k = index d (tr i j k)) →
  part_inv lt d0 a b p (i + 1, j - 1, d').
Proof.
  intros (Hi & Hj & Hij & Hw & Hp & Hlo & Hhi) Hlt Hx Hxp Hy Hyp Hw' Hidx.
  split_and!; try lia.
  - by apply (within_trans _ _ _ d).
  - rewrite Hidx. tr_cases. done.
  - intros k z Hk Hz. rewrite Hidx in Hz. tr_cases; subst; simplify_eq; [done|].
    apply (Hlo k); (lia || done).
  - intros k z Hk Hz. rewrite Hidx in Hz. tr_cases; subst; simplify_eq; [done|].
    apply (Hhi k); (lia || done).
Qed.

Lemma partition_finish d0 a b p i j d (Q : list A → Prop) :
  0 ≤ a → b ≤ Z.of_nat (length d0) →
  part_inv lt d0 a b p (i, j, d) → j < i →
  (∀ d', within a b d0 d' → partitioned lt d' a b j → Q d') →
  wp (sort.Swap data d j a) Q.
Proof.
  intros Ha Hb (Hi & Hj & Hij & Hw & Hp & Hlo & Hhi) Hlt HQ.
  pose proof (within_length _ _ _ _ Hw) as HL.
  apply (wp_Swap a b); [lia..|]. intros d' _ Hw' Hidx. apply HQ.
  - by apply (within_trans _ _ _ d).
  - split; [lia|]. exists p. split_and!.
    + rewrite Hidx. tr_cases; subst; done.
    + intros k z Hk Hz. rewrite Hidx in Hz. tr_cases; subst; simplify_eq.
      * destruct (index_is_Some d j) as [y Hy]; [lia|].
        rewrite Hy in Hz. simplify_eq. apply (Hlo j); (lia || done).
      * apply (Hlo k); (lia || done).
    + intros k z Hk Hz. rewrite Hidx in Hz. tr_cases; subst; simplify_eq.
      apply (Hhi k); (lia || done).
Qed.

Lemma partition_spec d a b pivot :
  0 ≤ a → b ≤ Z.of_nat (length d) → a ≤ pivot < b →
  wp (sort.partition data d a b pivot)
     (λ '(d', mid, _), within a b d d' ∧ partitioned lt d' a b mid).
Proof.
  intros Ha Hb Hpivot. unfold sort.partition.
  apply wp_bind, (wp_Swap a b); [lia..|]. intros d1 _ Hw1 _.
  pose proof (within_length _ _ _ _ Hw1) as HL1.
  destruct (index_is_Some d1 a) as [p Hp]; [lia|].
  assert (Hinv : part_inv lt d a b p (a + 1, b - 1, d1)).
  { split_and!; try done; try lia; intros k x ?; lia. }
  apply (partition_scans d a b p _ _ _ _ _ Ha Hb Hinv).
  intros i j Hinv' _ _ Hcase.
  destruct (Z.ltb_spec j i) as [Hji|Hij].
  - apply wp_bind, (partition_finish d a b p i j d1); try done.
    intros d' ??. by apply wp_ret.
  - destruct Hcase as [?|(Hlt & x & y & Hx & Hxp & Hy & Hyp)]; [lia|].
    pose proof Hinv' as (? & ? & ? & _).
    apply wp_bind, (wp_Swap a b); [lia..|]. intros d2 _ Hw2 Hidx2.
    pose proof (partition_exchange d a b p i j d1 d2 x y Hinv' Hlt Hx Hxp Hy Hyp
                  Hw2 Hidx2) as Hinv2.
    apply wp_bind. eapply wp_mono.
    + apply (wp_loop (part_inv lt d a b p)
               (λ '(i, j, _), Z.to_nat (j + 1 - i))
               (λ '(i, j, d'), part_inv lt d a b p (i, j, d') ∧ j < i)).
      * intros [[i3 j3] d3] Hinv3.
        apply (partition_scans d a b p _ _ _ _ _ Ha Hb Hinv3).
        intros i4 j4 Hinv4 ?? Hcase4.
        destruct (Z.ltb_spec j4 i4) as [?|?]; [by apply wp_ret|].
        destruct Hcase4 as [?|(Hlt4 & x4 & y4 & Hx4 & Hxp4 & Hy4 & Hyp4)]; [lia|].
        pose proof Hinv4 as (? & ? & ? & Hw4 & _).
        pose proof (within_length _ _ _ _ Hw4).
        apply wp_bind, (wp_Swap a b); [lia..|]. intros d5 _ Hw5 Hidx5.
        apply wp_ret. split; [|lia].
        by apply (partition_exchange d a b p i4 j4 d3 d5 x4 y4).
      * done.
      * lia.
    + intros [[i3 j3] d3] [Hinv3 Hlt3].
      apply wp_bind, (partition_finish d a b p i3 j3 d3); try done.
      intros d' ??. by apply wp_ret.
Qed.
End partition.

Section partitionEqual.
Context {A : Type} {data : sort.Interface (list A)} {lt : A → A → bool}
        {SO : SliceOrder data lt} {SW : StrictWeak lt}.
Implicit Types d : list A.

Lemma scan_up_eq_spec d a i j p :
  index d a = Some p → 0 ≤ i ≤ j + 1 → j < Z.of_nat (length d) →
  wp (sort.scan_up_eq data a j d i)
     (λ i', i ≤ i' ≤ j + 1
            ∧ all_range d i i' (λ x, lt p x = false)
            ∧ (i' ≤ j → ∃ x, index d i' = Some x ∧ lt p x = true)).
Proof.
  intros Hp Hi Hj. unfold sort.scan_up_eq.
  apply (wp_loop
    (λ k, i ≤ k ≤ j + 1 ∧ all_range d i k (λ x, lt p x = false))
    (λ k, Z.to_nat (j + 1 - k))).
  - intros k (Hk & Hall). destruct (Z.leb_spec k j).
    + destruct (index_is_Some d k) as [x Hx]; [lia|].
      apply wp_bind, (wp_Less _ _ _ p x); [done..|].
      destruct (lt p x) eqn:Hxp; apply wp_ret.
      * split_and!; try done; try lia. eauto.
      * split; [|lia]. split; [lia|]. intros k' x' Hk' Hx'.
        destruct (decide (k' = k)) as [->|]; [by simplify_eq|].
        apply (Hall k'); (lia || done).
    + apply wp_ret. split_and!; try done; lia.
  - split; [lia|]. intros k x ?. lia.
  - lia.
Qed.

Lemma scan_down_eq_spec d a i j p :
  index d a = Some p → 0 ≤ i ≤ j + 1 → j < Z.of_nat (length d) →
  wp (sort.scan_down_eq data a i d j)
     (λ j', i - 1 ≤ j' ≤ j
            ∧ all_range d (j' + 1) (j + 1) (λ x, lt p x = true)
            ∧ (i ≤ j' → ∃ x, index d j' = Some x ∧ lt p x = false)).
Proof.
  intros Hp Hi Hj. unfold sort.scan_down_eq.
  apply (wp_loop
    (λ k, i - 1 ≤ k ≤ j ∧ all_range d (k + 1) (j + 1) (λ x, lt p x = true))
    (λ k, Z.to_nat (k + 1 - i))).
  - intros k (Hk & Hall). destruct (Z.leb_spec i k).
    + destruct (index_is_Some d k) as [x Hx]; [lia|].
      apply wp_bind, (wp_Less _ _ _ p x); [done..|].
      destruct (lt p x) eqn:Hxp; apply wp_ret.
      * split; [|lia]. split; [lia|]. intros k' x' Hk' Hx'.
        destruct (decide (k' = k)) as [->|]; [by simplify_eq|].
        apply (Hall k'); (lia || done).
      * split_and!; try done; try lia. eauto.
    + apply wp_ret. split_and!; try done; lia.
  - split; [lia|]. intros k x ?. lia.
  - lia.
Qed.

Lemma partitionEqual_spec d a b pivot p :
  0 ≤ a → b ≤ Z.of_nat (length d) → a ≤ pivot < b →
  index d pivot = Some p →
  wp (sort.partitionEqual data d a b pivot)
     (λ '(d', mid), within a b d d' ∧ a < mid ≤ b
                    ∧ all_range d' a mid (λ x, lt p x = false)
                    ∧ all_range d' mid b (λ x, lt p x = true)).
Proof.
  intros Ha Hb Hpivot Hpv. unfold sort.partitionEqual.
  apply wp_bind, (wp_Swap a b); [lia..|]. intros d1 _ Hw1 Hidx1.
  assert (Hp : index d1 a = Some p).
  { rewrite Hidx1. tr_cases; subst; done. }
  apply (wp_loop (parteq_inv lt d a b p) (λ '(i, j, _), Z.to_nat (j + 1 - i))).
  - intros [[i j] d2] (Hi & Hj & Hij & Hw & Hp2 & Hlo & Hhi).
    pose proof (within_length _ _ _ _ Hw) as HL.
    apply wp_bind.
    eapply wp_mono; [apply (scan_up_eq_spec d2 a i j p); (lia || done)|].
    intros i' (Hi' & Hup & Hstop). apply wp_bind.
    eapply wp_mono; [apply (scan_down_eq_spec d2 a i' j p); (lia || done)|].
    intros j' (Hj' & Hdown & Hstop').
    assert (Hlo' : all_range d2 (a + 1) i' (λ x, lt p x = false)).
    { intros k x Hk Hx. destruct (decide (k < i)); [apply (Hlo k); (lia || done)|].
      apply (Hup k); (lia || done). }
    assert (Hhi' : all_range d2 (j' + 1) b (λ x, lt p x = true)).
    { intros k x Hk Hx. destruct (decide (j < k)); [apply (Hhi k); (lia || done)|].
      apply (Hdown k); (lia || done). }
    destruct (Z.ltb_spec j' i') as [Hlt|Hge].
    + apply wp_ret. split_and!; try done; try lia.
      * intros k x Hk Hx. destruct (decide (k = a)) as [->|].
        -- simplify_eq. apply lt_irrefl.
        -- apply (Hlo' k); (lia || done).
      * intros k x Hk Hx. apply (Hhi' k); (lia || done).
    + destruct Hstop as (x & Hx & Hxp); [lia|].
      destruct Hstop' as (y & Hy & Hyp); [lia|].
      assert (i' < j').
      { destruct (decide (i' = j')) as [->|]; [|lia]. simplify_eq. congruence. }
      apply wp_bind, (wp_Swap a b); [lia..|]. intros d3 _ Hw3 Hidx3.
      apply wp_ret. split; [|lia]. split_and!; try lia.
      * by apply (within_trans _ _ _ d2).
      * rewrite Hidx3. tr_cases. done.
      * intros k z Hk Hz. rewrite Hidx3 in Hz. tr_cases; subst; simplify_eq; [done|].
        apply (Hlo' k); (lia || done).
      * intros k z Hk Hz. rewrite Hidx3 in Hz. tr_cases; subst; simplify_eq; [done|].
        apply (Hhi' k); (lia || done).
  - split_and!; try done; try lia; intros k x ?; lia.
  - lia.
Qed.
End partitionEqual.

Section simple_passes.
Context {A : Type} {data : sort.Interface (list A)} {lt : A → A → bool}
        {SO : SliceOrder data lt}.
Implicit Types d : list A.

Lemma reverseRange_spec d a b :
  0 ≤ a → b ≤ Z.of_nat (length d) →
  wp (sort.reverseRange data d a b) (within a b d).
Proof.
  intros Ha Hb. unfold sort.reverseRange.
  apply (wp_loop (λ '(i, j, d'), a ≤ i ∧ j < b ∧ within a b d d')
           (λ '(i, j, _), Z.to_nat (j + 1 - i))).
  - intros [[i j] d1] (Hi & Hj & Hw).
    pose proof (within_length _ _ _ _ Hw) as HL.
    destruct (Z.ltb_spec i j); [|by apply wp_ret].
    apply wp_bind, (wp_Swap a b); [lia..|]. intros d2 _ Hw2 _.
    apply wp_ret. split; [|lia]. split_and!; try lia.
    by apply (within_trans _ _ _ d1).
  - split_and!; try lia. apply within_refl.
  - lia.
Qed.

Lemma order2_spec d a b swaps :
  0 ≤ a < Z.of_nat (length d) → 0 ≤ b < Z.of_nat (length d) →
  wp (sort.order2 data d a b swaps)
     (λ '(x, y, _), (x = a ∧ y = b) ∨ (x = b ∧ y = a)).
Proof.
  intros Ha Hb. unfold sort.order2.
  destruct (index_is_Some d a Ha) as [x Hx], (index_is_Some d b Hb) as [y Hy].
  apply wp_bind, (wp_Less _ _ _ y x); [done..|].
  destruct (lt y x); apply wp_ret; auto.
Qed.

Lemma median_spec d a b c swaps :
  0 ≤ a < Z.of_nat (length d) → 0 ≤ b < Z.of_nat (length d) →
  0 ≤ c < Z.of_nat (length d) →
  wp (sort.median data d a b c swaps) (λ '(m, _), m = a ∨ m = b ∨ m = c).
Proof.
  intros Ha Hb Hc. unfold sort.median.
  apply wp_bind. eapply wp_mono; [by apply order2_spec|].
  intros [[a1 b1] s1] H1. apply wp_bind.
  eapply wp_mono; [apply order2_spec; lia|].
  intros [[b2 c2] s2] H2. apply wp_bind.
  eapply wp_mono; [apply order2_spec; lia|].
  intros [[a3 b3] s3] H3. apply wp_ret. lia.
Qed.

Lemma choosePivot_spec d a b :
  0 ≤ a → b ≤ Z.of_nat (length d) → a < b →
  wp (sort.choosePivot data d a b) (λ '(pivot, _), a ≤ pivot < b).
Proof.
  intros Ha Hb Hab. unfold sort.choosePivot, sort.medianAdjacent,
    sort.shortestNinther.
  assert (Hq : (b - a) ÷ 4 = (b - a) / 4) by (apply Z.quot_div_nonneg; lia).
  rewrite Hq. set (q := (b - a) / 4).
  assert (0 ≤ q ∧ 4 * q ≤ b - a) as [Hq0 Hq4].
  { unfold q. split; [apply Z.div_pos; lia|]. apply Z.mul_div_le. lia. }
  apply wp_bind.
  eapply (wp_mono _ (λ '(j, _), a ≤ j < b)).
  - destruct (Z.leb_spec 8 (b - a)) as [H8|H8]; [|apply wp_ret; lia].
    assert (1 ≤ q) by (unfold q; apply Z.div_le_lower_bound; lia).
    apply wp_bind.
    eapply (wp_mono _ (λ '(i, j, k, _), a ≤ i < b ∧ a ≤ j < b ∧ a ≤ k < b)).
    + destruct (Z.leb_spec 50 (b - a)) as [H50|H50]; [|apply wp_ret; lia].
      assert (12 ≤ q) by (unfold q; apply Z.div_le_lower_bound; lia).
      apply wp_bind. eapply wp_mono; [apply median_spec; lia|].
      intros [i s1] Hi. apply wp_bind.
      eapply wp_mono; [apply median_spec; lia|].
      intros [j s2] Hj. apply wp_bind.
      eapply wp_mono; [apply median_spec; lia|].
      intros [k s3] Hk. apply wp_ret. lia.
    + intros [[[i j] k] s] (Hi & Hj & Hk).
      eapply wp_mono; [apply median_spec; lia|].
      intros [m s'] Hm. lia.
  - intros [j s] Hj. apply wp_ret.
    destruct (s =? 0); [done|]. destruct (s =? sort.maxSwaps); done.
Qed.
End simple_passes.

Lemma uint_bounds x : 0 ≤ uint x < 2 ^ 64.
Proof. unfold uint. apply Z.mod_pos_bound. lia. Qed.

Lemma breakPatterns_other L r :
  8 ≤ L →
  let other := Z.land (uint r) (sort.nextPowerOfTwo L - 1) in
  0 ≤ (if L <=? other then other - L else other) < L.
Proof.
  intros HL. cbv zeta. unfold sort.nextPowerOfTwo, bits_Len.
  pose proof (uint_bounds r) as Hr. pose proof (uint_bounds L) as Hu.
  assert (uint L ≤ L) by (unfold uint; apply Z.mod_le; lia).
  rewrite Z.shiftl_1_l.
  set (o := Z.land (uint r) _).
  assert (Ho : 0 ≤ o < 2 * L).
  { unfold o. destruct (Z.eqb_spec (uint L) 0) as [E|E].
    - change (uint (2 ^ 0) - 1) with 0. rewrite Z.land_0_r. lia.
    - pose proof (Z.log2_spec (uint L) ltac:(lia)) as [Hlo Hhi].
      pose proof (Z.log2_nonneg (uint L)).
      assert (Z.log2 (uint L) < 64) by (apply Z.log2_lt_pow2; lia).
      assert (Hp : 2 ^ (Z.log2 (uint L) + 1) = 2 * 2 ^ Z.log2 (uint L))
        by (rewrite Z.pow_add_r; lia).
      destruct (decide (Z.log2 (uint L) + 1 = 64)) as [E64|N64].
      + rewrite E64. change (uint (2 ^ 64) - 1) with (-1).
        rewrite Z.land_m1_r. rewrite E64 in Hp. lia.
      + assert (2 ^ (Z.log2 (uint L) + 1) < 2 ^ 64)
          by (apply Z.pow_lt_mono_r; lia).
        replace (uint (2 ^ (Z.log2 (uint L) + 1)) - 1)
          with (Z.ones (Z.log2 (uint L) + 1)).
        2:{ rewrite Z.ones_equiv.
            change (uint (2 ^ (Z.log2 (uint L) + 1)))
              with (2 ^ (Z.log2 (uint L) + 1) mod 2 ^ 64).
            rewrite Z.mod_small; lia. }
        rewrite Z.land_ones by lia.
        pose proof (Z.mod_pos_bound (uint r) (2 ^ (Z.log2 (uint L) + 1))
                      ltac:(lia)).
        lia. }
  destruct (Z.leb_spec L o); lia.
Qed.

Section breakPatterns.
Context {A : Type} {data : sort.Interface (list A)} {lt : A → A → bool}
        {SO : SliceOrder data lt}.
Implicit Types d : list A.

Lemma breakPatterns_spec d a b :
  0 ≤ a → b ≤ Z.of_nat (length d) →
  wp (sort.breakPatterns data d a b) (within a b d).
Proof.
  intros Ha Hb. unfold sort.breakPatterns.
  destruct (Z.leb_spec 8 (b - a)) as [H8|H8];
    [|apply wp_ret, within_refl].
  assert (Hq : (b - a) ÷ 4 = (b - a) / 4) by (apply Z.quot_div_nonneg; lia).
  rewrite Hq. set (q := (b - a) / 4).
  assert (2 ≤ q ∧ 4 * q ≤ b - a) as [Hq0 Hq4].
  { unfold q. split; [apply Z.div_le_lower_bound; lia|].
    apply Z.mul_div_le. lia. }
  apply wp_bind. eapply (wp_mono _ (λ '(_, _, d'), within a b d d')).
  - apply (wp_loop (λ '(i, _, d'), 0 ≤ i ≤ 3 ∧ within a b d d')
             (λ '(i, _, _), Z.to_nat (3 - i))).
    + intros [[i r] d1] (Hi & Hw).
      pose proof (within_length _ _ _ _ Hw) as HL.
      destruct (Z.ltb_spec i 3); [|by apply wp_ret].
      pose proof (breakPatterns_other (b - a) (sort.xorshift_Next r) H8) as Ho.
      cbv zeta in Ho.
      apply wp_bind, (wp_Swap a b); [lia..|]. intros d2 _ Hw2 _.
      apply wp_ret. split; [|lia]. split; [lia|].
      by apply (within_trans _ _ _ d1).
    + split; [lia|]. apply within_refl.
    + simpl. lia.
  - intros [[i r] d1] Hw. by apply wp_ret.
Qed.
End breakPatterns.

Section partialInsertionSort.
Context {A : Type} {data : sort.Interface (list A)} {lt : A → A → bool}
        {SO : SliceOrder data lt} {SW : StrictWeak lt}.
Implicit Types d : list A.

Lemma lower_bounded_within d d' a b :
  within a b d d' → lower_bounded lt d a b → lower_bounded lt d' a b.
Proof.
  intros Hw [?|(q & Hq & Hall)]; [by left|right].
  exists q. split.
  - rewrite (within_frame _ _ _ _ Hw); [done|lia].
  - by apply (within_all_range a b d).
Qed.

Lemma scan_sorted_spec d a b i :
  a + 1 ≤ i ≤ b → 0 ≤ a → b ≤ Z.of_nat (length d) → sorted_range lt d a i →
  wp (sort.scan_sorted data d b i)
     (λ i', i ≤ i' ≤ b ∧ sorted_range lt d a i'
            ∧ (i' < b → ∃ x y, index d i' = Some x ∧ index d (i' - 1) = Some y
                               ∧ lt x y = true)).
Proof.
  intros Hi Ha Hb Hs. unfold sort.scan_sorted.
  apply (wp_loop (λ k, i ≤ k ≤ b ∧ sorted_range lt d a k)
           (λ k, Z.to_nat (b - k))).
  - intros k (Hk & Hsk). destruct (Z.ltb_spec k b).
    + destruct (index_is_Some d k) as [x Hx]; [lia|].
      destruct (index_is_Some d (k - 1)) as [y Hy]; [lia|].
      apply wp_bind, (wp_Less _ _ _ x y); [done..|].
      destruct (lt x y) eqn:Hxy; apply wp_ret.
      * split_and!; try done; try lia. eauto 10.
      * split; [|lia]. split; [lia|].
        replace (k + 1) with ((k - 1 + 1) + 1) by lia.
        apply (ins_inv_done d a (k - 1 + 1) k); [lia| |].
        -- right. eauto.
        -- split_and!.
           ++ done.
           ++ intros p q ?????. lia.
           ++ intros p q ????. lia.
    + apply wp_ret. split_and!; try done; lia.
  - split; [lia|done].
  - lia.
Qed.

Lemma shift_left_spec d0 d a b i :
  0 ≤ a → b ≤ Z.of_nat (length d0) → a + 2 ≤ i → i < b →
  within a b d0 d → lower_bounded lt d0 a b →
  sorted_range lt d a (i - 1) →
  wp (sort.shift_left data d i)
     (λ d', within a b d0 d' ∧ sorted_range lt d' a i).
Proof.
  intros Ha Hb Hi Hib Hw HLB Hs. unfold sort.shift_left.
  apply (wp_loop
    (λ '(j, d1), a ≤ j ≤ i - 1 ∧ within a b d0 d1 ∧ ins_inv lt d1 a (i - 1) j)
    (λ '(j, _), Z.to_nat j)).
  - intros [j d1] (Hj & Hw1 & Hinv).
    pose proof (within_length _ _ _ _ Hw1) as HL.
    assert (Hdone : j ≤ a ∨ (∃ x y, index d1 j = Some x
                                    ∧ index d1 (j - 1) = Some y
                                    ∧ lt x y = false) →
                    sorted_range lt d1 a i).
    { intros Hstop. replace i with (i - 1 + 1) by lia.
      by apply (ins_inv_done d1 a (i - 1) j); [lia|..]. }
    destruct (Z.leb_spec 1 j) as [H1|H1].
    + destruct (index_is_Some d1 j) as [x Hx]; [lia|].
      destruct (index_is_Some d1 (j - 1)) as [y Hy]; [lia|].
      apply wp_bind, (wp_Less _ _ _ x y); [done..|].
      destruct (lt x y) eqn:Hxy.
      * assert (a < j).
        { destruct (decide (a < j)); [done|]. assert (j = a) as -> by lia.
          destruct (lower_bounded_within _ _ _ _ Hw1 HLB)
            as [?|(q & Hq & Hall)]; [lia|].
          simplify_eq. rewrite (Hall a x) in Hxy; (lia || done). }
        apply wp_bind, (wp_Swap a b); [lia..|]. intros d2 _ Hw2 Hidx.
        apply wp_ret. split; [|lia]. split; [lia|]. split.
        -- by apply (within_trans _ _ _ d1).
        -- apply (ins_inv_step d1 d2 a (i - 1) j x y); (lia || done).
      * apply wp_ret. split; [done|]. apply Hdone. right. eauto.
    + apply wp_ret. split; [done|]. apply Hdone. left. lia.
  - split; [lia|]. split; [done|]. split_and!.
    + done.
    + intros p q ?????. lia.
    + intros p q ????. lia.
  - lia.
Qed.

Lemma shift_right_spec d b i :
  0 ≤ i → b ≤ Z.of_nat (length d) →
  wp (sort.shift_right data d i b) (within i b d).
Proof.
  intros Hi Hb. unfold sort.shift_right.
  apply (wp_loop (λ '(j, d1), i + 1 ≤ j ∧ within i b d d1)
           (λ '(j, _), Z.to_nat (b - j))).
  - intros [j d1] (Hj & Hw1).
    pose proof (within_length _ _ _ _ Hw1) as HL.
    destruct (Z.ltb_spec j b); [|by apply wp_ret].
    destruct (index_is_Some d1 j) as [x Hx]; [lia|].
    destruct (index_is_Some d1 (j - 1)) as [y Hy]; [lia|].
    apply wp_bind, (wp_Less _ _ _ x y); [done..|].
    destruct (lt x y); [|by apply wp_ret].
    apply wp_bind, (wp_Swap i b); [lia..|]. intros d2 _ Hw2 _.
    apply wp_ret. split; [|lia]. split; [lia|].
    by apply (within_trans _ _ _ d1).
  - split; [lia|]. apply within_refl.
  - lia.
Qed.

Lemma sorted_range_frame d d' a b c e :
  within c e d d' → (b ≤ c ∨ e ≤ a) →
  sorted_range lt d a b → sorted_range lt d' a b.
Proof.
  intros Hw Hout Hs i j x y ??? Hx Hy.
  rewrite (within_frame _ _ _ _ Hw) in Hx, Hy by lia.
  apply (Hs i j); (lia || done).
Qed.

Lemma partialInsertionSort_spec d a b :
  0 ≤ a → a < b → b ≤ Z.of_nat (length d) → lower_bounded lt d a b →
  wp (sort.partialInsertionSort data d a b)
     (λ '(d', done), within a b d d' ∧ (done = true → sorted_range lt d' a b)).
Proof.
  intros Ha Hab Hb HLB. unfold sort.partialInsertionSort.
  apply (wp_loop
    (λ '(j, i, d1), 0 ≤ j ∧ a + 1 ≤ i ≤ b ∧ within a b d d1
                    ∧ sorted_range lt d1 a i)
    (λ '(j, _, _), Z.to_nat (sort.maxSteps - j))).
  - intros [[j i] d1] (Hj & Hi & Hw1 & Hs1).
    pose proof (within_length _ _ _ _ Hw1) as HL.
    destruct (Z.ltb_spec j sort.maxSteps) as [Hlt|Hge]; [|by apply wp_ret].
    apply wp_bind.
    eapply wp_mono; [apply (scan_sorted_spec d1 a b i); (lia || done)|].
    intros i' (Hi' & Hs' & Hdesc).
    destruct (Z.eqb_spec i' b) as [->|Hne]; [by apply wp_ret|].
    destruct (Z.ltb_spec (b - a) sort.shortestShifting); [by apply wp_ret|].
    apply wp_bind, (wp_Swap a b); [lia..|]. intros d2 _ Hw2 Hidx2.
    assert (Hwd2 : within a b d d2) by by apply (within_trans _ _ _ d1).
    assert (Hs2 : sorted_range lt d2 a (i' - 1)).
    { intros p q x y ??? Hx Hy. rewrite Hidx2 in Hx, Hy. tr_cases.
      apply (Hs' p q); (lia || done). }
    apply wp_bind.
    eapply (wp_mono _ (λ d3, within a b d d3 ∧ sorted_range lt d3 a i')).
    { destruct (Z.leb_spec 2 (i' - a)).
      - apply (shift_left_spec d d2 a b i'); (lia || done).
      - apply wp_ret. split; [done|]. intros p q ?????. lia. }
    intros d3 (Hw3 & Hs3). apply wp_bind.
    pose proof (within_length _ _ _ _ Hw3) as HL3.
    eapply (wp_mono _ (λ d4, within i' b d3 d4)).
    { destruct (Z.leb_spec 2 (b - i')).
      - apply shift_right_spec; lia.
      - apply wp_ret, within_refl. }
    intros d4 Hw4. apply wp_ret. split; [|unfold sort.maxSteps in *; lia].
    split_and!; try lia.
    + apply (within_trans _ _ _ d3); [done|].
      apply (within_weaken a b i' b); (lia || done).
    + apply (sorted_range_frame d3 d4 a i' i' b); [done|lia|done].
  - split_and!; try lia; [apply within_refl|]. intros p q ?????. lia.
  - unfold sort.maxSteps. lia.
Qed.
End partialInsertionSort.

Section heapSort.
Context {A : Type} {data : sort.Interface (list A)} {lt : A → A → bool}
        {SO : SliceOrder data lt} {SW : StrictWeak lt}.
Implicit Types d : list A.

Lemma siftDown_spec d lo hi first :
  0 ≤ first → 0 ≤ lo → first + hi ≤ Z.of_nat (length d) →
  (∀ r, lo < r < hi → heap_node lt d first hi r) →
  wp (sort.siftDown data d lo hi first)
     (λ d', within (first + lo) (first + hi) d d'
            ∧ ∀ r, lo ≤ r < hi → heap_node lt d' first hi r).
Proof.
  intros Hfirst Hlo Hhi Hheap. unfold sort.siftDown.
  apply (wp_loop (sift_inv lt d lo hi first) (λ '(root, _), Z.to_nat (hi - root))).
  - intros [root d1] (Hroot & Hw & Hnodes & Hgrand).
    pose proof (within_length _ _ _ _ Hw) as HL.
    unfold sort.siftDown_body.
    destruct (Z.leb_spec hi (2 * root + 1)) as [Hleaf|Hchild].
    { apply wp_ret. split; [done|]. intros r Hr.
      destruct (decide (r = root)) as [->|]; [|by apply Hnodes].
      intros c x y Hc ?. lia. }
    destruct (index_is_Some d1 (first + root)) as [xr Hxr]; [lia|].
    apply wp_bind.
    eapply (wp_mono _ (λ child,
      (child = 2 * root + 1 ∨ child = 2 * root + 2) ∧ child < hi
      ∧ ∃ xc, index d1 (first + child) = Some xc
              ∧ ∀ c y, c = 2 * root + 1 ∨ c = 2 * root + 2 → c < hi →
                       index d1 (first + c) = Some y → lt xc y = false)).
    { destruct (index_is_Some d1 (first + (2 * root + 1))) as [x0 Hx0]; [lia|].
      destruct (Z.ltb_spec (2 * root + 1 + 1) hi) as [Htwo|Hone].
      - destruct (index_is_Some d1 (first + (2 * root + 1) + 1)) as [x1 Hx1];
          [lia|].
        apply wp_bind, (wp_Less _ _ _ x0 x1); [done..|].
        assert (Hx1' : index d1 (first + (2 * root + 1 + 1)) = Some x1)
          by (rewrite <- Hx1; f_equal; lia).
        destruct (lt x0 x1) eqn:H01; apply wp_ret.
        + split; [lia|]. split; [lia|]. exists x1. split; [done|].
          intros c y [->| ->] ? Hy.
          * simplify_eq. by apply lt_asym.
          * replace (first + (2 * root + 2)) with (first + (2 * root + 1) + 1)
              in Hy by lia.
            simplify_eq. apply lt_irrefl.
        + split; [lia|]. split; [lia|]. exists x0. split; [done|].
          intros c y [->| ->] ? Hy.
          * simplify_eq. apply lt_irrefl.
          * replace (first + (2 * root + 2)) with (first + (2 * root + 1) + 1)
              in Hy by lia.
            by simplify_eq.
      - apply wp_ret. split; [lia|]. split; [lia|]. exists x0. split; [done|].
        intros c y [->| ->] ? Hy; [|lia]. simplify_eq. apply lt_irrefl. }
    intros child (Hchild_is & Hchild_hi & xc & Hxc & Hlargest).
    apply wp_bind, (wp_Less _ _ _ xr xc); [done..|].
    destruct (lt xr xc) eqn:Hrc.
    + apply wp_bind, (wp_Swap (first + lo) (first + hi)); [lia..|].
      intros d2 _ Hw2 Hidx. apply wp_ret. split; [|lia]. split_and!.
      * lia.
      * by apply (within_trans _ _ _ d1).
      * intros r Hr Hne c x y Hc Hchi Hx Hy. rewrite Hidx in Hx, Hy.
        destruct (decide (r = root)) as [->|Hnr].
        -- assert (tr (first + root) (first + child) (first + root)
                   = first + child) as E by (tr_cases; lia).
           rewrite E in Hx. simplify_eq.
           destruct (decide (c = child)) as [->|].
           ++ assert (tr (first + root) (first + child) (first + child)
                      = first + root) as E' by (tr_cases; lia).
              rewrite E' in Hy. simplify_eq. by apply lt_asym.
           ++ assert (tr (first + root) (first + child) (first + c)
                      = first + c) as E' by (tr_cases; lia).
              rewrite E' in Hy. by apply (Hlargest c).
        -- assert (tr (first + root) (first + child) (first + r)
                   = first + r) as E by (tr_cases; lia).
           rewrite E in Hx.
           destruct (decide (c = root)) as [->|].
           ++ assert (tr (first + root) (first + child) (first + root)
                      = first + child) as E' by (tr_cases; lia).
              rewrite E' in Hy.
              apply (Hgrand r child x y); (lia || done).
           ++ assert (tr (first + root) (first + child) (first + c)
                      = first + c) as E' by (tr_cases; lia).
              rewrite E' in Hy. apply (Hnodes r Hr Hnr c); done.
      * intros pr c x y Hpr Hpar Hc Hchi Hx Hy. rewrite Hidx in Hx, Hy.
        assert (pr = root) as -> by lia.
        assert (tr (first + root) (first + child) (first + root)
                = first + child) as E by (tr_cases; lia).
        assert (tr (first + root) (first + child) (first + c)
                = first + c) as E' by (tr_cases; lia).
        rewrite E in Hx. rewrite E' in Hy. simplify_eq.
        apply (Hnodes child ltac:(lia) ltac:(lia) c); done.
    + apply wp_ret. split; [done|]. intros r Hr.
      destruct (decide (r = root)) as [->|]; [|by apply Hnodes].
      intros c x y Hc ? Hx Hy. simplify_eq.
      apply (lt_negtrans _ xc); [done|]. by apply (Hlargest c).
  - split_and!.
    + lia.
    + apply within_refl.
    + intros r Hr Hne. apply Hheap. lia.
    + intros pr c x y ? Hpar. lia.
  - lia.
Qed.
End heapSort.

Section heapSort_main.
Context {A : Type} {data : sort.Interface (list A)} {lt : A → A → bool}
        {SO : SliceOrder data lt} {SW : StrictWeak lt}.
Implicit Types d : list A.

(** The root of a heap is not less than any of its nodes. *)
Lemma heap_root_max d first hi x :
  0 ≤ first → first + hi ≤ Z.of_nat (length d) →
  (∀ r, 0 ≤ r < hi → heap_node lt d first hi r) →
  index d first = Some x →
  ∀ r, 0 ≤ r → r < hi → ∀ y, index d (first + r) = Some y → lt x y = false.
Proof.
  intros Hfirst Hhi Hheap Hx r Hr. pattern r. apply Zlt_0_ind; [|done].
  clear r Hr. intros r IH Hr Hrhi y Hy.
  destruct (decide (r = 0)) as [->|Hpos].
  - rewrite Z.add_0_r in Hy. simplify_eq. apply lt_irrefl.
  - set (pr := (r - 1) / 2).
    assert (0 ≤ pr < r ∧ (r = 2 * pr + 1 ∨ r = 2 * pr + 2)) as [Hpr Hc].
    { unfold pr. pose proof (Z.div_mod (r - 1) 2 ltac:(lia)).
      pose proof (Z.mod_pos_bound (r - 1) 2 ltac:(lia)). lia. }
    destruct (index_is_Some d (first + pr)) as [z Hz]; [lia|].
    apply (lt_negtrans _ z).
    + apply (IH pr); (lia || done).
    + apply (Hheap pr ltac:(lia) r); done.
Qed.

Lemma heapSort_spec d a b :
  0 ≤ a → a ≤ b → b ≤ Z.of_nat (length d) →
  wp (sort.heapSort data d a b)
     (λ d', within a b d d' ∧ sorted_range lt d' a b).
Proof.
  intros Ha Hab Hb. unfold sort.heapSort.
  set (hi := b - a).
  assert (Hq : -1 ≤ (hi - 1) ÷ 2 ∧ (hi - 1) ÷ 2 < Z.max hi 1
               ∧ hi ≤ 2 * ((hi - 1) ÷ 2) + 2).
  { Z.to_euclidean_division_equations. lia. }
  apply wp_bind.
  eapply (wp_mono _ (λ d1, within a b d d1
                           ∧ ∀ r, 0 ≤ r < hi → heap_node lt d1 a hi r)).
  { apply (wp_loop
      (λ '(i, d1), -1 ≤ i < Z.max hi 1 ∧ within a b d d1
                   ∧ ∀ r, i < r < hi → heap_node lt d1 a hi r)
      (λ '(i, _), Z.to_nat (i + 1))).
    - intros [i d1] (Hi & Hw & Hheap).
      pose proof (within_length _ _ _ _ Hw) as HL.
      destruct (Z.leb_spec 0 i) as [H0|H0].
      + apply wp_bind. eapply wp_mono.
        { apply (siftDown_spec d1 i hi a); [lia..|done]. }
        intros d2 (Hw2 & Hheap2). apply wp_ret. split; [|lia].
        split; [lia|]. split.
        * apply (within_trans _ _ _ d1); [done|].
          apply (within_weaken a b (a + i) (a + hi)); (lia || done).
        * intros r Hr. apply Hheap2. lia.
      + apply wp_ret. split; [done|]. intros r Hr. apply Hheap. lia.
    - split; [lia|]. split; [apply within_refl|].
      intros r Hr c x y Hc ?. lia.
    - lia. }
  intros d1 (Hw1 & Hheap1).
  eapply wp_mono.
  { apply (wp_loop (pop_inv lt d a b) (λ '(i, _), Z.to_nat (i + 1))
             (λ d', within a b d d' ∧ sorted_range lt d' a b)).
    - intros [i d2] (Hi & Hw & Hheap & Hsorted & Hcross).
      pose proof (within_length _ _ _ _ Hw) as HL.
      destruct (Z.leb_spec 0 i) as [H0|H0].
      + destruct (index_is_Some d2 a) as [top Htop]; [lia|].
        pose proof (heap_root_max d2 a (i + 1) top Ha ltac:(lia) Hheap Htop)
          as Hmax.
        apply wp_bind, (wp_Swap a b); [lia..|]. intros d3 _ Hw3 Hidx.
        assert (Hheap3 : ∀ r, 0 < r < i → heap_node lt d3 a i r).
        { intros r Hr c x y Hc Hci Hx Hy. rewrite Hidx in Hx, Hy.
          tr_cases. apply (Hheap r ltac:(lia) c); (lia || done). }
        assert (Hsorted3 : sorted_range lt d3 (a + i) b).
        { intros p q x y ??? Hx Hy. rewrite Hidx in Hx, Hy.
          assert (tr a (a + i) q = q) as Eq by (tr_cases; lia).
          rewrite Eq in Hy.
          destruct (decide (p = a + i)) as [->|].
          - assert (tr a (a + i) (a + i) = a) as Ep by (tr_cases; lia).
            rewrite Ep in Hx. apply (Hcross a q); (lia || done).
          - assert (tr a (a + i) p = p) as Ep by (tr_cases; lia).
            rewrite Ep in Hx. apply (Hsorted p q); (lia || done). }
        assert (Hcross3 : ∀ k k' x y, a ≤ k < a + i → a + i ≤ k' < b →
                  index d3 k = Some x → index d3 k' = Some y → lt y x = false).
        { intros k k' x y Hk Hk' Hx Hy. rewrite Hidx in Hx, Hy.
          destruct (decide (k' = a + i)) as [->|].
          - assert (tr a (a + i) (a + i) = a) as E by (tr_cases; lia).
            rewrite E in Hy. simplify_eq.
            apply (Hmax (tr a (a + i) k - a)); [tr_cases; lia..|].
            rewrite <- Hx. f_equal. lia.
          - apply (Hcross (tr a (a + i) k) k'); [tr_cases; lia|lia|done|].
            rewrite <- Hy. f_equal. tr_cases; lia. }
        pose proof (within_length _ _ _ _ Hw3) as HL3.
        apply wp_bind. eapply wp_mono.
        { apply (siftDown_spec d3 0 i a); [lia..|done]. }
        intros d4 (Hw4 & Hheap4). apply wp_ret. split; [|lia].
        rewrite Z.add_0_r in Hw4.
        split; [lia|]. split_and!.
        * apply (within_trans _ _ _ d3); [by apply (within_trans _ _ _ d2)|].
          apply (within_weaken a b a (a + i)); (lia || done).
        * replace (i - 1 + 1) with i by lia. done.
        * replace (a + (i - 1) + 1) with (a + i) by lia.
          apply (sorted_range_frame d3 d4 _ _ a (a + i)); [done|lia|done].
        * replace (a + (i - 1) + 1) with (a + i) by lia.
          intros k k' x y Hk Hk' Hx Hy.
          rewrite (within_frame _ _ _ _ Hw4) in Hy by lia.
          destruct (within_from _ _ _ _ Hw4 k x Hk Hx) as (k0 & Hk0 & Hx0).
          apply (Hcross3 k0 k'); (lia || done).
      + apply wp_ret. split; [done|].
        assert (i = -1) as -> by lia.
        replace (a + -1 + 1) with a in Hsorted by lia. done.
    - split; [unfold hi in *; lia|]. split_and!.
      + done.
      + replace (hi - 1 + 1) with hi by lia. done.
      + intros p q ?????. unfold hi in *. lia.
      + intros k k' ????. unfold hi in *. lia.
    - lia. }
  done.
Qed.
End heapSort_main.

Section pdqsort.
Context {A : Type} {data : sort.Interface (list A)} {lt : A → A → bool}
        {SO : SliceOrder data lt} {SW : StrictWeak lt}.
Implicit Types d : list A.

Lemma sorted_range_glue d a m b :
  sorted_range lt d a m → sorted_range lt d m b →
  (∀ k k' x y, a ≤ k < m → m ≤ k' < b →
     index d k = Some x → index d k' = Some y → lt y x = false) →
  sorted_range lt d a b.
Proof.
  intros S1 S2 S3 p q x y ??? Hx Hy.
  destruct (decide (q < m)); [apply (S1 p q); (lia || done)|].
  destruct (decide (m ≤ p)); [apply (S2 p q); (lia || done)|].
  apply (S3 p q); (lia || done).
Qed.

Lemma sorted_partitioned d a b mid :
  sorted_range lt d a mid → sorted_range lt d (mid + 1) b →
  partitioned lt d a b mid → sorted_range lt d a b.
Proof.
  intros S1 S2 (Hmid & p & Hp & Hlo & Hhi).
  apply (sorted_range_glue d a mid b); [done| |].
  - apply (sorted_range_glue d mid (mid + 1) b); [|done|].
    + intros i j ?????. lia.
    + intros k k' x y Hk Hk' Hx Hy. assert (k = mid) as -> by lia.
      simplify_eq. apply (Hhi k'); (lia || done).
  - intros k k' x y Hk Hk' Hx Hy. specialize (Hlo k x Hk Hx). simpl in Hlo.
    destruct (decide (k' = mid)) as [->|].
    + simplify_eq. by apply lt_asym.
    + specialize (Hhi k' y ltac:(lia) Hy). simpl in Hhi.
      destruct (lt y x) eqn:Hyx; [|done].
      pose proof (lt_trans _ _ _ Hyx Hlo). congruence.
Qed.

Lemma partitioned_within_left d d' a b mid :
  within a mid d d' → partitioned lt d a b mid → partitioned lt d' a b mid.
Proof.
  intros Hw (Hmid & p & Hp & Hlo & Hhi). split; [done|]. exists p. split_and!.
  - rewrite (within_frame _ _ _ _ Hw); [done|lia].
  - by apply (within_all_range a mid d).
  - apply (within_all_range_out a mid d); [done|lia|done].
Qed.

Lemma partitioned_within_right d d' a b mid :
  within (mid + 1) b d d' → partitioned lt d a b mid → partitioned lt d' a b mid.
Proof.
  intros Hw (Hmid & p & Hp & Hlo & Hhi). split; [done|]. exists p. split_and!.
  - rewrite (within_frame _ _ _ _ Hw); [done|lia].
  - apply (within_all_range_out (mid + 1) b d); [done|lia|done].
  - by apply (within_all_range (mid + 1) b d).
Qed.

Lemma lower_bounded_mono d a b b' :
  b' ≤ b → lower_bounded lt d a b → lower_bounded lt d a b'.
Proof.
  intros Hb [?|(q & Hq & Hall)]; [by left|right]. exists q. split; [done|].
  intros k x Hk. apply Hall. lia.
Qed.

Lemma lower_bounded_pivot d a b mid :
  partitioned lt d a b mid → lower_bounded lt d (mid + 1) b.
Proof.
  intros (Hmid & p & Hp & _ & Hhi). right. exists p.
  replace (mid + 1 - 1) with mid by lia. done.
Qed.

Lemma pdqsort_spec fuel : ∀ d a b limit wasBalanced wasPartitioned,
  0 ≤ a → a ≤ b → b ≤ Z.of_nat (length d) →
  (Z.to_nat (b - a) < fuel)%nat → lower_bounded lt d a b →
  wp (sort.pdqsort data fuel d a b limit wasBalanced wasPartitioned)
     (λ d', within a b d d' ∧ sorted_range lt d' a b).
Proof.
  induction fuel as [|fuel IH]; intros d a b limit wB wP Ha Hab Hb Hfuel HLB;
    [lia|].
  cbn [sort.pdqsort]. unfold sort.maxInsertion.
  destruct (Z.leb_spec (b - a) 12) as [Hsmall|Hbig].
  { eapply wp_mono; [by apply insertionSort_spec|]. intros d' (? & ? & _). done. }
  destruct (Z.eqb_spec limit 0) as [_|_]; [by apply heapSort_spec|].
  (* breakPatterns *)
  apply wp_bind. eapply (wp_mono _ (λ '(d1, _), within a b d d1)).
  { destruct wB; simpl.
    - apply wp_ret, within_refl.
    - apply wp_bind. eapply wp_mono; [by apply breakPatterns_spec|].
      intros d1 Hw1. by apply wp_ret. }
  intros [d1 limit1] Hw1. pose proof (within_length _ _ _ _ Hw1) as HL1.
  (* choosePivot *)
  apply wp_bind. eapply wp_mono; [apply choosePivot_spec; lia|].
  intros [pivot0 hint0] Hpivot0.
  (* reverseRange *)
  apply wp_bind.
  eapply (wp_mono _ (λ '(d2, pivot, _), within a b d d2 ∧ a ≤ pivot < b)).
  { destruct (sort.hint_eqb hint0 sort.decreasingHint).
    - apply wp_bind. eapply wp_mono; [apply reverseRange_spec; lia|].
      intros d2 Hw2. apply wp_ret. split; [|lia].
      by apply (within_trans _ _ _ d1).
    - by apply wp_ret. }
  intros [[d2 pivot] hint] (Hw2 & Hpivot).
  pose proof (within_length _ _ _ _ Hw2) as HL2.
  (* partialInsertionSort *)
  apply wp_bind.
  eapply (wp_mono _ (λ '(d3, done), within a b d d3
                                    ∧ (done = true → sorted_range lt d3 a b))).
  { destruct (wB && wP && sort.hint_eqb hint sort.increasingHint).
    - eapply wp_mono.
      + apply partialInsertionSort_spec; [lia..|].
        by apply (lower_bounded_within d).
      + intros [d3 done] (Hw3 & Hdone). split; [|done].
        by apply (within_trans _ _ _ d2).
    - apply wp_ret. split; [done|]. discriminate. }
  intros [d3 [|]] (Hw3 & Hdone); [apply wp_ret; auto|]. clear Hdone.
  pose proof (within_length _ _ _ _ Hw3) as HL3.
  pose proof (lower_bounded_within _ _ _ _ Hw3 HLB) as HLB3.
  destruct (index_is_Some d3 pivot) as [p Hp]; [lia|].
  (* the test for a repeated pivot *)
  apply wp_bind.
  eapply (wp_mono _ (λ dup : bool, dup = true →
            0 < a ∧ all_range d3 a b (λ x, lt x p = false))).
  { destruct (Z.ltb_spec 0 a) as [Hpos|Hzero]; [|by apply wp_ret].
    destruct HLB3 as [?|(q & Hq & Hall)]; [lia|].
    apply wp_bind, (wp_Less _ _ _ q p); [done..|]. apply wp_ret.
    intros Hqp%negb_true_iff. split; [done|]. intros k x Hk Hx.
    apply (lt_negtrans _ q); [by apply (Hall k)|done]. }
  intros [|] Hdup.
  - (* partitionEqual *)
    destruct (Hdup eq_refl) as [Hpos Hmin]. clear Hdup.
    apply wp_bind. eapply wp_mono; [apply (partitionEqual_spec d3 a b pivot p);
                                    (lia || done)|].
    intros [d4 mid] (Hw4 & Hmid & Hlo & Hhi).
    pose proof (within_length _ _ _ _ Hw4) as HL4.
    pose proof (within_all_range _ _ _ _ _ Hw4 Hmin) as Hmin4.
    destruct (index_is_Some d4 (mid - 1)) as [q Hq]; [lia|].
    eapply wp_mono.
    { apply IH; [lia..|]. right. exists q. split; [done|].
      intros k x Hk Hx. specialize (Hhi k x Hk Hx). simpl in Hhi.
      specialize (Hlo (mid - 1) q ltac:(lia) Hq). simpl in Hlo.
      destruct (lt x q) eqn:Hxq; [|done].
      pose proof (lt_trans _ _ _ Hhi Hxq). congruence. }
    intros d5 (Hw5 & Hs5). split.
    + apply (within_trans _ _ _ d4); [by apply (within_trans _ _ _ d3)|].
      apply (within_weaken a b mid b); (lia || done).
    + apply (sorted_range_glue d5 a mid b); [| done |].
      * apply (sorted_range_frame d4 d5 a mid mid b); [done|lia|].
        intros i j x y ??? Hx Hy.
        apply (lt_negtrans _ p).
        -- apply (Hmin4 j); (lia || done).
        -- apply (Hlo i); (lia || done).
      * intros k k' x y Hk Hk' Hx Hy.
        rewrite (within_frame _ _ _ _ Hw5) in Hx by lia.
        destruct (within_from _ _ _ _ Hw5 k' y Hk' Hy) as (k0 & Hk0 & Hy0).
        specialize (Hlo k x ltac:(lia) Hx). specialize (Hhi k0 y Hk0 Hy0).
        simpl in *. destruct (lt y x) eqn:Hyx; [|done].
        pose proof (lt_trans _ _ _ Hhi Hyx). congruence.
  - (* partition *)
    clear Hdup.
    apply wp_bind. eapply wp_mono; [apply (partition_spec d3 a b pivot);
                                    (lia || done)|].
    intros [[d4 mid] ap] (Hw4 & Hpart).
    pose proof (within_length _ _ _ _ Hw4) as HL4.
    pose proof Hpart as (Hmid & _).
    pose proof (lower_bounded_within _ _ _ _ Hw4 HLB3) as HLB4.
    assert (Hwd4 : within a b d d4)
      by (apply (within_trans _ _ _ d3); done).
    destruct (Z.ltb_spec (mid - a) (b - mid)).
    + apply wp_bind. eapply wp_mono.
      { apply IH; [lia..|]. apply (lower_bounded_mono d4 a b); (lia || done). }
      intros d5 (Hw5 & Hs5).
      pose proof (within_length _ _ _ _ Hw5) as HL5.
      pose proof (partitioned_within_left _ _ _ _ _ Hw5 Hpart) as Hpart5.
      eapply wp_mono.
      { apply IH; [lia..|]. by apply (lower_bounded_pivot d5 a b mid). }
      intros d6 (Hw6 & Hs6).
      pose proof (partitioned_within_right _ _ _ _ _ Hw6 Hpart5) as Hpart6.
      split.
      * apply (within_trans _ _ _ d4); [done|].
        apply (within_trans _ _ _ d5).
        -- apply (within_weaken a b a mid); (lia || done).
        -- apply (within_weaken a b (mid + 1) b); (lia || done).
      * apply (sorted_partitioned d6 a b mid); [|done..].
        apply (sorted_range_frame d5 d6 a mid (mid + 1) b); [done|lia|done].
    + apply wp_bind. eapply wp_mono.
      { apply IH; [lia..|]. by apply (lower_bounded_pivot d4 a b mid). }
      intros d5 (Hw5 & Hs5).
      pose proof (within_length _ _ _ _ Hw5) as HL5.
      pose proof (partitioned_within_right _ _ _ _ _ Hw5 Hpart) as Hpart5.
      eapply wp_mono.
      { apply IH; [lia..|]. apply (lower_bounded_mono d5 a b); [lia|].
        apply (lower_bounded_within d4); [|done].
        apply (within_weaken a b (mid + 1) b); (lia || done). }
      intros d6 (Hw6 & Hs6).
      pose proof (partitioned_within_left _ _ _ _ _ Hw6 Hpart5) as Hpart6.
      split.
      * apply (within_trans _ _ _ d4); [done|].
        apply (within_trans _ _ _ d5).
        -- apply (within_weaken a b (mid + 1) b); (lia || done).
        -- apply (within_weaken a b a mid); (lia || done).
      * apply (sorted_partitioned d6 a b mid); [done| |done].
        apply (sorted_range_frame d5 d6 (mid + 1) b a mid); [done|lia|done].
Qed.
End pdqsort.

(** ** sort.Sort *)

Lemma index_of_nat {A} (d : list A) (i : nat) : index d (Z.of_nat i) = d !! i.
Proof.
  unfold index. destruct (Z.leb_spec 0 (Z.of_nat i)); [|lia]. by rewrite Nat2Z.id.
Qed.

Section Sort.
Context {A : Type} {data : sort.Interface (list A)} {lt : A → A → bool}
        {SO : SliceOrder data lt} {SW : StrictWeak lt}.
Implicit Types d : list A.

Lemma sorted_range_ordered d :
  sorted_range lt d 0 (Z.of_nat (length d)) → ordered_by lt d.
Proof.
  intros Hs i j x y Hij Hx Hy. pose proof (lookup_lt_Some _ _ _ Hy) as Hj.
  rewrite <- index_of_nat in Hx, Hy.
  apply (Hs (Z.of_nat i) (Z.of_nat j)); (lia || done).
Qed.

(** [sort.Sort] returns, with a permutation of the slice in order; a
    slice of at most 12 elements is sorted by insertion, which keeps
    ties in place. *)
Lemma Sort_spec d :
  wp (sort.Sort data d)
     (λ d', d' ≡ₚ d ∧ ordered_by lt d'
            ∧ ((length d ≤ 12)%nat → ties_kept lt d d')).
Proof.
  unfold sort.Sort. rewrite Len_eq.
  destruct (Z.leb_spec (Z.of_nat (length d)) 1) as [Hle|Hgt].
  { apply wp_ret. split_and!; [done| |done].
    intros i j x y Hij Hx Hy. apply lookup_lt_Some in Hy. lia. }
  destruct (decide (length d ≤ 12)%nat) as [Hsmall|Hbig].
  - cbn [sort.pdqsort]. unfold sort.maxInsertion.
    destruct (Z.leb_spec (Z.of_nat (length d) - 0) 12); [|lia].
    eapply wp_mono; [apply insertionSort_spec; lia|].
    intros d' (Hw & Hs & Ht). split_and!; [apply Hw| |done].
    apply sorted_range_ordered. by rewrite (within_length _ _ _ _ Hw).
  - eapply wp_mono.
    { apply pdqsort_spec; [lia..|]. by left. }
    intros d' (Hw & Hs). split_and!; [apply Hw| |lia].
    apply sorted_range_ordered. by rewrite (within_length _ _ _ _ Hw).
Qed.
End Sort.

(** The two interfaces [GetBeacons] sorts with. *)
Lemma slice_Interface_order {A} (less : A → A → bool) :
  SliceOrder (slice_Interface less) less.
Proof. split; reflexivity. Qed.

Lemma Reverse_order {A} (less : A → A → bool) :
  SliceOrder (sort.Reverse (slice_Interface less)) (λ x y, less y x).
Proof.
  split; try reflexivity. intros d i j. simpl.
  destruct (index d i), (index d j); reflexivity.
Qed.

Lemma StrictWeak_flip {A} (lt : A → A → bool) :
  StrictWeak lt → StrictWeak (λ x y, lt y x).
Proof.
  intros [I T N]. split.
  - done.
  - intros x y z Hxy Hyz. by apply (T z y x).
  - intros x y z Hxy Hyz. by apply (N z y x).
Qed.

Lemma StrictWeak_key {A} (key : A → Z) : StrictWeak (λ a b, key a <? key b).
Proof.
  split.
  - intros x. apply Z.ltb_irrefl.
  - intros x y z ?%Z.ltb_lt ?%Z.ltb_lt. apply Z.ltb_lt. lia.
  - intros x y z ?%Z.ltb_ge ?%Z.ltb_ge. apply Z.ltb_ge. lia.
Qed.

(** Byte-wise comparison of strings is a strict total order. *)
Lemma Ascii_compare_refl c : Ascii.compare c c = Eq.
Proof. unfold Ascii.compare. apply N.compare_refl. Qed.

Lemma String_compare_refl s : String.compare s s = Eq.
Proof. induction s as [|c s IH]; [done|]. simpl. by rewrite Ascii_compare_refl. Qed.

Lemma String_compare_trans c s1 : ∀ s2 s3,
  String.compare s1 s2 = c → String.compare s2 s3 = c → String.compare s1 s3 = c.
Proof.
  induction s1 as [|a1 s1 IH]; intros [|a2 s2] [|a3 s3]; simpl; try congruence.
  unfold Ascii.compare.
  destruct (N.compare_spec (N_of_ascii a1) (N_of_ascii a2)) as [E12|L12|L12],
    (N.compare_spec (N_of_ascii a2) (N_of_ascii a3)) as [E23|L23|L23];
    try congruence;
    first [ replace (N_of_ascii a1 ?= N_of_ascii a3)%N with Eq
              by (symmetry; apply N.compare_eq_iff; congruence)
          | replace (N_of_ascii a1 ?= N_of_ascii a3)%N with Lt
              by (symmetry; apply N.compare_lt_iff; lia)
          | replace (N_of_ascii a1 ?= N_of_ascii a3)%N with Gt
              by (symmetry; apply N.compare_gt_iff; lia) ];
    (apply IH || congruence).
Qed.

Lemma StrictWeak_String_ltb : StrictWeak String.ltb.
Proof.
  split.
  - intros s. unfold String.ltb. by rewrite String_compare_refl.
  - intros x y z. unfold String.ltb.
    destruct (String.compare x y) eqn:Hxy; try done.
    destruct (String.compare y z) eqn:Hyz; try done.
    by rewrite (String_compare_trans Lt x y z).
  - intros x y z. unfold String.ltb.
    destruct (String.compare x z) eqn:Hxz; try done.
    destruct (String.compare x y) eqn:Hxy; try done;
      destruct (String.compare y z) eqn:Hyz; try done; intros _ _.
    + apply String.compare_eq_iff in Hxy, Hyz. subst.
      by rewrite String_compare_refl in Hxz.
    + apply String.compare_eq_iff in Hxy. subst. congruence.
    + apply String.compare_eq_iff in Hyz. subst. congruence.
    + (* z < y < x < z *)
      rewrite String.compare_antisym in Hxy, Hyz.
      destruct (String.compare y x) eqn:Hyx; try done.
      destruct (String.compare z y) eqn:Hzy; try done.
      pose proof (String_compare_trans Lt z y x Hzy Hyx) as Hzx.
      pose proof (String_compare_trans Lt x z x Hxz Hzx) as Hxx.
      by rewrite String_compare_refl in Hxx.
Qed.

(** ** Usage codec *)

Lemma single_bit_nonzero x : single_bit x → x ≠ 0.
Proof. intros (k & Hk & ->). pose proof (Z.pow_pos_nonneg 2 k). lia. Qed.

Lemma single_bit_disjoint x y : single_bit x → single_bit y → x ≠ y → Z.land x y = 0.
Proof.
  intros (j & Hj & ->) (k & Hk & ->) Hne.
  apply Z.bits_inj'. intros n Hn.
  rewrite Z.land_spec, !Z.pow2_bits_eqb, Z.bits_0 by lia.
  destruct (Z.eqb_spec j n), (Z.eqb_spec k n); simpl; try reflexivity.
  subst. congruence.
Qed.

Section UsageCodec.
Context {names : UsageNames} {names_ok : UsageNamesSpec names}.

Lemma flags_facts :
  (UsageUpReg ≠ 0 ∧ UsageDownReg ≠ 0 ∧ UsageCoreReg ≠ 0 ∧ UsageProp ≠ 0)
  ∧ (Z.land UsageUpReg UsageDownReg = 0 ∧ Z.land UsageUpReg UsageCoreReg = 0
     ∧ Z.land UsageUpReg UsageProp = 0 ∧ Z.land UsageDownReg UsageCoreReg = 0
     ∧ Z.land UsageDownReg UsageProp = 0 ∧ Z.land UsageCoreReg UsageProp = 0).
Proof.
  destruct names_ok as [Hb Hd _].
  rewrite !Forall_cons in Hb. rewrite !NoDup_cons, !not_elem_of_cons in Hd.
  destruct_and!.
  split; [auto using single_bit_nonzero|].
  repeat split; apply single_bit_disjoint; assumption.
Qed.

Lemma tokens_facts :
  UpRegistration ≠ DownRegistration ∧ UpRegistration ≠ CoreRegistration
  ∧ UpRegistration ≠ Propagation ∧ DownRegistration ≠ CoreRegistration
  ∧ DownRegistration ≠ Propagation ∧ CoreRegistration ≠ Propagation.
Proof.
  destruct names_ok as [_ _ Ht].
  rewrite !NoDup_cons, !not_elem_of_cons in Ht. destruct_and!.
  repeat split; assumption.
Qed.

Lemma land_flag_choice (b : bool) f g :
  Z.land (if b then f else 0) g = if b then Z.land f g else 0.
Proof. destruct b; [reflexivity | apply Z.land_0_l]. Qed.

(** Decoding tests exactly the bit of each flag. *)
Lemma usage_mask_tests up down core prop :
  (Z.land (usage_mask up down core prop) UsageUpReg =? 0) = negb up
  ∧ (Z.land (usage_mask up down core prop) UsageDownReg =? 0) = negb down
  ∧ (Z.land (usage_mask up down core prop) UsageCoreReg =? 0) = negb core
  ∧ (Z.land (usage_mask up down core prop) UsageProp =? 0) = negb prop.
Proof.
  destruct flags_facts as ((Hu & Hd & Hc & Hp) & H1 & H2 & H3 & H4 & H5 & H6).
  pose proof (Z.land_comm UsageUpReg) as Hcomm.
  assert (Z.land UsageDownReg UsageUpReg = 0) by (rewrite Z.land_comm; done).
  assert (Z.land UsageCoreReg UsageUpReg = 0) by (rewrite Z.land_comm; done).
  assert (Z.land UsageProp UsageUpReg = 0) by (rewrite Z.land_comm; done).
  assert (Z.land UsageCoreReg UsageDownReg = 0) by (rewrite Z.land_comm; done).
  assert (Z.land UsageProp UsageDownReg = 0) by (rewrite Z.land_comm; done).
  assert (Z.land UsageProp UsageCoreReg = 0) by (rewrite Z.land_comm; done).
  unfold usage_mask.
  rewrite !Z.land_lor_distr_l, !land_flag_choice, !Z.land_diag.
  repeat match goal with H : Z.land _ _ = 0 |- _ => rewrite !H; clear H end.
  destruct up, down, core, prop; simpl; rewrite ?Z.lor_0_l, ?Z.lor_0_r;
    repeat split; try reflexivity; apply Z.eqb_neq; assumption.
Qed.

Lemma UnpackBeaconUsages_mask up down core prop :
  UnpackBeaconUsages (usage_mask up down core prop)
  = (if up then [UpRegistration] else [])
    ++ (if down then [DownRegistration] else [])
    ++ (if core then [CoreRegistration] else [])
    ++ (if prop then [Propagation] else []).
Proof.
  destruct (usage_mask_tests up down core prop) as (Hu & Hd & Hc & Hp).
  unfold UnpackBeaconUsages. rewrite Hu, Hd, Hc, Hp.
  destruct up, down, core, prop; reflexivity.
Qed.

Lemma usage_step_known s :
  usage_step s UpRegistration = (Z.lor s.1 UsageUpReg, s.2)
  ∧ usage_step s DownRegistration = (Z.lor s.1 UsageDownReg, s.2)
  ∧ usage_step s CoreRegistration = (Z.lor s.1 UsageCoreReg, s.2)
  ∧ usage_step s Propagation = (Z.lor s.1 UsageProp, s.2).
Proof.
  destruct tokens_facts as (H1 & H2 & H3 & H4 & H5 & H6).
  destruct s as [usage errs]. unfold usage_step.
  repeat match goal with
         | H : _ ≠ _ |- _ =>
             pose proof (proj2 (String.eqb_neq _ _) H);
             pose proof (proj2 (String.eqb_neq _ _) (not_eq_sym H)); clear H
         end.
  repeat split; rewrite ?String.eqb_refl;
    repeat match goal with H : String.eqb _ _ = false |- _ => rewrite ?H; clear H end;
    reflexivity.
Qed.

Lemma fold_usage_step_choice (b : bool) t s :
  fold_left usage_step (if b then [t] else []) s = if b then usage_step s t else s.
Proof. destruct b; reflexivity. Qed.

Lemma encode_decode up down core prop :
  fold_left usage_step (UnpackBeaconUsages (usage_mask up down core prop)) (0, [])
  = (usage_mask up down core prop, []).
Proof.
  rewrite UnpackBeaconUsages_mask, !fold_left_app, !fold_usage_step_choice.
  pose proof usage_step_known as Hk.
  destruct up, down, core, prop;
    rewrite ?(proj1 (Hk _)), ?(proj1 (proj2 (Hk _))),
      ?(proj1 (proj2 (proj2 (Hk _)))), ?(proj2 (proj2 (proj2 (Hk _))));
    cbn [fst snd]; unfold usage_mask; rewrite ?Z.lor_0_l, ?Z.lor_0_r; reflexivity.
Qed.
End UsageCodec.

(** ** Filter builder *)

Section FilterBuilder.
Context {names : UsageNames} {ext : Collaborators} {store : BeaconStore}.

Lemma usage_step_errors u errs t :
  (usage_step (u, errs) t).2
  = errs ++ (if known_usage t then [] else [usage_error t]).
Proof.
  unfold usage_step, known_usage, usage_error.
  destruct (String.eqb t CoreRegistration), (String.eqb t DownRegistration),
    (String.eqb t Propagation), (String.eqb t UpRegistration);
    simpl; rewrite ?app_nil_r; reflexivity.
Qed.

Lemma usage_fold_errors flags : ∀ u errs,
  (fold_left usage_step flags (u, errs)).2
  = errs ++ map usage_error (filter (λ t, known_usage t = false) flags).
Proof.
  induction flags as [|t flags IH]; intros u errs; cbn [fold_left].
  - simpl. by rewrite app_nil_r.
  - destruct (usage_step (u, errs) t) as [u' errs'] eqn:Hstep.
    rewrite IH. pose proof (usage_step_errors u errs t) as He.
    rewrite Hstep in He. simpl in He. subst errs'.
    destruct (known_usage t) eqn:Hk.
    + rewrite filter_cons_False by congruence. by rewrite app_nil_r.
    + rewrite filter_cons_True by done. simpl. by rewrite <- app_assoc.
Qed.

Lemma sortFactory_key k :
  match sortFactory (Some k) with
  | inl _ => known_sort_key k = true
  | inr err =>
      known_sort_key k = false
      ∧ err = serrors_New "unknown query parameter" [("sort", CtxString k)]
  end.
Proof.
  unfold sortFactory, known_sort_key.
  repeat match goal with
         | |- context [String.eqb k ?s] =>
             destruct (String.eqb_spec k s) as [->|?]; [reflexivity|]
         end.
  split; [|reflexivity].
  apply bool_decide_eq_false. rewrite !elem_of_cons, elem_of_nil. tauto.
Qed.

Lemma sortFactory_errors params :
  match sortFactory (param_Sort params) with
  | inl _ => sort_errors params = []
  | inr err => sort_errors params = [err]
  end.
Proof.
  unfold sort_errors. destruct (param_Sort params) as [k|]; [|reflexivity].
  pose proof (sortFactory_key k) as Hk.
  destruct (sortFactory (Some k)); [by rewrite Hk|].
  destruct Hk as [-> ->]. reflexivity.
Qed.

(** The accumulated error list is the concatenation of the errors of
    each field. *)
Lemma GetBeacons_query_errors now params :
  (GetBeacons_query now params).1.2 = field_errors params.
Proof.
  unfold GetBeacons_query, field_errors, start_isd_as_errors, usages_errors,
    ingress_interface_errors.
  pose proof (sortFactory_errors params) as Hs.
  destruct (sortFactory (param_Sort params)) as [less|err]; rewrite Hs; clear Hs;
    destruct (param_StartIsdAs params) as [s|]; try destruct (addr_ParseIA s);
    destruct (param_Usages params) as [flags|];
    try (pose proof (usage_fold_errors flags 0) as Hf;
         match goal with
         | |- context [fold_left usage_step flags (0, ?e)] =>
             specialize (Hf e); destruct (fold_left usage_step flags (0, e))
         end; simpl in Hf; subst);
    destruct (param_IngressInterface params) as [v|];
    try (destruct (Z.ltb_spec v 0), (Z.ltb_spec 65535 v); simpl;
         try (rewrite bool_decide_eq_false_2 by lia);
         try (rewrite bool_decide_eq_true_2 by lia));
    simpl; rewrite ?app_nil_r, <- ?app_assoc; reflexivity.
Qed.

Lemma field_errors_length params :
  length (field_errors params) = malformed_count params.
Proof.
  unfold field_errors, malformed_count, start_isd_as_errors, usages_errors,
    ingress_interface_errors, sort_errors.
  rewrite !length_app.
  destruct (param_StartIsdAs params) as [s|]; try destruct (addr_ParseIA s);
    destruct (param_Usages params); rewrite ?length_map;
    destruct (param_IngressInterface params); try case_bool_decide;
    destruct (param_Sort params) as [k|]; try destruct (known_sort_key k);
    simpl; lia.
Qed.
End FilterBuilder.

Lemma example_names_spec : UsageNamesSpec example_names.
Proof.
  split.
  - repeat constructor; [exists 0 | exists 1 | exists 2 | exists 3]; split; (lia || reflexivity).
  - compute_done.
  - compute_done.
Qed.

Section Claims.
Context {names : UsageNames} {ext : Collaborators} {store : BeaconStore}.

Lemma GetBeacons_malformed now params :
  malformed_count params ≠ 0%nat →
  GetBeacons now params
  = ([], bad_request "malformed query parameters"
           (List_Error (field_errors params))).
Proof.
  intros Hbad. rewrite <- field_errors_length in Hbad.
  rewrite <- (GetBeacons_query_errors now params) in *.
  unfold GetBeacons.
  destruct (GetBeacons_query now params) as [[q errs] sortFn]. simpl in *.
  destruct errs; [done | reflexivity].
Qed.

Lemma GetBeacons_well_formed now params :
  malformed_count params = 0%nat →
  (GetBeacons now params).1 = [(GetBeacons_query now params).1.1].
Proof.
  intros Hok. rewrite <- field_errors_length in Hok.
  rewrite <- (GetBeacons_query_errors now params) in *.
  unfold GetBeacons.
  destruct (GetBeacons_query now params) as [[q errs] sortFn]. simpl in *.
  destruct errs; [|done]. simpl.
  repeat case_match; reflexivity.
Qed.

(** C1: the errors [GetBeacons] accumulates are the errors of every
    malformed parameter, field by field and in order (an unparsable start
    ISD-AS, one error per unknown usage token, an ingress interface out
    of range, an unknown sort key), so their number is the number of
    malformed parameters; and if at least one parameter is malformed the
    request fails as a whole: the response is the 400 bad-request problem
    whose detail renders the whole error list, and the beacon store is
    not queried. *)
Theorem C1_validation_errors_accumulate now params :
  (GetBeacons_query now params).1.2 = field_errors params
  ∧ length (field_errors params) = malformed_count params
  ∧ (malformed_count params ≠ 0%nat →
     GetBeacons now params
     = ([], bad_request "malformed query parameters"
              (List_Error (field_errors params)))).
Proof.
  split; [apply GetBeacons_query_errors|].
  split; [apply field_errors_length|]. apply GetBeacons_malformed.
Qed.

(** C6: the valid-at instant of the query [GetBeacons] builds is the
    zero time when the all flag is supplied and true, whether or not a
    validAt instant is supplied as well; otherwise it is the supplied
    validAt instant; otherwise it is the current time. A well-formed
    request sends exactly this query to the store. *)
Theorem C6_validity_selection now params :
  (param_All params = Some true →
     ValidAt (GetBeacons_query now params).1.1 = Time_zero)
  ∧ (param_All params ≠ Some true → ∀ t, param_ValidAt params = Some t →
     ValidAt (GetBeacons_query now params).1.1 = t)
  ∧ (param_All params ≠ Some true → param_ValidAt params = None →
     ValidAt (GetBeacons_query now params).1.1 = now)
  ∧ (malformed_count params = 0%nat →
     (GetBeacons now params).1 = [(GetBeacons_query now params).1.1]).
Proof.
  assert (Hq : ValidAt (GetBeacons_query now params).1.1
               = match param_All params, param_ValidAt params with
                 | Some true, _ => Time_zero
                 | _, Some t => t
                 | _, None => now
                 end).
  { unfold GetBeacons_query. repeat case_match; reflexivity. }
  rewrite Hq. repeat split.
  - intros ->. reflexivity.
  - intros Hall t ->. destruct (param_All params) as [[]|]; done.
  - intros Hall ->. destruct (param_All params) as [[]|]; done.
  - apply GetBeacons_well_formed.
Qed.

(** C7: for every subset of the four usage flags, [UnpackBeaconUsages]
    decodes the OR of the subset into the tokens of the flags in it, in
    the fixed order Up, Down, Core, Propagation; and the query that
    [GetBeacons] builds from a request carrying exactly those tokens has
    the original bitmask as its usage predicate, with no error. *)
Theorem C7_usage_round_trip (names_ok : UsageNamesSpec names)
    up down core prop now :
  UnpackBeaconUsages (usage_mask up down core prop)
  = (if up then [UpRegistration] else [])
    ++ (if down then [DownRegistration] else [])
    ++ (if core then [CoreRegistration] else [])
    ++ (if prop then [Propagation] else [])
  ∧ GetBeacons_query now
      (request_with_usages (UnpackBeaconUsages (usage_mask up down core prop)))
    = ({| SegIDs := []; StartsAt := []; IngressInterfaces := [];
          Usages := [usage_mask up down core prop]; ValidAt := now |},
       [], Some (λ a b, Time_Before (LastUpdated a) (LastUpdated b))).
Proof.
  split; [apply UnpackBeaconUsages_mask|].
  unfold GetBeacons_query, request_with_usages.
  cbn [param_StartIsdAs param_Usages param_IngressInterface param_All
       param_ValidAt param_Sort].
  rewrite encode_decode. reflexivity.
Qed.
End Claims.

(** C1 on a request with an unparsable start ISD-AS, two unknown usage
    tokens and an ingress interface out of range: four errors, no query. *)
Lemma C1_witness :
  malformed_count (names := example_names) (ext := example_ext) bad_params = 4%nat
  ∧ GetBeacons (names := example_names) (ext := example_ext)
      (store := example_store []) 0 bad_params
    = ([], bad_request "malformed query parameters" "4 errors").
Proof.
  split; [reflexivity|].
  apply (C1_validation_errors_accumulate (names := example_names)
           (ext := example_ext) (store := example_store []) 0 bad_params).
  vm_compute. discriminate.
Defined.

(** ** Single-beacon lookup *)

Section Lookup.
Context {names : UsageNames} {ext : Collaborators} {store : BeaconStore}.

(** C9: in [GetBeacon], for an identifier that decodes as hex and a
    store that answers the lookup: no matching record gives a 400
    bad-request problem, more than one matching record gives a 400
    bad-request problem as well, exactly one gives the projected beacon
    (if the response can be encoded), and a beacon is returned only when
    exactly one record matched. *)
Theorem C9_exact_lookup segmentId id results :
  hex_DecodeString segmentId = (id, None) →
  store_GetBeacons (lookup_query id) = inl results →
  (results = [] →
     GetBeacon segmentId
     = ([lookup_query id],
        bad_request "malformed query parameter"
          ("no beacon matched provided segment ID: " +:+ segmentId)))
  ∧ ((1 < length results)%nat →
     GetBeacon segmentId
     = ([lookup_query id],
        bad_request "malformed query parameter"
          (pretty (len results) +:+ " beacons matched provided segment ID: "
           +:+ segmentId)))
  ∧ (∀ result, results = [result] →
     json_Encode (BeaconPayload (project result)) = None →
     GetBeacon segmentId
     = ([lookup_query id], Encoded (BeaconPayload (project result))))
  ∧ (∀ b, (GetBeacon segmentId).2 = Encoded (BeaconPayload b) →
     ∃ result, results = [result] ∧ b = project result).
Proof.
  intros Hhex Hstore. unfold GetBeacon. rewrite Hhex.
  fold (lookup_query id). rewrite Hstore.
  repeat split.
  - intros ->. reflexivity.
  - intros Hlen. destruct results as [|r1 [|r2 rest]]; simpl in Hlen; try lia.
    destruct (Z.eqb_spec (len (r1 :: r2 :: rest)) 0) as [E|_];
      [unfold len in E; simpl in E; lia|].
    destruct (Z.ltb_spec 1 (len (r1 :: r2 :: rest))) as [_|E];
      [reflexivity | unfold len in E; simpl in E; lia].
  - intros result -> Henc. simpl. rewrite Henc. reflexivity.
  - intros b. destruct results as [|r1 [|r2 rest]].
    + simpl. discriminate.
    + simpl. destruct (json_Encode _); simpl; [discriminate|].
      intros [= <-]. eauto.
    + destruct (Z.eqb_spec (len (r1 :: r2 :: rest)) 0) as [E|_];
        [unfold len in E; simpl in E; lia|].
      destruct (Z.ltb_spec 1 (len (r1 :: r2 :: rest))) as [_|E];
        [simpl; discriminate | unfold len in E; simpl in E; lia].
Qed.
End Lookup.

(** ** Health aggregation *)

Lemma time_Until_expired now t : (time_Until now t <=? 0) = bool_decide (t ≤ now).
Proof.
  unfold time_Until, Time_Sub, minDuration, maxDuration.
  repeat case_match; case_bool_decide; lia.
Qed.

Lemma time_Until_close now t :
  (time_Until now t <? 6 * Hour) = bool_decide (t - now < 6 * Hour).
Proof.
  unfold time_Until, Time_Sub, minDuration, maxDuration, Hour.
  repeat case_match; case_bool_decide; lia.
Qed.

Lemma StringRef_nonempty_spec s :
  (s = "" → StringRef_nonempty s = None) ∧ (s ≠ "" → StringRef_nonempty s = Some s).
Proof.
  unfold StringRef_nonempty. destruct (String.eqb_spec s ""); split; intros; done.
Qed.

Lemma AggregateHealthStatus_Failing l :
  AggregateHealthStatus l = Failing ↔ Failing ∈ l.
Proof.
  unfold AggregateHealthStatus.
  destruct (existsb _ l) eqn:E1.
  - apply existsb_exists in E1 as (s & Hin & Hs). destruct s; try done.
    split; [intros _|done]. by apply list_elem_of_In.
  - split; [by case_match|]. intros Hin. apply list_elem_of_In in Hin.
    assert (existsb (λ s, match s with Failing => true | _ => false end) l = true)
      by (apply existsb_exists; eauto).
    congruence.
Qed.

Lemma AggregateHealthStatus_Degraded l :
  AggregateHealthStatus l = Degraded ↔ (Failing ∉ l) ∧ (Degraded ∈ l).
Proof.
  pose proof (AggregateHealthStatus_Failing l) as HF. revert HF.
  unfold AggregateHealthStatus.
  destruct (existsb _ l) eqn:E1; intros HF.
  - split; [done|]. intros [Hn _]. destruct Hn. by apply HF.
  - destruct (existsb (λ s, match s with Degraded => true | _ => false end) l) eqn:E2.
    + apply existsb_exists in E2 as (s & Hin & Hs). destruct s; try done.
      split; [intros _|done]. split; [intros Hf; by apply HF in Hf|].
      by apply list_elem_of_In.
    + split; [done|]. intros [_ Hin]. apply list_elem_of_In in Hin.
      assert (existsb (λ s, match s with Degraded => true | _ => false end) l = true)
        by (apply existsb_exists; eauto).
      congruence.
Qed.

Lemma AggregateHealthStatus_Passing l :
  AggregateHealthStatus l = Passing ↔ ∀ s, s ∈ l → s = Passing.
Proof.
  pose proof (AggregateHealthStatus_Failing l) as HF.
  pose proof (AggregateHealthStatus_Degraded l) as HD.
  destruct (AggregateHealthStatus l).
  - split; [intros _|done]. intros [] Hin; [done| |].
    + assert (Failing ∉ l) as Hn by (intros Hf; by apply HF in Hf).
      by destruct (proj2 HD (conj Hn Hin)).
    + by apply HF in Hin.
  - split; [done|]. intros Hall. destruct HD as [HD _].
    destruct (HD eq_refl) as [_ Hin]. by apply Hall in Hin.
  - split; [done|]. intros Hall. destruct HF as [HF _].
    by apply Hall in HF.
Qed.

Lemma AggregateHealthStatus_least_healthy l :
  (∀ s, s ∈ l → (severity s ≤ severity (AggregateHealthStatus l))%nat)
  ∧ (l ≠ [] → AggregateHealthStatus l ∈ l).
Proof.
  pose proof (AggregateHealthStatus_Failing l) as HF.
  pose proof (AggregateHealthStatus_Degraded l) as HD.
  pose proof (AggregateHealthStatus_Passing l) as HP.
  destruct (AggregateHealthStatus l); split.
  - intros s Hin. rewrite (proj1 HP eq_refl s Hin). done.
  - intros Hne. destruct l as [|s l]; [done|].
    rewrite <- (proj1 HP eq_refl s); left.
  - intros [] Hin; simpl; try lia.
    destruct (proj1 HD eq_refl) as [Hn _]. done.
  - intros _. by destruct (proj1 HD eq_refl).
  - intros []; simpl; lia.
  - intros _. by apply HF.
Qed.

Section HealthClaims.
Context {ext : Collaborators} {healther : Healther}.

(** C3: the signer check is the first check of the report, and its
    rules apply in a fixed order, the first that matches deciding: (1) a
    missing signer fails, with the missing-reason as detail when there is
    one; (2) an expiration at or before now fails with detail "signer
    certificate has expired"; (3) a trust root in its grace period
    degrades, with the expiry and the grace flag as data; (4) an
    expiration less than 6 hours ahead degrades, with the expiry as data
    and a "close to expiration" detail; (5) anything else passes, with
    the expiry as data. [now1] and [now2] are the clock readings of
    rules (2) and (4). *)
Theorem C3_signer_check now1 now2 :
  GetHealth_checks now1 now2 !! 0%nat
  = Some (signerCheck now1 now2 GetSignerHealth)
  ∧ ∀ h : SignerHealthData,
    let c := signerCheck now1 now2 h in
    let expires_at := DString (Format_RFC3339 (signer_Expiration h)) in
    (SignerMissing h = true →
       check_Status c = Failing
       ∧ (SignerMissingDetail h ≠ "" →
          check_Detail c = Some (SignerMissingDetail h))
       ∧ (SignerMissingDetail h = "" → check_Detail c = None))
    ∧ (SignerMissing h = false → signer_Expiration h ≤ now1 →
       check_Status c = Failing
       ∧ check_Detail c = Some "signer certificate has expired")
    ∧ (SignerMissing h = false → now1 < signer_Expiration h →
       InGrace h = true →
       check_Status c = Degraded
       ∧ check_Data c !! "expires_at" = Some expires_at
       ∧ check_Data c !! "in_grace" = Some (DBool true))
    ∧ (SignerMissing h = false → now1 < signer_Expiration h →
       InGrace h = false → signer_Expiration h - now2 < 6 * Hour →
       check_Status c = Degraded
       ∧ check_Data c = {[ "expires_at" := expires_at ]}
       ∧ check_Detail c = Some "signer certificate is close to expiration")
    ∧ (SignerMissing h = false → now1 < signer_Expiration h →
       InGrace h = false → 6 * Hour ≤ signer_Expiration h - now2 →
       check_Status c = Passing
       ∧ check_Data c = {[ "expires_at" := expires_at ]}
       ∧ check_Detail c = None).
Proof.
  split; [unfold GetHealth_checks; by destruct GetCAHealth as [? []]|].
  intros h. cbv zeta. unfold signerCheck.
  rewrite time_Until_expired, time_Until_close.
  destruct (StringRef_nonempty_spec (SignerMissingDetail h)) as [He Hn].
  repeat split; intros;
    repeat match goal with H : _ = true |- _ => rewrite H | H : _ = false |- _ => rewrite H end;
    repeat case_bool_decide; try lia; simpl; auto.
Qed.

(** C4: the checks of the report are the signer check, then the
    trust-root check, then the CA check when there is one; and the
    overall status is the least healthy status among them under Failing >
    Degraded > Passing: Failing if a check fails, else Degraded if a
    check is degraded, else Passing. *)
Theorem C4_overall_status now1 now2 :
  let rep := response_Health (GetHealth_report now1 now2) in
  health_Checks rep
  = [signerCheck now1 now2 GetSignerHealth; trcCheck GetTRCHealth]
    ++ (if GetCAHealth.2 then [caCheck GetCAHealth.1] else [])
  ∧ (health_Status rep = Failing
     ↔ ∃ c, c ∈ health_Checks rep ∧ check_Status c = Failing)
  ∧ (health_Status rep = Degraded
     ↔ (∀ c, c ∈ health_Checks rep → check_Status c ≠ Failing)
       ∧ ∃ c, c ∈ health_Checks rep ∧ check_Status c = Degraded)
  ∧ (health_Status rep = Passing
     ↔ ∀ c, c ∈ health_Checks rep → check_Status c = Passing)
  ∧ (∀ c, c ∈ health_Checks rep →
     (severity (check_Status c) ≤ severity (health_Status rep))%nat)
  ∧ (∃ c, c ∈ health_Checks rep ∧ check_Status c = health_Status rep).
Proof.
  cbv zeta. unfold GetHealth_report. cbn [response_Health health_Checks health_Status].
  set (checks := GetHealth_checks now1 now2).
  assert (Hne : map check_Status checks ≠ []).
  { unfold checks, GetHealth_checks. by destruct GetCAHealth as [? []]. }
  split; [unfold checks, GetHealth_checks; by destruct GetCAHealth as [? []]|].
  rewrite AggregateHealthStatus_Failing, AggregateHealthStatus_Degraded,
    AggregateHealthStatus_Passing.
  destruct (AggregateHealthStatus_least_healthy (map check_Status checks))
    as [Hle Hin].
  split; [|split; [|split; [|split]]].
  - rewrite list_elem_of_fmap. split.
    + intros (c & ? & ?). eauto.
    + intros (c & ? & ?). eauto.
  - rewrite !list_elem_of_fmap. split.
    + intros [Hn (c & ? & ?)]. split; [|eauto].
      intros c' Hc' Hf. apply Hn. eauto.
    + intros [Hn (c & ? & ?)]. split; [|eauto].
      intros (c' & ? & ?). by apply (Hn c').
  - split.
    + intros Hall c Hc. apply Hall, list_elem_of_fmap. eauto.
    + intros Hall s (c & -> & Hc)%list_elem_of_fmap. auto.
  - intros c Hc. apply Hle, list_elem_of_fmap. eauto.
  - apply Hin, list_elem_of_fmap in Hne as (c & ? & ?). eauto.
Qed.

(** C5: the report has a CA check exactly when the CA probe says it
    applies: without it the report is the signer and the trust-root
    check alone, two checks, none of them the CA check; with it the CA
    check comes third. The CA check passes in state Available and is
    degraded in every other state, carries the raw state as data, and
    never fails. *)
Theorem C5_ca_check now1 now2 :
  let checks := health_Checks (response_Health (GetHealth_report now1 now2)) in
  (GetCAHealth.2 = false →
     checks = [signerCheck now1 now2 GetSignerHealth; trcCheck GetTRCHealth]
     ∧ length checks = 2%nat
     ∧ ∀ c, c ∈ checks → check_Name c ≠ "CPPKI CA Connection")
  ∧ (GetCAHealth.2 = true →
     checks = [signerCheck now1 now2 GetSignerHealth; trcCheck GetTRCHealth;
               caCheck GetCAHealth.1])
  ∧ ∀ status : CAHealthStatus,
    check_Name (caCheck status) = "CPPKI CA Connection"
    ∧ check_Data (caCheck status) = {[ "status" := DString status ]}
    ∧ (status = Available → check_Status (caCheck status) = Passing)
    ∧ (status ≠ Available → check_Status (caCheck status) = Degraded)
    ∧ check_Status (caCheck status) ≠ Failing.
Proof.
  cbv zeta. unfold GetHealth_report, GetHealth_checks.
  cbn [response_Health health_Checks].
  destruct GetCAHealth as [status ok]. simpl.
  split; [|split].
  - intros ->. repeat split.
    intros c. rewrite !elem_of_cons, elem_of_nil.
    intros [->|[->|[]]]; [unfold signerCheck | unfold trcCheck];
      repeat case_match; simpl; discriminate.
  - intros ->. reflexivity.
  - intros st. unfold caCheck. simpl.
    destruct (String.eqb_spec st Available); repeat split; intros; done.
Qed.

(** C10: the trust-root check, second in the report, carries the
    not-found detail whenever the probe supplies a non-empty one, also
    when the probe reports the TRC as found; the check is then Passing
    and has both the detail and the identifier of the TRC as data. *)
Theorem C10_trc_detail now1 now2 :
  GetHealth_checks now1 now2 !! 1%nat = Some (trcCheck GetTRCHealth)
  ∧ ∀ d : TRCHealthData,
    TRCNotFoundDetail d ≠ "" →
    check_Detail (trcCheck d) = Some (TRCNotFoundDetail d)
    ∧ (TRCNotFound d = false →
       check_Status (trcCheck d) = Passing
       ∧ check_Data (trcCheck d) !! "isd"
         = Some (DNumber (trcid_ISD (trc_TRCID d)))
       ∧ check_Data (trcCheck d) !! "base_number"
         = Some (DNumber (trcid_Base (trc_TRCID d)))
       ∧ check_Data (trcCheck d) !! "serial_number"
         = Some (DNumber (trcid_Serial (trc_TRCID d)))).
Proof.
  split; [unfold GetHealth_checks; by destruct GetCAHealth as [? []]|].
  intros d Hd. unfold trcCheck.
  rewrite (proj2 (StringRef_nonempty_spec _) Hd).
  split; [by destruct (TRCNotFound d)|].
  intros ->. simpl. repeat split.
Qed.
End HealthClaims.

(** ** The comparisons of [sortFactory] *)

Lemma StrictWeak_start_isd_as : StrictWeak start_isd_as_less.
Proof.
  destruct StrictWeak_String_ltb as [I T N].
  split; unfold start_isd_as_less, len.
  - intros x. destruct (Hops x); [apply Z.ltb_irrefl | apply I].
  - intros x y z. destruct (Hops x), (Hops y), (Hops z); simpl length;
      rewrite ?Z.ltb_lt; try lia; try apply T.
  - intros x y z. destruct (Hops x), (Hops y), (Hops z); simpl length;
      rewrite ?Z.ltb_ge; try lia; try apply N.
Qed.

Lemma sortFactory_StrictWeak sortParam less :
  sortFactory sortParam = inl less → StrictWeak less.
Proof.
  unfold sortFactory.
  repeat match goal with
         | |- context [String.eqb ?s ?t] => destruct (String.eqb s t)
         end; intros [= <-]; try apply StrictWeak_key.
  apply StrictWeak_start_isd_as.
Qed.

Lemma ties_kept_flip {A} (lt : A → A → bool) d d' :
  ties_kept (λ x y, lt y x) d d' → ties_kept lt d d'.
Proof.
  intros Ht x. specialize (Ht x).
  rewrite <- (list_filter_iff (tied (λ x y, lt y x) x) (tied lt x) d'),
          <- (list_filter_iff (tied (λ x y, lt y x) x) (tied lt x) d); [done|..];
    intros y; unfold tied; tauto.
Qed.

Section Sorting.
Context {names : UsageNames} {ext : Collaborators} {store : BeaconStore}.

Lemma GetBeacons_query_sortFn now params :
  (GetBeacons_query now params).2
  = match sortFactory (param_Sort params) with
    | inl less => Some less
    | inr _ => None
    end.
Proof.
  unfold GetBeacons_query.
  destruct (sortFactory (param_Sort params));
    destruct (param_StartIsdAs params) as [s|]; try destruct (addr_ParseIA s);
    destruct (param_Usages params) as [flags|];
    try match goal with
        | |- context [fold_left usage_step flags ?s] =>
            destruct (fold_left usage_step flags s)
        end;
    destruct (param_IngressInterface params); reflexivity.
Qed.

Lemma sortFactory_well_formed params :
  malformed_count params = 0%nat →
  ∃ less, sortFactory (param_Sort params) = inl less.
Proof.
  intros Hok. rewrite <- field_errors_length in Hok.
  unfold field_errors in Hok. rewrite !length_app in Hok.
  pose proof (sortFactory_errors params) as Hs.
  destruct (sortFactory (param_Sort params)) as [less|err]; [by eauto|].
  rewrite Hs in Hok. simpl in Hok. lia.
Qed.

Lemma request_sort less params (l : list Beacon) :
  StrictWeak less →
  wp (sort.Sort (request_sorter less params) l)
     (λ rep, rep ≡ₚ l ∧ ordered_by (request_less less params) rep
             ∧ ((length l ≤ 12)%nat → ties_kept less l rep)).
Proof.
  intros SW. unfold request_sorter, request_less.
  destruct (descending params).
  - pose proof (Reverse_order less) as SO.
    pose proof (StrictWeak_flip less SW) as SW'.
    eapply wp_mono; [apply (Sort_spec (SO := SO) (SW := SW'))|].
    intros rep (? & ? & Ht). split_and!; [done..|].
    intros Hl. by apply ties_kept_flip, Ht.
  - pose proof (slice_Interface_order less) as SO.
    apply (Sort_spec (SO := SO) (SW := SW)).
Qed.

(** The response to a well-formed request the store answers, given what
    [sort.Sort] returns. *)
Lemma GetBeacons_encoded now params results less rep :
  malformed_count params = 0%nat →
  store_GetBeacons (GetBeacons_query now params).1.1 = inl results →
  sortFactory (param_Sort params) = inl less →
  sort.Sort (request_sorter less params) (map project results) = Some rep →
  GetBeacons now params
  = ([(GetBeacons_query now params).1.1], encoded (BeaconsPayload rep)).
Proof.
  intros Hok Hstore Hless Hsort.
  pose proof (GetBeacons_query_errors now params) as Herrs.
  pose proof (GetBeacons_query_sortFn now params) as Hfn.
  rewrite Hless in Hfn.
  rewrite <- field_errors_length in Hok. rewrite <- Herrs in Hok.
  unfold GetBeacons.
  destruct (GetBeacons_query now params) as [[q errs] sortFn].
  simpl in *. subst sortFn. destruct errs; [|done]. simpl.
  rewrite Hstore. unfold request_sorter, descending in Hsort.
  destruct (param_Desc params) as [[|]|]; rewrite Hsort; unfold encoded;
    destruct (json_Encode _); reflexivity.
Qed.
End Sorting.

(** ** Result ordering *)

Section OrderingClaims.
Context {names : UsageNames} {ext : Collaborators} {store : BeaconStore}.

(** C2, as amended: the beacons of a well-formed request are sorted by
    Go's [sort.Sort] under the single comparison [sortFactory] resolves,
    and a descending request sorts under the reversed comparison
    ([sort.Reverse]), not by reversing the output. The sort returns; the
    response carries a permutation of the projected store records in
    which no record is less than an earlier one. It is not a stable sort
    in general: records with tied keys are sure to keep the order in
    which the store produced them (in an ascending and in a descending
    run alike) only when the store returns at most 12 records, which
    [sort.Sort] sorts by insertion. *)
Theorem C2_sort_order now params results :
  malformed_count params = 0%nat →
  store_GetBeacons (GetBeacons_query now params).1.1 = inl results →
  ∃ less rep,
    sortFactory (param_Sort params) = inl less
    ∧ sort.Sort (request_sorter less params) (map project results) = Some rep
    ∧ GetBeacons now params
      = ([(GetBeacons_query now params).1.1], encoded (BeaconsPayload rep))
    ∧ rep ≡ₚ map project results
    ∧ ordered_by (request_less less params) rep
    ∧ ((length results ≤ 12)%nat →
       ∀ x, filter (tied less x) rep
            = filter (tied less x) (map project results)).
Proof.
  intros Hok Hstore.
  destruct (sortFactory_well_formed params Hok) as [less Hless].
  pose proof (sortFactory_StrictWeak _ _ Hless) as SW.
  destruct (request_sort less params (map project results) SW)
    as (rep & Hsort & Hperm & Hord & Hties).
  exists less, rep. split_and!; try done.
  - by apply (GetBeacons_encoded now params results less rep).
  - intros Hlen. apply Hties. by rewrite length_map.
Qed.

Lemma sortFactory_start_isd_as :
  sortFactory (Some "start_isd_as") = inl start_isd_as_less.
Proof. reflexivity. Qed.

Lemma start_isd_as_less_zero_hops x y :
  Hops x = [] → Hops y ≠ [] → start_isd_as_less x y = true.
Proof.
  unfold start_isd_as_less, len. intros -> Hy. destruct (Hops y); [done|].
  apply Z.ltb_lt. simpl. lia.
Qed.

(** C8, as amended: in the response to a request sorted by start_isd_as
    in ascending order (desc absent or false), every record with zero
    hops comes before every record with one or more hops, whatever the
    ISD-AS identifiers are; in the response to a descending request
    (desc true) every record with zero hops comes after every record
    with hops. *)
Theorem C8_zero_hops_by_direction now params results :
  param_Sort params = Some "start_isd_as" →
  malformed_count params = 0%nat →
  store_GetBeacons (GetBeacons_query now params).1.1 = inl results →
  ∃ rep,
    GetBeacons now params
    = ([(GetBeacons_query now params).1.1], encoded (BeaconsPayload rep))
    ∧ rep ≡ₚ map project results
    ∧ ∀ (i j : nat) x y,
        rep !! i = Some x → rep !! j = Some y → Hops x = [] → Hops y ≠ [] →
        if descending params then (j < i)%nat else (i < j)%nat.
Proof.
  intros Hkey Hok Hstore.
  assert (Hless : sortFactory (param_Sort params) = inl start_isd_as_less)
    by (rewrite Hkey; apply sortFactory_start_isd_as).
  destruct (request_sort start_isd_as_less params (map project results)
              StrictWeak_start_isd_as)
    as (rep & Hsort & Hperm & Hord & _).
  exists rep. split_and!; [|done|].
  { by apply (GetBeacons_encoded now params results start_isd_as_less rep). }
  intros i j x y Hx Hy Hx0 Hy0.
  pose proof (start_isd_as_less_zero_hops x y Hx0 Hy0) as Hlt.
  assert (i ≠ j) by (intros ->; simplify_eq; done).
  unfold request_less in Hord. destruct (descending params).
  - destruct (decide (j < i)%nat); [done|].
    pose proof (Hord i j x y ltac:(lia) Hx Hy). simpl in *. congruence.
  - destruct (decide (i < j)%nat); [done|].
    pose proof (Hord j i y x ltac:(lia) Hy Hx). congruence.
Qed.
End OrderingClaims.

(** ** The handlers run on concrete requests *)

(** C2 on a store of two beacons and a request without parameters. *)
Lemma C2_witness :
  ∃ rep,
    GetBeacons (names := example_names) (ext := example_ext)
      (store := example_store two_beacons) 0 no_params
    = ([{| SegIDs := []; StartsAt := []; IngressInterfaces := [];
           Usages := []; ValidAt := 0 |}],
       Encoded (BeaconsPayload rep))
    ∧ rep ≡ₚ map (project (names := example_names) (ext := example_ext))
                two_beacons.
Proof.
  destruct (C2_sort_order (names := example_names) (ext := example_ext)
              (store := example_store two_beacons) 0 no_params two_beacons
              eq_refl eq_refl)
    as (less & rep & _ & _ & Hget & Hperm & _).
  exists rep. split; [exact Hget | exact Hperm].
Defined.

(** The ascending run of [sort.Sort] on the thirteen beacons: the pivot is
    the median of positions 3, 6 and 9, beacon 3; [partition] moves it to
    the front, exchanges beacons 1 and 6, and puts the pivot at position 1,
    after beacon 6; what is left of the slice has 11 elements and is sorted
    by insertion, which moves nothing. *)
Example thirteen_choosePivot :
  sort.choosePivot (sortWrapper last_updated_less)
    (map (project (names := example_names) (ext := example_ext))
       thirteen_beacons) 0 13
  = Some (3, sort.unknownHint).
Proof. reflexivity. Qed.

Example thirteen_partition :
  (λ r : list Beacon * Z * bool, (map Timestamp r.1.1, r.1.2, r.2))
    <$> sort.partition (sortWrapper last_updated_less)
          (map (project (names := example_names) (ext := example_ext))
             thirteen_beacons) 0 13 3
  = Some ([6; 3; 2; 0; 4; 5; 1; 7; 8; 9; 10; 11; 12], 1, false).
Proof. by vm_compute. Qed.

(** C2, as stated, fails: thirteen beacons whose last_updated keys tie
    (all but beacon 6) are requested sorted by last_updated. Ascending,
    the tied beacons 0, 2, 3 come out in the order 3, 2, 0; descending,
    beacon 1 comes out before beacon 0 while the ascending run has 0
    before 1. *)
Lemma C2_counterexample :
  map stored_LastUpdated thirteen_beacons = [1; 1; 1; 1; 1; 1; 0; 1; 1; 1; 1; 1; 1]
  ∧ map Timestamp
      <$> response_beacons
            (GetBeacons (names := example_names) (ext := example_ext)
               (store := example_store thirteen_beacons) 0 no_params).2
    = Some [6; 3; 2; 0; 4; 5; 1; 7; 8; 9; 10; 11; 12]
  ∧ map Timestamp
      <$> response_beacons
            (GetBeacons (names := example_names) (ext := example_ext)
               (store := example_store thirteen_beacons) 0 desc_params).2
    = Some [9; 1; 2; 3; 4; 5; 7; 8; 0; 10; 11; 12; 6]
  ∧ ∀ rep,
      response_beacons
        (GetBeacons (names := example_names) (ext := example_ext)
           (store := example_store thirteen_beacons) 0 no_params).2
      = Some rep →
      ¬ ties_kept last_updated_less
          (map (project (names := example_names) (ext := example_ext))
             thirteen_beacons) rep.
Proof.
  split_and!; [reflexivity | by vm_compute | by vm_compute |].
  intros rep Hrep Hties. vm_compute in Hrep. injection Hrep as <-.
  specialize (Hties (project (names := example_names) (ext := example_ext)
                       (example_beacon 0 1 []))).
  vm_compute in Hties. discriminate Hties.
Qed.

(** C8 on an ascending request sorted by start_isd_as. *)
Lemma C8_witness :
  ∃ rep,
    GetBeacons (names := example_names) (ext := example_ext)
      (store := example_store two_beacons) 0 (start_isd_as_params None)
    = ([{| SegIDs := []; StartsAt := []; IngressInterfaces := [];
           Usages := []; ValidAt := 0 |}],
       Encoded (BeaconsPayload rep))
    ∧ ∀ (i j : nat) x y,
        rep !! i = Some x → rep !! j = Some y → Hops x = [] → Hops y ≠ [] →
        (i < j)%nat.
Proof.
  destruct (C8_zero_hops_by_direction (names := example_names)
              (ext := example_ext) (store := example_store two_beacons)
              0 (start_isd_as_params None) two_beacons eq_refl eq_refl eq_refl)
    as (rep & Hget & _ & Hord).
  exists rep. split; [exact Hget | exact Hord].
Defined.

(** C8, as stated, fails: a descending request sorted by start_isd_as,
    answered by the store with a beacon without AS entries and a beacon
    with one, returns the record with zero hops last. *)
Lemma C8_counterexample :
  map (λ b, length (Hops b))
    <$> response_beacons
          (GetBeacons (names := example_names) (ext := example_ext)
             (store := example_store two_beacons) 0
             (start_isd_as_params (Some true))).2
  = Some [1%nat; 0%nat].
Proof. by vm_compute. Qed.

(** C3 on a certificate that expires in three hours: degraded, close to
    expiration. *)
Lemma C3_witness :
  check_Status (signerCheck (ext := example_ext) 0 0 signer_three_hours)
  = Degraded
  ∧ check_Detail (signerCheck (ext := example_ext) 0 0 signer_three_hours)
    = Some "signer certificate is close to expiration".
Proof.
  destruct (C3_signer_check (ext := example_ext)
              (healther := example_healther signer_three_hours
                             trc_found_with_detail (Available, false)) 0 0)
    as [_ Hrules].
  destruct (Hrules signer_three_hours) as (_ & _ & _ & Hclose & _).
  destruct Hclose as (Hs & _ & Hd); [reflexivity..|].
  split; [exact Hs | exact Hd].
Defined.

(** C7 on the flags 1, 2, 4, 8 and the subset Up, Core. *)
Lemma C7_witness :
  UnpackBeaconUsages (names := example_names) 5
  = ["up_registration"; "core_registration"]
  ∧ Usages (GetBeacons_query (names := example_names) (ext := example_ext) 0
              (request_with_usages ["up_registration"; "core_registration"])).1.1
    = [5].
Proof.
  destruct (C7_usage_round_trip (names := example_names) (ext := example_ext)
              example_names_spec true false true false 0) as [Hdecode Hencode].
  split; [exact Hdecode|].
  exact (f_equal (λ r : QueryParams * list error
                        * option (Beacon → Beacon → bool), Usages r.1.1)
           Hencode).
Defined.

(** C9 on a store that holds exactly one beacon. *)
Lemma C9_witness :
  GetBeacon (names := example_names) (ext := example_ext)
    (store := example_store [example_beacon 7 1 one_entry]) "00ff"
  = ([lookup_query [0; 255]],
     Encoded (BeaconPayload
                (project (names := example_names) (ext := example_ext)
                   (example_beacon 7 1 one_entry)))).
Proof.
  destruct (C9_exact_lookup (names := example_names) (ext := example_ext)
              (store := example_store [example_beacon 7 1 one_entry])
              "00ff" [0; 255] [example_beacon 7 1 one_entry] eq_refl eq_refl)
    as (_ & _ & Hone & _).
  exact (Hone (example_beacon 7 1 one_entry) eq_refl eq_refl).
Defined.

(** C10 on a TRC that is found and reported with a not-found detail. *)
Lemma C10_witness :
  check_Status (trcCheck trc_found_with_detail) = Passing
  ∧ check_Detail (trcCheck trc_found_with_detail) = Some "stale".
Proof.
  destruct (C10_trc_detail (ext := example_ext)
              (healther := example_healther signer_three_hours
                             trc_found_with_detail (Available, false)) 0 0)
    as [_ Hdetail].
  destruct (Hdetail trc_found_with_detail) as [Hd Hfound]; [discriminate|].
  destruct (Hfound eq_refl) as [Hs _].
  split; [exact Hs | exact Hd].
Defined.

(** C6 on a request with both the all flag and a validAt instant. *)
Lemma C6_witness :
  ValidAt (GetBeacons_query (names := example_names) (ext := example_ext) 5
             all_and_validAt_params).1.1
  = Time_zero.
Proof.
  destruct (C6_validity_selection (names := example_names) (ext := example_ext)
              (store := example_store []) 5 all_and_validAt_params)
    as (Hall & _).
  exact (Hall eq_refl).
Defined.

(** ** The responses of [GetBeacons] and [GetBeacon] *)

Section Responses.
Context {names : UsageNames} {ext : Collaborators} {store : BeaconStore}.

Lemma GetBeacons_store_error now params err :
  malformed_count params = 0%nat →
  store_GetBeacons (GetBeacons_query now params).1.1 = inr err →
  GetBeacons now params
  = ([(GetBeacons_query now params).1.1],
     ErrorResponse {| problem_Detail := Some (error_Error err);
                      problem_Status := 500;
                      problem_Title := "error getting beacons";
                      problem_Type := Some InternalError |}).
Proof.
  intros Hok Hstore. rewrite <- field_errors_length in Hok.
  rewrite <- (GetBeacons_query_errors now params) in Hok.
  unfold GetBeacons.
  destruct (GetBeacons_query now params) as [[q errs] sortFn]. simpl in *.
  destruct errs; [|done]. simpl. by rewrite Hstore.
Qed.

(** The three ways [GetBeacons] ends. *)
Lemma GetBeacons_cases now params :
  (malformed_count params ≠ 0%nat
   ∧ GetBeacons now params
     = ([], bad_request "malformed query parameters"
              (List_Error (field_errors params))))
  ∨ (malformed_count params = 0%nat
     ∧ ∃ err, store_GetBeacons (GetBeacons_query now params).1.1 = inr err
       ∧ GetBeacons now params
         = ([(GetBeacons_query now params).1.1],
            ErrorResponse {| problem_Detail := Some (error_Error err);
                             problem_Status := 500;
                             problem_Title := "error getting beacons";
                             problem_Type := Some InternalError |}))
  ∨ (malformed_count params = 0%nat
     ∧ ∃ results less rep,
         store_GetBeacons (GetBeacons_query now params).1.1 = inl results
         ∧ sortFactory (param_Sort params) = inl less
         ∧ StrictWeak less
         ∧ sort.Sort (request_sorter less params) (map project results) = Some rep
         ∧ rep ≡ₚ map project results
         ∧ ordered_by (request_less less params) rep
         ∧ ((length results ≤ 12)%nat → ties_kept less (map project results) rep)
         ∧ GetBeacons now params
           = ([(GetBeacons_query now params).1.1], encoded (BeaconsPayload rep))).
Proof.
  destruct (decide (malformed_count params = 0%nat)) as [Hok|Hbad].
  - right.
    destruct (store_GetBeacons (GetBeacons_query now params).1.1)
      as [results|err] eqn:Hstore.
    + right. split; [done|].
      destruct (sortFactory_well_formed params Hok) as [less Hless].
      pose proof (sortFactory_StrictWeak _ _ Hless) as SW.
      destruct (request_sort less params (map project results) SW)
        as (rep & Hsort & Hperm & Hord & Hties).
      exists results, less, rep. split_and!; try done.
      * intros Hlen. apply Hties. by rewrite length_map.
      * by apply (GetBeacons_encoded now params results less rep).
    + left. split; [done|]. exists err. split; [done|].
      by apply GetBeacons_store_error.
  - left. split; [done|]. by apply GetBeacons_malformed.
Qed.


(** X2: a problem answered by [GetBeacons] has status 400 exactly when a
    parameter of the request is malformed, and status 500 exactly when
    the request is well formed (the store or the encoder failed); its
    type is bad-request exactly with status 400, and it always carries a
    detail. *)
Theorem GetBeacons_problem_status now params p :
  (GetBeacons now params).2 = ErrorResponse p →
  (problem_Status p = 400 ↔ malformed_count params ≠ 0%nat)
  ∧ (problem_Status p = 500 ↔ malformed_count params = 0%nat)
  ∧ (problem_Type p = Some BadRequest ↔ problem_Status p = 400)
  ∧ (problem_Type p = Some InternalError ↔ problem_Status p = 500)
  ∧ is_Some (problem_Detail p).
Proof.
  destruct (GetBeacons_cases now params)
    as [[Hbad ->]|[(Hok & err & _ & ->)|(Hok & results & less & rep & H)]].
  - simpl. intros [= <-]. simpl. split_and!; try (split; intros; done). eauto.
  - simpl. intros [= <-]. simpl. split_and!; try (split; intros; done). eauto.
  - destruct H as (_ & _ & _ & _ & _ & _ & _ & ->). simpl. unfold encoded.
    destruct (json_Encode _); [|done]. intros [= <-]. simpl.
    split_and!; try (split; intros; done). eauto.
Qed.

(** X3: the store never sees a truncated ingress interface. The query
    [GetBeacons] builds holds the supplied value converted to uint16, but
    a query that reaches the store holds the value as supplied: a value
    the conversion would change is out of range, and the request is
    answered without a query. *)
Theorem GetBeacons_ingress_interface_exact now params v q :
  param_IngressInterface params = Some v →
  q ∈ (GetBeacons now params).1 →
  IngressInterfaces q = [v] ∧ 0 ≤ v ≤ 65535.
Proof.
  intros Hv Hq.
  assert (Hif : IngressInterfaces (GetBeacons_query now params).1.1 = [uint16 v]).
  { unfold GetBeacons_query. rewrite Hv. repeat case_match; reflexivity. }
  assert (Hrange : malformed_count params = 0%nat → 0 ≤ v ≤ 65535).
  { unfold malformed_count. rewrite Hv. case_bool_decide; [done|lia]. }
  assert (Hok : malformed_count params = 0%nat
                ∧ q = (GetBeacons_query now params).1.1).
  { destruct (GetBeacons_cases now params)
      as [[_ E]|[(Hok & err & _ & E)|(Hok & results & less & rep & H)]].
    - rewrite E in Hq. by apply elem_of_nil in Hq.
    - rewrite E in Hq. by apply list_elem_of_singleton in Hq.
    - destruct H as (_ & _ & _ & _ & _ & _ & _ & E). rewrite E in Hq.
      by apply list_elem_of_singleton in Hq. }
  destruct Hok as [Hok ->]. specialize (Hrange Hok).
  split; [|done]. rewrite Hif. unfold uint16. f_equal. apply Z.mod_small. lia.
Qed.

(** X4: [GetBeacons] never filters on segment identifiers, and each
    predicate of its query has an element only for a supplied parameter.
    A supplied usages parameter always gives exactly one usage mask, also
    when the list of tokens is empty (the mask is then 0). *)
Theorem GetBeacons_query_shape now params :
  let q := (GetBeacons_query now params).1.1 in
  SegIDs q = []
  ∧ (param_StartIsdAs params = None → StartsAt q = [])
  ∧ (length (StartsAt q) ≤ 1)%nat
  ∧ length (Usages q) = (if param_Usages params is Some _ then 1 else 0)%nat
  ∧ (param_Usages params = Some [] → Usages q = [0])
  ∧ length (IngressInterfaces q)
    = (if param_IngressInterface params is Some _ then 1 else 0)%nat.
Proof.
  cbv zeta. unfold GetBeacons_query.
  destruct (sortFactory (param_Sort params));
    destruct (param_StartIsdAs params) as [s|]; try destruct (addr_ParseIA s);
    destruct (param_Usages params) as [flags|];
    try match goal with
        | |- context [fold_left usage_step flags ?s] =>
            destruct (fold_left usage_step flags s) eqn:Hfold
        end;
    destruct (param_IngressInterface params); simpl;
    split_and!; try done; try lia;
    intros [= ->]; simpl in Hfold; congruence.
Qed.
End Responses.

(** X2 on the request with four malformed parameters. *)
Lemma GetBeacons_problem_status_witness :
  problem_Status
    {| problem_Detail := Some "4 errors"; problem_Status := 400;
       problem_Title := "malformed query parameters";
       problem_Type := Some BadRequest |} = 400
  ↔ malformed_count (names := example_names) (ext := example_ext) bad_params
    ≠ 0%nat.
Proof.
  exact (proj1 (GetBeacons_problem_status (names := example_names)
                  (ext := example_ext) (store := example_store [])
                  0 bad_params _ eq_refl)).
Defined.

(** X3 on a request for ingress interface 7. *)
Lemma GetBeacons_ingress_interface_exact_witness :
  IngressInterfaces
    {| SegIDs := []; StartsAt := []; IngressInterfaces := [7];
       Usages := []; ValidAt := 0 |} = [7]
  ∧ 0 ≤ 7 ≤ 65535.
Proof.
  apply (GetBeacons_ingress_interface_exact (names := example_names)
           (ext := example_ext) (store := example_store [])
           0 (ingress_params 7) 7).
  - reflexivity.
  - vm_compute. left.
Defined.

(** ** The usage mask of a request *)

Lemma fold_lor_testbit (l : list Z) : ∀ u n,
  Z.testbit (fold_left Z.lor l u) n
  = Z.testbit u n || existsb (λ x, Z.testbit x n) l.
Proof.
  induction l as [|x l IH]; intros u n; simpl.
  - by rewrite orb_false_r.
  - by rewrite IH, Z.lor_spec, orb_assoc.
Qed.

Lemma fold_lor_same_elements (l l' : list Z) u :
  (∀ x, x ∈ l ↔ x ∈ l') → fold_left Z.lor l u = fold_left Z.lor l' u.
Proof.
  intros Hset. apply Z.bits_inj'. intros n _. rewrite !fold_lor_testbit.
  f_equal. apply eq_true_iff_eq. rewrite !existsb_exists.
  split; intros (x & Hx & Hn); exists x; (split; [|done]);
    apply list_elem_of_In; apply Hset; by apply list_elem_of_In.
Qed.

Section UsageMask.
Context {names : UsageNames} {ext : Collaborators}.

Lemma usage_step_flag u errs t :
  (usage_step (u, errs) t).1 = Z.lor u (usage_flag t).
Proof.
  unfold usage_step, usage_flag.
  repeat case_match; simpl; try reflexivity. by rewrite Z.lor_0_r.
Qed.

Lemma usage_fold_flag flags : ∀ u errs,
  (fold_left usage_step flags (u, errs)).1
  = fold_left Z.lor (map usage_flag flags) u.
Proof.
  induction flags as [|t flags IH]; intros u errs; cbn [fold_left map]; [done|].
  destruct (usage_step (u, errs) t) as [u' errs'] eqn:Hstep.
  rewrite IH. f_equal. pose proof (usage_step_flag u errs t) as Hf.
  by rewrite Hstep in Hf.
Qed.

Lemma GetBeacons_query_Usages now params :
  Usages (GetBeacons_query now params).1.1
  = match param_Usages params with
    | Some flags => [fold_left Z.lor (map usage_flag flags) 0]
    | None => []
    end.
Proof.
  unfold GetBeacons_query.
  destruct (sortFactory (param_Sort params));
    destruct (param_StartIsdAs params) as [s|]; try destruct (addr_ParseIA s);
    destruct (param_Usages params) as [flags|];
    try (match goal with
         | |- context [fold_left usage_step flags (0, ?e)] =>
             pose proof (usage_fold_flag flags 0 e) as Hf;
             destruct (fold_left usage_step flags (0, e))
         end; simpl in Hf; subst);
    destruct (param_IngressInterface params); reflexivity.
Qed.

(** X5: the usage mask of the query depends only on which tokens the
    request names: two requests whose usages parameters hold the same
    tokens, in any order and any number of times, ask the store for the
    same mask. (Unknown tokens add no bit; they make the request
    malformed.) *)
Theorem GetBeacons_usages_set now params params' flags flags' :
  param_Usages params = Some flags →
  param_Usages params' = Some flags' →
  (∀ t, t ∈ flags ↔ t ∈ flags') →
  Usages (GetBeacons_query now params).1.1
  = Usages (GetBeacons_query now params').1.1.
Proof.
  intros Hp Hp' Hset. rewrite !GetBeacons_query_Usages, Hp, Hp'. f_equal.
  apply fold_lor_same_elements. intros x. rewrite !list_elem_of_fmap.
  split; intros (t & -> & Ht); exists t; (split; [done|]); by apply Hset.
Qed.

(** ** The hops of a beacon *)

Lemma hops_from_later entries : ∀ i, 0 < i →
  hops_from i entries = flat_map (λ e, [ingress_hop e; egress_hop e]) entries.
Proof.
  induction entries as [|e entries IH]; intros i Hi; simpl; [done|].
  destruct (Z.eqb_spec i 0); [lia|]. simpl. rewrite IH by lia. reflexivity.
Qed.

Lemma hops_from_first entries :
  hops_from 0 entries
  = drop 1 (flat_map (λ e, [ingress_hop e; egress_hop e]) entries).
Proof.
  destruct entries as [|e entries]; simpl; [done|].
  rewrite hops_from_later by lia. reflexivity.
Qed.

(** X6: the hops of a beacon are the ingress and the egress hop of each
    AS entry of its segment, in the order of the entries, without the
    ingress hop of the first entry; both hops of an entry carry the
    ISD-AS of the entry. *)
Theorem project_hops_interleaved result :
  Hops (project result)
  = drop 1 (flat_map (λ e, [ingress_hop e; egress_hop e])
              (ASEntries (Segment result)))
  ∧ map IsdAs (Hops (project result))
    = drop 1 (flat_map (λ e, [IA_String (Local e); IA_String (Local e)])
                (ASEntries (Segment result))).
Proof.
  unfold project. cbn [Hops]. rewrite hops_from_first. split; [done|].
  rewrite <- !skipn_map. f_equal.
  induction (ASEntries (Segment result)) as [|e l IH]; simpl; [done|].
  by rewrite IH.
Qed.

(** X7: a segment of n AS entries gives 2n - 1 hops when n is at least
    1 and no hop when n is 0; so a beacon has zero hops exactly when its
    segment has no AS entry, and never an even number of hops other than
    zero. *)
Theorem project_hops_count result :
  length (Hops (project result))
  = (2 * length (ASEntries (Segment result)) - 1)%nat
  ∧ (Hops (project result) = [] ↔ ASEntries (Segment result) = []).
Proof.
  unfold project. cbn [Hops]. rewrite hops_from_first.
  assert (Hlen : ∀ l : list ASEntry,
            length (flat_map (λ e, [ingress_hop e; egress_hop e]) l)
            = (2 * length l)%nat).
  { induction l as [|e l IH]; simpl; [done|]. rewrite IH. lia. }
  split.
  - rewrite length_drop, Hlen. reflexivity.
  - destruct (ASEntries (Segment result)) as [|e l]; simpl; [done|].
    split; [|done]. destruct l; simpl; discriminate.
Qed.
End UsageMask.

(** X5 on the tokens up, core and core, up, up. *)
Lemma GetBeacons_usages_set_witness :
  Usages (GetBeacons_query (names := example_names) (ext := example_ext) 0
            (request_with_usages ["up_registration"; "core_registration"])).1.1
  = Usages (GetBeacons_query (names := example_names) (ext := example_ext) 0
              (request_with_usages
                 ["core_registration"; "up_registration"; "up_registration"])).1.1.
Proof.
  apply (GetBeacons_usages_set (names := example_names) (ext := example_ext) 0
           (request_with_usages ["up_registration"; "core_registration"])
           (request_with_usages
              ["core_registration"; "up_registration"; "up_registration"])
           ["up_registration"; "core_registration"]
           ["core_registration"; "up_registration"; "up_registration"]
           eq_refl eq_refl).
  intros t. rewrite !elem_of_cons, !elem_of_nil. tauto.
Defined.

(** ** The order of the beacons in a response *)

Lemma sortFactory_sort_key sortParam key :
  sort_key (default "last_updated" sortParam) = Some key →
  sortFactory sortParam = inl (λ a b, key a <? key b).
Proof.
  unfold sort_key, sortFactory. destruct sortParam as [k|]; simpl.
  - repeat match goal with
           | |- context [String.eqb k ?s] => destruct (String.eqb_spec k s) as [->|?]
           end; simpl; try discriminate; intros [= <-]; reflexivity.
  - intros [= <-]. reflexivity.
Qed.

(** A list in order in which ties stand as in [l] is [l] itself, if [l]
    is in order. *)
Lemma ordered_ties_unique {A} (lt : A → A → bool) (SW : StrictWeak lt)
    (l : list A) : ∀ l',
  l' ≡ₚ l → ordered_by lt l → ordered_by lt l' → ties_kept lt l l' → l' = l.
Proof.
  induction l as [|x t IH]; intros l' Hperm Hl Hl' Hties.
  { by apply Permutation_nil_r in Hperm. }
  destruct l' as [|y t'].
  { by apply Permutation_nil_cons in Hperm. }
  assert (Hyx : lt y x = false).
  { assert (Hy : y ∈ x :: t) by (rewrite <- Hperm; left).
    apply elem_of_cons in Hy as [->|Hy]; [apply lt_irrefl|].
    apply list_elem_of_lookup in Hy as [j Hj].
    by apply (Hl 0%nat (S j) x y ltac:(lia)). }
  assert (Hxy : lt x y = false).
  { assert (Hx : x ∈ y :: t') by (rewrite Hperm; left).
    apply elem_of_cons in Hx as [->|Hx]; [apply lt_irrefl|].
    apply list_elem_of_lookup in Hx as [j Hj].
    by apply (Hl' 0%nat (S j) y x ltac:(lia)). }
  assert (y = x) as ->.
  { pose proof (Hties x) as Hx.
    rewrite (filter_cons_True (tied lt x) y t'),
            (filter_cons_True (tied lt x) x t) in Hx
      by (split; (done || apply lt_irrefl)).
    congruence. }
  f_equal. apply IH.
  - by apply Permutation_cons_inv in Hperm.
  - intros i j a b Hij Ha Hb. by apply (Hl (S i) (S j) a b ltac:(lia)).
  - intros i j a b Hij Ha Hb. by apply (Hl' (S i) (S j) a b ltac:(lia)).
  - intros z. pose proof (Hties z) as Hz.
    destruct (decide (tied lt z x)) as [Hzx|Hzx].
    + rewrite !filter_cons_True in Hz by done. congruence.
    + rewrite !filter_cons_False in Hz by done. done.
Qed.

Section Order.
Context {names : UsageNames} {ext : Collaborators} {store : BeaconStore}.

Lemma GetBeacons_Encoded_inv now params rep :
  (GetBeacons now params).2 = Encoded (BeaconsPayload rep) →
  ∃ results less,
    sortFactory (param_Sort params) = inl less
    ∧ rep ≡ₚ map project results
    ∧ ordered_by (request_less less params) rep.
Proof.
  destruct (GetBeacons_cases now params)
    as [[_ ->]|[(_ & err & _ & ->)|(_ & results & less & rep' & H)]];
    try discriminate.
  destruct H as (_ & Hless & _ & _ & Hperm & Hord & _ & ->). simpl.
  unfold encoded. destruct (json_Encode _); [discriminate|].
  intros [= <-]. eauto.
Qed.

(** X8: the beacons of a response are in the order of the field the sort
    parameter names (expiration_time, info_time, last_updated or
    ingress_interface; last_updated when the parameter is absent): never
    decreasing along the response of an ascending request, never
    increasing along the response of a descending one. *)
Theorem GetBeacons_ordered_by_key now params key rep :
  sort_key (default "last_updated" (param_Sort params)) = Some key →
  (GetBeacons now params).2 = Encoded (BeaconsPayload rep) →
  ∀ (i j : nat) x y, (i < j)%nat → rep !! i = Some x → rep !! j = Some y →
    if descending params then key y ≤ key x else key x ≤ key y.
Proof.
  intros Hkey Hrep i j x y Hij Hx Hy.
  apply GetBeacons_Encoded_inv in Hrep as (results & less & Hless & _ & Hord).
  rewrite (sortFactory_sort_key _ _ Hkey) in Hless. injection Hless as <-.
  specialize (Hord i j x y Hij Hx Hy). unfold request_less in Hord.
  destruct (descending params); apply Z.ltb_ge in Hord; done.
Qed.

(** X9: an answer of the store of at most 12 records that already is in
    the requested order is returned as it is: [sort.Sort] then sorts by
    insertion, which moves no record. *)
Theorem GetBeacons_keeps_ordered_answer now params results less :
  malformed_count params = 0%nat →
  store_GetBeacons (GetBeacons_query now params).1.1 = inl results →
  sortFactory (param_Sort params) = inl less →
  (length results ≤ 12)%nat →
  ordered_by (request_less less params) (map project results) →
  GetBeacons now params
  = ([(GetBeacons_query now params).1.1],
     encoded (BeaconsPayload (map project results))).
Proof.
  intros Hok Hstore Hless Hlen Hord.
  pose proof (sortFactory_StrictWeak _ _ Hless) as SW.
  destruct (request_sort less params (map project results) SW)
    as (rep & Hsort & Hperm & Hord' & Hties).
  rewrite length_map in Hties. specialize (Hties Hlen).
  assert (rep = map project results) as Heq.
  { unfold request_less in *. destruct (descending params).
    - apply (ordered_ties_unique (λ a b, less b a)); try done.
      + by apply StrictWeak_flip.
      + by apply (ties_kept_flip (λ a b, less b a)).
    - by apply (ordered_ties_unique less). }
  rewrite <- Heq.
  by apply (GetBeacons_encoded now params results less rep).
Qed.
End Order.

(** X8 on the two beacons of the example store, sorted by ingress
    interface. *)
Lemma GetBeacons_ordered_by_key_witness :
  IngressInterface
    (project (names := example_names) (ext := example_ext)
       (example_beacon 0 0 []))
  ≤ IngressInterface
      (project (names := example_names) (ext := example_ext)
         (example_beacon 1 0 one_entry)).
Proof.
  apply (GetBeacons_ordered_by_key (names := example_names)
           (ext := example_ext) (store := example_store two_beacons) 0
           {| param_StartIsdAs := None; param_Usages := None;
              param_IngressInterface := None; param_All := None;
              param_ValidAt := None; param_Sort := Some "ingress_interface";
              param_Desc := None |}
           IngressInterface
           (map (project (names := example_names) (ext := example_ext))
              two_beacons)
           eq_refl eq_refl 0%nat 1%nat); [lia | reflexivity | reflexivity].
Defined.

(** X9 on the two beacons of the example store, which tie on
    last_updated. *)
Lemma GetBeacons_keeps_ordered_answer_witness :
  GetBeacons (names := example_names) (ext := example_ext)
    (store := example_store two_beacons) 0 no_params
  = ([{| SegIDs := []; StartsAt := []; IngressInterfaces := [];
         Usages := []; ValidAt := 0 |}],
     Encoded (BeaconsPayload
                (map (project (names := example_names) (ext := example_ext))
                   two_beacons))).
Proof.
  apply (GetBeacons_keeps_ordered_answer (names := example_names)
           (ext := example_ext) (store := example_store two_beacons)
           0 no_params two_beacons last_updated_less eq_refl eq_refl eq_refl).
  - simpl. lia.
  - intros [|[|i]] [|[|[|j]]] x y Hij Hx Hy; simpl in *; simplify_eq;
      try lia; reflexivity.
Defined.

(** ** The segment identifier of a lookup *)

Lemma fromHexChar_spec c :
  match fromHexChar c with
  | Some a => hex_digit c ∧ 0 ≤ a ≤ 15
  | None => ¬ hex_digit c
  end.
Proof.
  unfold fromHexChar, hex_digit. cbv zeta.
  generalize (Z.of_nat (nat_of_ascii c)). intros n.
  destruct (Z.leb_spec 48 n), (Z.leb_spec n 57), (Z.leb_spec 97 n),
    (Z.leb_spec n 102), (Z.leb_spec 65 n), (Z.leb_spec n 70); simpl; lia.
Qed.

Lemma hex_byte_range a b :
  0 ≤ a ≤ 15 → 0 ≤ b ≤ 15 → 0 ≤ Z.lor (Z.shiftl a 4) b ≤ 255.
Proof.
  intros Ha Hb.
  assert (Ha' : a ∈ seqZ 0 16) by (apply elem_of_seqZ; lia).
  assert (Hb' : b ∈ seqZ 0 16) by (apply elem_of_seqZ; lia).
  clear Ha Hb. vm_compute in Ha', Hb'.
  repeat (apply elem_of_cons in Ha' as [->|Ha']);
    [..|by apply elem_of_nil in Ha'];
    repeat (apply elem_of_cons in Hb' as [->|Hb']);
    try (by apply elem_of_nil in Hb'); vm_compute; split; discriminate.
Qed.

Lemma hex_Decode_pairs s :
  (match hex_Decode s with
   | (id, None) =>
       (Nat.Even (String.length s) ∧ Forall hex_digit (list_ascii_of_string s))
       ∧ (2 * length id)%nat = String.length s
       ∧ Forall (λ b, 0 ≤ b ≤ 255) id
   | (_, Some _) =>
       ¬ (Nat.Even (String.length s) ∧ Forall hex_digit (list_ascii_of_string s))
   end)
  ∧ ∀ c,
    match hex_Decode (String c s) with
    | (id, None) =>
        (Nat.Even (String.length (String c s))
         ∧ Forall hex_digit (list_ascii_of_string (String c s)))
        ∧ (2 * length id)%nat = String.length (String c s)
        ∧ Forall (λ b, 0 ≤ b ≤ 255) id
    | (_, Some _) =>
        ¬ (Nat.Even (String.length (String c s))
           ∧ Forall hex_digit (list_ascii_of_string (String c s)))
    end.
Proof.
  induction s as [|d s [IH0 IH1]].
  - split.
    + simpl. split_and!; [by exists 0%nat|constructor|done|constructor].
    + intros c. simpl. pose proof (fromHexChar_spec c) as Hc.
      destruct (fromHexChar c); intros [[k Hk] _]; lia.
  - split; [apply IH1|]. intros c.
    cbn [hex_Decode String.length list_ascii_of_string].
    pose proof (fromHexChar_spec c) as Hc. pose proof (fromHexChar_spec d) as Hd.
    destruct (fromHexChar c) as [a|];
      [|rewrite !Forall_cons; tauto].
    destruct (fromHexChar d) as [b|];
      [|rewrite !Forall_cons; tauto].
    destruct (hex_Decode s) as [dst [err|]];
      rewrite Nat.Even_succ_succ, !Forall_cons; [tauto|].
    destruct IH0 as ((He & Hf) & Hl & Hb), Hc as [Hc Ha], Hd as [Hd Hb'].
    split_and!; try done; try (by apply hex_byte_range); simpl; lia.
Qed.

Section Identifier.
Context {names : UsageNames} {ext : Collaborators} {store : BeaconStore}.

(** X10: [GetBeacon] queries the store exactly when the segment
    identifier is a string of hexadecimal digits (of either case) of even
    length; the identifier of the query then has half as many bytes as
    the string has characters, each between 0 and 255. Any other
    identifier is answered with the 400 problem "error decoding segment
    id" and never reaches the store. *)
Theorem GetBeacon_queries_iff_hex segmentId :
  ((GetBeacon segmentId).1 ≠ []
   ↔ Nat.Even (String.length segmentId)
     ∧ Forall hex_digit (list_ascii_of_string segmentId))
  ∧ (∀ q, q ∈ (GetBeacon segmentId).1 →
       ∃ id, q = lookup_query id
             ∧ (2 * length id)%nat = String.length segmentId
             ∧ Forall (λ b, 0 ≤ b ≤ 255) id)
  ∧ ((GetBeacon segmentId).1 = [] →
       ∃ err, (GetBeacon segmentId).2
              = bad_request "error decoding segment id" (error_Error err)).
Proof.
  pose proof (proj1 (hex_Decode_pairs segmentId)) as Hhex.
  assert (Hq : ∀ id, hex_DecodeString segmentId = (id, None) →
                (GetBeacon segmentId).1 = [lookup_query id]).
  { intros id Hid. unfold GetBeacon. rewrite Hid. fold (lookup_query id).
    repeat case_match; reflexivity. }
  unfold hex_DecodeString in Hq.
  destruct (hex_Decode segmentId) as [id [err|]] eqn:Hdec.
  - assert (Hnone : GetBeacon segmentId
                    = ([], bad_request "error decoding segment id"
                             (error_Error err))).
    { unfold GetBeacon, hex_DecodeString. by rewrite Hdec. }
    rewrite Hnone. simpl. split_and!; [done| |by eauto].
    intros q Hin. by apply elem_of_nil in Hin.
  - rewrite (Hq id eq_refl). destruct Hhex as (Hs & Hl & Hb).
    split_and!; [done| |done].
    intros q ->%list_elem_of_singleton. eauto.
Qed.

End Identifier.

(** ** The checks of the health report *)

Section Checks.
Context {ext : Collaborators} {healther : Healther}.

Lemma signerCheck_Name now1 now2 h :
  check_Name (signerCheck now1 now2 h) = "valid signer available".
Proof. unfold signerCheck. repeat case_match; reflexivity. Qed.

Lemma trcCheck_Name d : check_Name (trcCheck d) = "TRC for local ISD available".
Proof. unfold trcCheck. case_match; reflexivity. Qed.

(** X12: the checks of a health report have pairwise different names:
    "valid signer available", "TRC for local ISD available" and, when
    there is a CA check, "CPPKI CA Connection". *)
Theorem GetHealth_check_names_distinct now1 now2 :
  NoDup (map check_Name (GetHealth_checks now1 now2))
  ∧ ∀ c, c ∈ GetHealth_checks now1 now2 →
      check_Name c ∈ ["valid signer available"; "TRC for local ISD available";
                      "CPPKI CA Connection"].
Proof.
  unfold GetHealth_checks.
  destruct GetCAHealth as [status []]; simpl;
    rewrite signerCheck_Name, trcCheck_Name.
  - split; [compute_done|]. intros c. rewrite !elem_of_cons, elem_of_nil.
    intros [->|[->|[->|[]]]];
      rewrite ?signerCheck_Name, ?trcCheck_Name; simpl; tauto.
  - split; [compute_done|]. intros c. rewrite !elem_of_cons, elem_of_nil.
    intros [->|[->|[]]]; rewrite ?signerCheck_Name, ?trcCheck_Name; tauto.
Qed.

(** X13: the status of the signer check, rule by rule read backwards: it
    is Failing exactly when the signer is missing or its certificate
    expires at or before the first clock reading; Passing exactly when
    the signer is there, not expired, not authenticated by a TRC in its
    grace period, and expires at least 6 hours after the second clock
    reading; Degraded in every other case. *)
Theorem signerCheck_status_iff now1 now2 h :
  let c := signerCheck now1 now2 h in
  (check_Status c = Failing
   ↔ SignerMissing h = true ∨ signer_Expiration h ≤ now1)
  ∧ (check_Status c = Passing
     ↔ SignerMissing h = false ∧ now1 < signer_Expiration h
       ∧ InGrace h = false ∧ 6 * Hour ≤ signer_Expiration h - now2)
  ∧ (check_Status c = Degraded
     ↔ SignerMissing h = false ∧ now1 < signer_Expiration h
       ∧ (InGrace h = true ∨ signer_Expiration h - now2 < 6 * Hour)).
Proof.
  cbv zeta. unfold signerCheck.
  rewrite time_Until_expired, time_Until_close.
  destruct (SignerMissing h), (InGrace h); repeat case_bool_decide; simpl;
    split_and!; split; try done; try lia; intros; try intuition (done || lia).
Qed.

(** X14: the data of the signer check: it is empty exactly when the
    signer is missing; otherwise "expires_at" holds the formatted
    expiration; the only other key it ever has is "in_grace", whose value
    is never false and which stands only in a Degraded check. *)
Theorem signerCheck_data now1 now2 h :
  let c := signerCheck now1 now2 h in
  (check_Data c = ∅ ↔ SignerMissing h = true)
  ∧ (SignerMissing h = false →
     check_Data c !! "expires_at"
     = Some (DString (Format_RFC3339 (signer_Expiration h))))
  ∧ (∀ k, is_Some (check_Data c !! k) → k = "expires_at" ∨ k = "in_grace")
  ∧ (∀ v, check_Data c !! "in_grace" = Some v →
       v = DBool true ∧ check_Status c = Degraded ∧ InGrace h = true).
Proof.
  cbv zeta. unfold signerCheck.
  destruct (SignerMissing h); [|destruct (_ <=? 0); [|destruct (InGrace h);
    [|destruct (_ <? _)]]]; simpl.
  - split_and!; try done; intros ? Hv; try destruct Hv as [? Hv];
      by rewrite lookup_empty in Hv.
  - split_and!.
    + split; [|done]. intros E. by apply map_non_empty_singleton in E.
    + intros _. apply lookup_singleton_eq.
    + intros k [v [-> _]%lookup_singleton_Some]. by left.
    + intros v [? _]%lookup_singleton_Some. done.
  - split_and!.
    + split; [|done]. intros E. by apply insert_non_empty in E.
    + intros _. by rewrite lookup_insert_ne, lookup_singleton_eq.
    + intros k [v Hv]. apply lookup_insert_Some in Hv as [[-> _]|[_ Hv]];
        [by right|]. apply lookup_singleton_Some in Hv as [-> _]. by left.
    + intros v Hv. rewrite lookup_insert_eq in Hv. by injection Hv as <-.
  - split_and!.
    + split; [|done]. intros E. by apply map_non_empty_singleton in E.
    + intros _. apply lookup_singleton_eq.
    + intros k [v [-> _]%lookup_singleton_Some]. by left.
    + intros v [? _]%lookup_singleton_Some. done.
  - split_and!.
    + split; [|done]. intros E. by apply map_non_empty_singleton in E.
    + intros _. apply lookup_singleton_eq.
    + intros k [v [-> _]%lookup_singleton_Some]. by left.
    + intros v [? _]%lookup_singleton_Some. done.
Qed.

(** X15: the signer check never gets healthier as time passes: with both
    clock readings later, the status of the check on the same signer
    facts is at least as severe. *)
Theorem signerCheck_monotone now1 now2 now1' now2' h :
  now1 ≤ now1' → now2 ≤ now2' →
  (severity (check_Status (signerCheck now1 now2 h))
   ≤ severity (check_Status (signerCheck now1' now2' h)))%nat.
Proof.
  intros H1 H2. unfold signerCheck.
  rewrite !time_Until_expired, !time_Until_close.
  destruct (SignerMissing h), (InGrace h); repeat case_bool_decide; simpl; lia.
Qed.

(** X16: the trust-root check is Failing exactly when the TRC was not
    found and Passing otherwise, never Degraded; it has data exactly when
    the TRC was found; and it has a detail exactly when the probe gives a
    non-empty one, whatever the status. *)
Theorem trcCheck_status_iff d :
  (check_Status (trcCheck d) = Failing ↔ TRCNotFound d = true)
  ∧ (check_Status (trcCheck d) = Passing ↔ TRCNotFound d = false)
  ∧ check_Status (trcCheck d) ≠ Degraded
  ∧ (check_Data (trcCheck d) = ∅ ↔ TRCNotFound d = true)
  ∧ (check_Detail (trcCheck d) = None ↔ TRCNotFoundDetail d = "").
Proof.
  unfold trcCheck.
  destruct (StringRef_nonempty_spec (TRCNotFoundDetail d)) as [He Hn].
  assert (Hd : StringRef_nonempty (TRCNotFoundDetail d) = None
               ↔ TRCNotFoundDetail d = "").
  { split; [|done]. intros E. destruct (decide (TRCNotFoundDetail d = ""));
      [done|]. rewrite Hn in E; done. }
  destruct (TRCNotFound d); simpl; split_and!; done.
Qed.
End Checks.

(** X15 on the certificate that expires in three hours, seen at instant 0
    and one hour before it expires. *)
Lemma signerCheck_monotone_witness :
  (severity (check_Status (signerCheck (ext := example_ext) 0%Z 0%Z
                             signer_three_hours))
   ≤ severity (check_Status (signerCheck (ext := example_ext)
                               (2 * Hour)%Z (2 * Hour)%Z
                               signer_three_hours)))%nat.
Proof.
  apply (signerCheck_monotone (ext := example_ext) 0 0 (2 * Hour) (2 * Hour)
           signer_three_hours); vm_compute; discriminate.
Defined.

(** ** The handlers that answer with a status or with a blob *)

Lemma ErrorResponse_inj w p p' :
  Writer.ErrorResponse w p = Writer.ErrorResponse w p' → p = p'.
Proof.
  unfold Writer.ErrorResponse. rewrite <- !app_assoc. intros E.
  apply app_inv_head in E. simpl in E. congruence.
Qed.

Lemma ErrorResponse_not_Write w p b :
  Writer.ErrorResponse w p ≠ w ++ [Writer.Write b].
Proof.
  unfold Writer.ErrorResponse. rewrite <- !app_assoc. intros E.
  apply app_inv_head in E. discriminate.
Qed.

Lemma ErrorResponse_not_WriteHeader w p s :
  Writer.ErrorResponse w p ≠ w ++ [Writer.WriteHeader s].
Proof.
  unfold Writer.ErrorResponse. rewrite <- !app_assoc. intros E.
  apply app_inv_head in E. discriminate.
Qed.

Lemma lookup_problem_title p :
  lookup_problem p →
  problem_Title p ≠ "unable to marshal response"
  ∧ problem_Title p ≠ "unable to marshal beacon".
Proof.
  unfold lookup_problem. rewrite !elem_of_cons, elem_of_nil.
  intros [->|[->|[->|[]]]]; split; discriminate.
Qed.

Section Delete.
Context {names : UsageNames} {ext : Collaborators} {store : BeaconStore}
        {deleter : Writer.BeaconDeleter}.

(** X17: [DeleteBeacon] asks the store to delete the segment identifier
    as it was passed, unless it is empty: the identifier is not decoded,
    so an identifier that [GetBeacon] rejects as not hexadecimal without
    a query still reaches the store here. The handler answers with
    [WriteHeader(204)] alone, no header set and no body, exactly when the
    identifier is not empty and the store reports no error; an empty
    identifier is answered with a 400 problem without detail and without
    a call of the store. *)
Theorem DeleteBeacon_outcomes w segmentId :
  (segmentId = "" →
     Writer.DeleteBeacon w segmentId
     = ([], Writer.ErrorResponse w
              {| problem_Detail := None; problem_Status := 400;
                 problem_Title := "segment ID is required";
                 problem_Type := Some BadRequest |}))
  ∧ (segmentId ≠ "" → (Writer.DeleteBeacon w segmentId).1 = [segmentId])
  ∧ ((Writer.DeleteBeacon w segmentId).2 = w ++ [Writer.WriteHeader 204]
     ↔ segmentId ≠ "" ∧ Writer.store_DeleteBeacon segmentId = None)
  ∧ (is_Some (hex_DecodeString segmentId).2 →
     (GetBeacon segmentId).1 = []
     ∧ (Writer.DeleteBeacon w segmentId).1 = [segmentId]).
Proof.
  unfold Writer.DeleteBeacon.
  destruct (String.eqb_spec segmentId "") as [->|Hne].
  - split_and!; try done.
    + split; [|by intros []]. intros E. by apply ErrorResponse_not_WriteHeader in E.
    + simpl. by intros [? ?].
  - split_and!; try done.
    + by destruct (Writer.store_DeleteBeacon segmentId).
    + destruct (Writer.store_DeleteBeacon segmentId); simpl.
      * split; [|by intros [_ ?]]. intros E.
        by apply ErrorResponse_not_WriteHeader in E.
      * done.
    + intros [err Herr]. split.
      * unfold GetBeacon. destruct (hex_DecodeString segmentId) as [id [e|]];
          [reflexivity | discriminate].
      * by destruct (Writer.store_DeleteBeacon segmentId).
Qed.
End Delete.

Section Blob.
Context {names : UsageNames} {ext : Collaborators} {store : BeaconStore}
        {blob : Writer.BlobCollaborators}.

(** The ways [GetBeaconBlob] ends, beside those of [GetBeacon]. *)
Lemma GetBeaconBlob_cases w segmentId :
  (∃ p, lookup_problem p
        ∧ (GetBeacon segmentId).2 = ErrorResponse p
        ∧ Writer.GetBeaconBlob w segmentId
          = ((GetBeacon segmentId).1,
             Some (Writer.ErrorResponse (pem_writer w) p)))
  ∨ (∃ id result,
       hex_DecodeString segmentId = (id, None)
       ∧ store_GetBeacons (lookup_query id) = inl [result]
       ∧ (GetBeacon segmentId)
         = ([lookup_query id], encoded (BeaconPayload (project result)))
       ∧ ((∃ err, Writer.proto_Marshal (Segment result) = inr err
                  ∧ Writer.GetBeaconBlob w segmentId
                    = ([lookup_query id],
                       Some (Writer.ErrorResponse (pem_writer w)
                               {| problem_Detail := Some (error_Error err);
                                  problem_Status := 500;
                                  problem_Title := "unable to marshal beacon";
                                  problem_Type := Some InternalError |})))
          ∨ (∃ bytes err,
               Writer.proto_Marshal (Segment result) = inl bytes
               ∧ Writer.pem_Encode "PATH SEGMENT" bytes = inr err
               ∧ Writer.GetBeaconBlob w segmentId
                 = ([lookup_query id],
                    Some (Writer.ErrorResponse (pem_writer w)
                            {| problem_Detail := Some (error_Error err);
                               problem_Status := 500;
                               problem_Title := "unable to marshal response";
                               problem_Type := Some InternalError |})))
          ∨ (∃ bytes out,
               Writer.proto_Marshal (Segment result) = inl bytes
               ∧ Writer.pem_Encode "PATH SEGMENT" bytes = inl out
               ∧ Writer.GetBeaconBlob w segmentId
                 = ([lookup_query id],
                    Some (pem_writer w ++ [Writer.Write out]))))).
Proof.
  unfold Writer.GetBeaconBlob, GetBeacon. fold (pem_writer w).
  destruct (hex_DecodeString segmentId) as [id [err|]] eqn:Hhex.
  { left. eexists. split; [|split; reflexivity].
    unfold lookup_problem. simpl. compute_done. }
  fold (lookup_query id).
  destruct (store_GetBeacons (lookup_query id)) as [results|err] eqn:Hstore.
  2:{ left. eexists. split; [|split; reflexivity].
      unfold lookup_problem. simpl. compute_done. }
  destruct results as [|r1 [|r2 rest]].
  - left. simpl. eexists. split; [|split; reflexivity].
    unfold lookup_problem. simpl. compute_done.
  - right. exists id, r1. unfold index. simpl.
    split; [done|]. split; [done|].
    split; [unfold encoded; by destruct (json_Encode _)|].
    destruct (Writer.proto_Marshal (Segment r1)) as [bytes|err];
      [|left; exists err; split; reflexivity].
    right. destruct (Writer.pem_Encode "PATH SEGMENT" bytes) as [out|err] eqn:He;
      [right; exists bytes, out | left; exists bytes, err];
      (split; [reflexivity|]; split; [exact He | reflexivity]).
  - left.
    destruct (Z.eqb_spec (len (r1 :: r2 :: rest)) 0) as [E|_];
      [unfold len in E; simpl in E; lia|].
    destruct (Z.ltb_spec 1 (len (r1 :: r2 :: rest))) as [_|E];
      [|unfold len in E; simpl in E; lia].
    eexists. split; [|split; reflexivity].
    unfold lookup_problem. simpl. compute_done.
Qed.

(** X18: [GetBeaconBlob] looks a beacon up as [GetBeacon] does: both send
    the same queries to the store, and each answers a lookup that fails
    (an identifier that is not hexadecimal, an error of the store, no
    matching record, more than one) with the same problem document. *)
Theorem GetBeaconBlob_agrees_with_GetBeacon w segmentId :
  (Writer.GetBeaconBlob w segmentId).1 = (GetBeacon segmentId).1
  ∧ ∀ p, lookup_problem p →
      ((GetBeacon segmentId).2 = ErrorResponse p
       ↔ (Writer.GetBeaconBlob w segmentId).2
         = Some (Writer.ErrorResponse (pem_writer w) p)).
Proof.
  destruct (GetBeaconBlob_cases w segmentId)
    as [(p0 & Hl & Hg & Hb)|(id & result & Hhex & Hstore & Hg & Hb)].
  - rewrite Hb, Hg. simpl. split; [done|]. intros p _. split.
    + by intros [= ->].
    + intros [= E]. apply ErrorResponse_inj in E. by subst.
  - assert (Hq : (Writer.GetBeaconBlob w segmentId).1 = [lookup_query id]).
    { destruct Hb as [(? & _ & ->)|[(? & ? & _ & _ & ->)|(? & ? & _ & _ & ->)]];
        reflexivity. }
    rewrite Hq, Hg. simpl. split; [done|]. intros p Hp.
    apply lookup_problem_title in Hp as [Hp1 Hp2].
    split.
    + unfold encoded. destruct (json_Encode _); [|discriminate].
      intros [= <-]. by destruct Hp1.
    + destruct Hb as [(? & _ & ->)|[(? & ? & _ & _ & ->)|(? & ? & _ & _ & ->)]];
        simpl; intros [= E].
      * apply ErrorResponse_inj in E. subst p. by destruct Hp2.
      * apply ErrorResponse_inj in E. subst p. by destruct Hp1.
      * symmetry in E. by apply ErrorResponse_not_Write in E.
Qed.

(** X19: [GetBeaconBlob] never panics, and on a fresh writer it ends in
    one of two ways: either it writes one problem document, with the
    status of the problem (400 or 500) passed to [WriteHeader] and the
    content type application/problem+json in place of the
    application/x-pem-file it had set first; or it writes the blob once,
    with content type application/x-pem-file and no call of
    [WriteHeader]. *)
Theorem GetBeaconBlob_outcomes segmentId :
  ∃ w', (Writer.GetBeaconBlob [] segmentId).2 = Some w'
    ∧ ((∃ p, problems_written w' = [p]
             ∧ statuses_written w' = [problem_Status p]
             ∧ (problem_Status p = 400 ∨ problem_Status p = 500)
             ∧ bytes_written w' = []
             ∧ headers_sent ∅ w' !! "Content-Type"
               = Some "application/problem+json")
       ∨ (∃ out, bytes_written w' = [out]
                 ∧ problems_written w' = []
                 ∧ statuses_written w' = []
                 ∧ headers_sent ∅ w' !! "Content-Type"
                   = Some "application/x-pem-file")).
Proof.
  assert (Hp : ∀ p : Problem,
            problem_Status p = 400 ∨ problem_Status p = 500 →
            ∃ w', Some (Writer.ErrorResponse (pem_writer []) p) = Some w'
              ∧ ((∃ p, problems_written w' = [p]
                       ∧ statuses_written w' = [problem_Status p]
                       ∧ (problem_Status p = 400 ∨ problem_Status p = 500)
                       ∧ bytes_written w' = []
                       ∧ headers_sent ∅ w' !! "Content-Type"
                         = Some "application/problem+json")
                 ∨ (∃ out, bytes_written w' = [out]
                           ∧ problems_written w' = []
                           ∧ statuses_written w' = []
                           ∧ headers_sent ∅ w' !! "Content-Type"
                             = Some "application/x-pem-file"))).
  { intros p Hs. eexists. split; [reflexivity|]. left. exists p.
    split_and!; try done. }
  destruct (GetBeaconBlob_cases [] segmentId)
    as [(p0 & Hl & Hg & ->)|(id & result & _ & _ & _ & Hb)].
  - simpl. apply Hp.
    revert Hg. unfold GetBeacon.
    repeat case_match; intros [= <-]; simpl; auto.
  - destruct Hb as [(? & _ & ->)|[(? & ? & _ & _ & ->)|(? & out & _ & _ & ->)]];
      simpl.
    + apply Hp. simpl. auto.
    + apply Hp. simpl. auto.
    + eexists. split; [reflexivity|]. right. exists out. split_and!; done.
Qed.

(** X20: [GetBeaconBlob] writes a blob exactly when the identifier
    decodes, the store answers with exactly one record, the segment of
    the record marshals and the PEM block of type PATH SEGMENT made of
    the marshalled bytes encodes; the blob is that encoding. *)
Theorem GetBeaconBlob_blob_iff w segmentId out :
  (Writer.GetBeaconBlob w segmentId).2
  = Some (pem_writer w ++ [Writer.Write out])
  ↔ ∃ id result bytes,
      hex_DecodeString segmentId = (id, None)
      ∧ store_GetBeacons (lookup_query id) = inl [result]
      ∧ Writer.proto_Marshal (Segment result) = inl bytes
      ∧ Writer.pem_Encode "PATH SEGMENT" bytes = inl out.
Proof.
  destruct (GetBeaconBlob_cases w segmentId)
    as [(p0 & Hl & Hg & Hb)|(id & result & Hhex & Hstore & Hg & Hb)].
  - rewrite Hb. simpl. split.
    + intros [= E]. by apply ErrorResponse_not_Write in E.
    + intros (id & result & bytes & Hhex & Hstore & _). exfalso.
      apply lookup_problem_title in Hl as [Hl _].
      revert Hg Hl. unfold GetBeacon. rewrite Hhex. fold (lookup_query id).
      rewrite Hstore. simpl.
      destruct (json_Encode _); [|discriminate]. by intros [= <-].
  - split.
    + destruct Hb as [(? & _ & ->)|[(? & ? & _ & _ & ->)|(b & o & Hm & He & ->)]];
        simpl; intros [= E].
      * by apply ErrorResponse_not_Write in E.
      * by apply ErrorResponse_not_Write in E.
      * apply app_inv_head in E. injection E as <-. eauto 10.
    + intros (id' & result' & bytes & Hhex' & Hstore' & Hm' & He').
      rewrite Hhex in Hhex'. injection Hhex' as <-.
      rewrite Hstore in Hstore'. injection Hstore' as <-.
      destruct Hb as [(? & Hm & _)|[(? & ? & Hm & He & _)|(b & o & Hm & He & ->)]];
        try congruence.
      simpl. rewrite Hm in Hm'. injection Hm' as <-. rewrite He in He'.
      by injection He' as <-.
Qed.
End Blob.

Section Chain.
Context {ext : Collaborators} {blob : Writer.BlobCollaborators}
        {signers : Writer.SignerSource}.

Lemma encode_chain_inl chain : ∀ buf out,
  Writer.encode_chain buf chain = inl out
  ↔ ∃ outs, chain_encodes chain outs ∧ out = buf ++ concat outs.
Proof.
  unfold chain_encodes.
  induction chain as [|cert rest IH]; intros buf out; simpl.
  - split.
    + intros [= <-]. exists []. split; [constructor|]. by rewrite app_nil_r.
    + intros (outs & Hall & ->). apply Forall2_nil_inv_l in Hall as ->.
      simpl. by rewrite app_nil_r.
  - destruct (Writer.pem_Encode "CERTIFICATE" (Writer.Raw cert)) as [o|err] eqn:He.
    + rewrite IH. split.
      * intros (outs & Hall & ->). exists (o :: outs).
        split; [by constructor|]. simpl. by rewrite app_assoc.
      * intros (outs & Hall & ->).
        apply Forall2_cons_inv_l in Hall as (o' & outs' & Ho & Hall & ->).
        rewrite He in Ho. injection Ho as <-. exists outs'.
        split; [done|]. simpl. by rewrite app_assoc.
    + split; [discriminate|]. intros (outs & Hall & _).
      apply Forall2_cons_inv_l in Hall as (o' & outs' & Ho & _).
      rewrite He in Ho. discriminate.
Qed.

Lemma encode_chain_inr chain : ∀ buf err,
  Writer.encode_chain buf chain = inr err
  ↔ ∃ before cert rest outs,
      chain = before ++ cert :: rest
      ∧ chain_encodes before outs
      ∧ Writer.pem_Encode "CERTIFICATE" (Writer.Raw cert) = inr err.
Proof.
  unfold chain_encodes.
  induction chain as [|cert rest IH]; intros buf err; simpl.
  - split; [discriminate|]. intros (before & c & r & outs & E & _).
    by destruct before.
  - destruct (Writer.pem_Encode "CERTIFICATE" (Writer.Raw cert)) as [o|e] eqn:He.
    + rewrite IH. split.
      * intros (before & c & r & outs & -> & Hall & Hc).
        exists (cert :: before), c, r, (o :: outs).
        split; [done|]. split; [by constructor | done].
      * intros (before & c & r & outs & E & Hall & Hc).
        destruct before as [|b before]; simpl in E; injection E as -> ->.
        { rewrite He in Hc. discriminate. }
        apply Forall2_cons_inv_l in Hall as (o' & outs' & _ & Hall & ->).
        by exists before, c, r, outs'.
    + split.
      * intros [= <-]. exists [], cert, rest, []. split; [done|].
        split; [constructor | done].
      * intros (before & c & r & outs & E & Hall & Hc).
        destruct before as [|b before]; simpl in E; injection E as -> ->.
        { rewrite He in Hc. congruence. }
        apply Forall2_cons_inv_l in Hall as (o' & outs' & Ho & _).
        rewrite He in Ho. discriminate.
Qed.

(** X21: [GetSignerChain] writes a body exactly when a signer is
    generated, [trust.LastExpiring] selects one valid at the instant of
    [now()] (the time of [nowProvider] when one is set, the clock
    otherwise), the chain of that signer is not empty and every
    certificate of it encodes as a PEM block; the body is then written
    once and is the concatenation of the encodings in the order of the
    chain. *)
Theorem GetSignerChain_body w nowProvider clock out :
  Writer.GetSignerChain w nowProvider clock = w ++ [Writer.Write out]
  ↔ ∃ signers p outs,
      Writer.SignerGen_Generate = inl signers
      ∧ Writer.trust_LastExpiring signers
          (match nowProvider with Some t => t | None => clock end)
          (match nowProvider with Some t => t | None => clock end) = inl p
      ∧ Writer.Chain p ≠ []
      ∧ chain_encodes (Writer.Chain p) outs
      ∧ out = concat outs.
Proof.
  unfold Writer.GetSignerChain, Writer.now.
  destruct Writer.SignerGen_Generate as [signers'|err].
  2:{ split; [intros E; by apply ErrorResponse_not_Write in E|].
      intros (? & ? & ? & [=] & _). }
  destruct (Writer.trust_LastExpiring signers' _ _) as [p|err] eqn:Hp.
  2:{ split; [intros E; by apply ErrorResponse_not_Write in E|].
      intros (? & ? & ? & [= <-] & Hp' & _).
      rewrite Hp in Hp'. discriminate. }
  assert (Hlen : (len (Writer.Chain p) =? 0) = bool_decide (Writer.Chain p = [])).
  { unfold len. destruct (Writer.Chain p) as [|c l].
    - by rewrite bool_decide_eq_true_2.
    - rewrite bool_decide_eq_false_2 by done. apply Z.eqb_neq.
      rewrite length_cons. lia. }
  rewrite Hlen. case_bool_decide as Hnil.
  { split; [intros E; by apply ErrorResponse_not_Write in E|].
    intros (? & ? & ? & [= <-] & Hp' & Hne & _). rewrite Hp in Hp'.
    injection Hp' as <-. done. }
  destruct (Writer.encode_chain [] (Writer.Chain p)) as [buf|err] eqn:Hbuf.
  - apply encode_chain_inl in Hbuf as (outs & Hall & ->). simpl. split.
    + intros E. apply app_inv_head in E. injection E as <-.
      by exists signers', p, outs.
    + intros (? & ? & outs' & [= <-] & Hp' & _ & Hall' & ->).
      rewrite Hp in Hp'. injection Hp' as <-.
      assert (outs' = outs) as ->; [|done].
      clear -Hall Hall'. unfold chain_encodes in *.
      revert outs' Hall'. induction Hall as [|c o l outs Ho _ IH];
        intros outs' Hall'.
      * by apply Forall2_nil_inv_l in Hall'.
      * apply Forall2_cons_inv_l in Hall' as (o' & outs'' & Ho' & Hall' & ->).
        rewrite Ho in Ho'. injection Ho' as <-. f_equal. by apply IH.
  - split; [intros E; by apply ErrorResponse_not_Write in E|].
    intros (? & ? & outs' & [= <-] & Hp' & _ & Hall' & _).
    rewrite Hp in Hp'. injection Hp' as <-.
    assert (Writer.encode_chain [] (Writer.Chain p) = inl ([] ++ concat outs'))
      by (apply encode_chain_inl; eauto).
    congruence.
Qed.

(** X22: when a certificate of the selected chain does not encode,
    [GetSignerChain] answers with the 500 problem "unable to marshal
    response" whose detail is the error of the first such certificate,
    and writes nothing of what the certificates before it encoded to. *)
Theorem GetSignerChain_first_failure w nowProvider clock signers' p
    before cert rest outs err :
  Writer.SignerGen_Generate = inl signers' →
  Writer.trust_LastExpiring signers'
    (match nowProvider with Some t => t | None => clock end)
    (match nowProvider with Some t => t | None => clock end) = inl p →
  Writer.Chain p = before ++ cert :: rest →
  chain_encodes before outs →
  Writer.pem_Encode "CERTIFICATE" (Writer.Raw cert) = inr err →
  Writer.GetSignerChain w nowProvider clock
  = Writer.ErrorResponse w
      {| problem_Detail := Some (error_Error err); problem_Status := 500;
         problem_Title := "unable to marshal response";
         problem_Type := Some InternalError |}
  ∧ bytes_written (Writer.GetSignerChain w nowProvider clock)
    = bytes_written w.
Proof.
  intros Hgen Hp Hchain Hall Herr.
  assert (Hget : Writer.GetSignerChain w nowProvider clock
                 = Writer.ErrorResponse w
                     {| problem_Detail := Some (error_Error err);
                        problem_Status := 500;
                        problem_Title := "unable to marshal response";
                        problem_Type := Some InternalError |}).
  { unfold Writer.GetSignerChain, Writer.now. rewrite Hgen, Hp.
    assert (Writer.encode_chain [] (Writer.Chain p) = inr err) as ->.
    { apply encode_chain_inr. by exists before, cert, rest, outs. }
    rewrite Hchain. unfold len. rewrite length_app. simpl.
    destruct (Z.eqb_spec (Z.of_nat (length before + S (length rest))) 0);
      [lia | reflexivity]. }
  split; [done|]. rewrite Hget. unfold Writer.ErrorResponse, bytes_written.
  rewrite !omap_app. simpl. by rewrite !app_nil_r.
Qed.

(** X23: on a fresh writer [GetSignerChain] ends in one of two ways:
    either it writes one problem document of status 500, with content
    type application/problem+json; or it writes the body once, without
    setting any header and without a call of [WriteHeader]. *)
Theorem GetSignerChain_outcomes nowProvider clock :
  let w' := Writer.GetSignerChain [] nowProvider clock in
  (∃ p, problems_written w' = [p]
        ∧ problem_Status p = 500
        ∧ statuses_written w' = [500]
        ∧ bytes_written w' = []
        ∧ headers_sent ∅ w' = {[ "Content-Type" := "application/problem+json" ]})
  ∨ (∃ out, w' = [Writer.Write out] ∧ headers_sent ∅ w' = ∅).
Proof.
  cbv zeta. unfold Writer.GetSignerChain.
  repeat case_match; simpl;
    try (left; eexists; split; [reflexivity|]; split_and!; reflexivity).
  right. eexists. split; reflexivity.
Qed.
End Chain.

(** X22 on a chain whose second certificate has no bytes, which the
    example encoder refuses. *)
Lemma GetSignerChain_first_failure_witness :
  Writer.GetSignerChain (ext := example_ext) (blob := example_blob)
    (signers := example_signers broken_chain) [] None 0
  = Writer.ErrorResponse []
      {| problem_Detail := Some "error"; problem_Status := 500;
         problem_Title := "unable to marshal response";
         problem_Type := Some InternalError |}.
Proof.
  apply (GetSignerChain_first_failure (ext := example_ext)
           (blob := example_blob) (signers := example_signers broken_chain)
           [] None 0 [{| Writer.Chain := broken_chain |}]
           {| Writer.Chain := broken_chain |}
           [{| Writer.Raw := [1] |}] {| Writer.Raw := [] |}
           [{| Writer.Raw := [2] |}] [[45; 1; 45]]
           (external_error "empty block") eq_refl eq_refl eq_refl).
  - repeat constructor.
  - reflexivity.
Defined.

(** ** The comparisons and the usage codec on arbitrary values *)

(** X24: every comparison [sortFactory] returns is a strict weak order,
    which is what [sort.Sort] needs to put a slice in order: it is
    irreflexive and transitive, and being incomparable under it is
    transitive. This holds for start_isd_as as well, where beacons
    without hops are compared by their number of hops and the others by
    the ISD-AS of their first hop. *)
Theorem sortFactory_strict_weak_order sortParam less :
  sortFactory sortParam = inl less →
  (∀ x, less x x = false)
  ∧ (∀ x y z, less x y = true → less y z = true → less x z = true)
  ∧ (∀ x y z, less x y = false → less y z = false → less x z = false).
Proof.
  intros Hless. destruct (sortFactory_StrictWeak _ _ Hless) as [I T N].
  split_and!; assumption.
Qed.

(** X25: [sortFactory] knows exactly five sort keys, compared as
    written, and an absent sort parameter stands for last_updated. *)
Theorem sortFactory_keys k :
  ((∃ less, sortFactory (Some k) = inl less)
   ↔ k ∈ ["expiration_time"; "info_time"; "start_isd_as"; "last_updated";
          "ingress_interface"])
  ∧ sortFactory None = sortFactory (Some "last_updated").
Proof.
  split; [|reflexivity].
  pose proof (sortFactory_key k) as Hk. unfold known_sort_key in Hk.
  destruct (sortFactory (Some k)) as [less|err].
  - apply bool_decide_eq_true in Hk. split; [done | by eauto].
  - destruct Hk as [Hk _]. apply bool_decide_eq_false in Hk.
    split; [by intros [? ?] | done].
Qed.

Lemma land_single_bit u f :
  single_bit f → Z.land u f = if Z.land u f =? 0 then 0 else f.
Proof.
  intros (k & Hk & ->).
  assert (Hbit : Z.land u (2 ^ k) = if Z.testbit u k then 2 ^ k else 0).
  { apply Z.bits_inj'. intros n Hn. rewrite Z.land_spec, Z.pow2_bits_eqb by lia.
    destruct (Z.eqb_spec k n) as [->|Hne].
    - destruct (Z.testbit u n); simpl.
      + by rewrite Z.pow2_bits_true.
      + by rewrite Z.bits_0.
    - rewrite andb_false_r. destruct (Z.testbit u k).
      + by rewrite Z.pow2_bits_false.
      + by rewrite Z.bits_0. }
  rewrite Hbit. destruct (Z.testbit u k); [|reflexivity].
  pose proof (Z.pow_pos_nonneg 2 k ltac:(lia) Hk).
  destruct (Z.eqb_spec (2 ^ k) 0); [lia | reflexivity].
Qed.

Lemma land_lor_absorb a m : Z.land (Z.lor m a) a = a.
Proof.
  apply Z.bits_inj'. intros n _. rewrite Z.land_spec, Z.lor_spec.
  destruct (Z.testbit m n), (Z.testbit a n); reflexivity.
Qed.

Section Codec.
Context {names : UsageNames} {ext : Collaborators}.

Lemma all_usage_flags_land u :
  Z.land (Z.land u all_usage_flags) UsageUpReg = Z.land u UsageUpReg
  ∧ Z.land (Z.land u all_usage_flags) UsageDownReg = Z.land u UsageDownReg
  ∧ Z.land (Z.land u all_usage_flags) UsageCoreReg = Z.land u UsageCoreReg
  ∧ Z.land (Z.land u all_usage_flags) UsageProp = Z.land u UsageProp.
Proof.
  unfold all_usage_flags. rewrite <- !Z.land_assoc. split_and!; f_equal.
  - rewrite (Z.lor_comm UsageUpReg), <- !Z.lor_assoc,
      (Z.lor_comm UsageUpReg), !Z.lor_assoc. apply land_lor_absorb.
  - rewrite <- !Z.lor_assoc, (Z.lor_comm UsageDownReg), !Z.lor_assoc.
    apply land_lor_absorb.
  - rewrite <- (Z.lor_assoc _ UsageCoreReg), (Z.lor_comm UsageCoreReg),
      Z.lor_assoc. apply land_lor_absorb.
  - apply land_lor_absorb.
Qed.

(** X26: [UnpackBeaconUsages] names at most the four tokens, each at
    most once and in the order Up, Down, Core, Propagation, and looks at
    no bit outside of the four flags: a stored usage and the same usage
    with every other bit cleared unpack alike. A usage of 0 unpacks to no
    token. *)
Theorem UnpackBeaconUsages_known_bits u :
  UnpackBeaconUsages u = UnpackBeaconUsages (Z.land u all_usage_flags)
  ∧ UnpackBeaconUsages u
    `sublist_of` [UpRegistration; DownRegistration; CoreRegistration;
                  Propagation]
  ∧ UnpackBeaconUsages 0 = [].
Proof.
  destruct (all_usage_flags_land u) as (H1 & H2 & H3 & H4).
  split_and!.
  - unfold UnpackBeaconUsages. by rewrite H1, H2, H3, H4.
  - unfold UnpackBeaconUsages.
    repeat case_match; simpl;
      repeat first [ apply sublist_nil | apply sublist_skip; []
                   | apply sublist_cons; [] ];
      repeat first [ by apply sublist_nil | by apply sublist_skip
                   | by apply sublist_cons
                   | apply sublist_skip | apply sublist_cons ].
  - unfold UnpackBeaconUsages. by rewrite !Z.land_0_l.
Qed.

(** X27: decoding any stored usage and encoding the tokens again, as a
    request carrying them does, gives the stored usage with the bits
    outside of the four flags cleared, and no error: the round trip
    keeps the four flags of every stored value, not only of the values
    made of the four flags. *)
Theorem usage_round_trip_any (names_ok : UsageNamesSpec names) u now :
  GetBeacons_query now (request_with_usages (UnpackBeaconUsages u))
  = ({| SegIDs := []; StartsAt := []; IngressInterfaces := [];
        Usages := [Z.land u all_usage_flags]; ValidAt := now |},
     [], Some (λ a b, Time_Before (LastUpdated a) (LastUpdated b))).
Proof.
  destruct names_ok as [Hb Hd Ht]. pose proof Hb as Hb'.
  rewrite !Forall_cons in Hb'. destruct Hb' as (B1 & B2 & B3 & B4 & _).
  assert (Hmask : Z.land u all_usage_flags
                  = usage_mask (negb (Z.land u UsageUpReg =? 0))
                      (negb (Z.land u UsageDownReg =? 0))
                      (negb (Z.land u UsageCoreReg =? 0))
                      (negb (Z.land u UsageProp =? 0))).
  { unfold all_usage_flags, usage_mask. rewrite !Z.land_lor_distr_r.
    rewrite (land_single_bit u UsageUpReg B1) at 1.
    rewrite (land_single_bit u UsageDownReg B2) at 1.
    rewrite (land_single_bit u UsageCoreReg B3) at 1.
    rewrite (land_single_bit u UsageProp B4) at 1.
    destruct (Z.land u UsageUpReg =? 0), (Z.land u UsageDownReg =? 0),
      (Z.land u UsageCoreReg =? 0), (Z.land u UsageProp =? 0); reflexivity. }
  assert (Hu : UnpackBeaconUsages u
               = UnpackBeaconUsages (Z.land u all_usage_flags)).
  { destruct (all_usage_flags_land u) as (H1 & H2 & H3 & H4).
    unfold UnpackBeaconUsages. by rewrite H1, H2, H3, H4. }
  rewrite Hu, Hmask.
  unfold GetBeacons_query, request_with_usages.
  cbn [param_StartIsdAs param_Usages param_IngressInterface param_All
       param_ValidAt param_Sort].
  rewrite (encode_decode (names_ok := Build_UsageNamesSpec names Hb Hd Ht)).
  reflexivity.
Qed.
End Codec.

(** X24 on the comparison of start_isd_as and a beacon without hops. *)
Lemma sortFactory_strict_weak_order_witness :
  start_isd_as_less
    (project (names := example_names) (ext := example_ext)
       (example_beacon 0 0 []))
    (project (names := example_names) (ext := example_ext)
       (example_beacon 0 0 []))
  = false.
Proof.
  exact (proj1 (sortFactory_strict_weak_order (Some "start_isd_as")
                  start_isd_as_less eq_refl) _).
Defined.

(** X27 on the flags 1, 2, 4, 8 and the stored usage 21, which has the
    bits of Up and Core and one bit more. *)
Lemma usage_round_trip_any_witness :
  Usages (GetBeacons_query (names := example_names) (ext := example_ext) 0
            (request_with_usages
               (UnpackBeaconUsages (names := example_names) 21))).1.1
  = [5].
Proof.
  exact (f_equal (λ r : QueryParams * list error
                        * option (Beacon → Beacon → bool), Usages r.1.1)
           (usage_round_trip_any (names := example_names)
              (ext := example_ext) example_names_spec 21 0)).
Defined.

Section StartIsdAs.
Context {names : UsageNames} {ext : Collaborators} {store : BeaconStore}.

(** X28: in the response to a request sorted by start_isd_as, the
    beacons that have hops are in the order of the ISD-AS of their first
    hop, compared as strings byte by byte: never decreasing along an
    ascending response, never increasing along a descending one. *)
Theorem GetBeacons_ordered_by_start_isd_as now params rep :
  param_Sort params = Some "start_isd_as" →
  (GetBeacons now params).2 = Encoded (BeaconsPayload rep) →
  ∀ (i j : nat) x y hx hy,
    (i < j)%nat → rep !! i = Some x → rep !! j = Some y →
    head (Hops x) = Some hx → head (Hops y) = Some hy →
    if descending params then String.ltb (IsdAs hx) (IsdAs hy) = false
    else String.ltb (IsdAs hy) (IsdAs hx) = false.
Proof.
  intros Hkey Hrep i j x y hx hy Hij Hx Hy Hhx Hhy.
  apply GetBeacons_Encoded_inv in Hrep as (results & less & Hless & _ & Hord).
  rewrite Hkey, sortFactory_start_isd_as in Hless. injection Hless as <-.
  specialize (Hord i j x y Hij Hx Hy). unfold request_less in Hord.
  destruct (descending params); unfold start_isd_as_less in Hord;
    destruct (Hops x) as [|hx' ?], (Hops y) as [|hy' ?]; simplify_eq/=; done.
Qed.
End StartIsdAs.

(** X28 on two beacons whose segments start in the same AS. *)
Lemma GetBeacons_ordered_by_start_isd_as_witness :
  String.ltb (IA_String (Collaborators := example_ext) 1)
    (IA_String (Collaborators := example_ext) 1) = false.
Proof.
  apply (GetBeacons_ordered_by_start_isd_as (names := example_names)
           (ext := example_ext) (store := example_store two_beacons_with_hops)
           0 (start_isd_as_params None)
           (map (project (names := example_names) (ext := example_ext))
              two_beacons_with_hops)
           eq_refl eq_refl 0%nat 1%nat
           (project (names := example_names) (ext := example_ext)
              (example_beacon 0 0 one_entry))
           (project (names := example_names) (ext := example_ext)
              (example_beacon 1 0 one_entry))
           {| Interface := 2; IsdAs := IA_String (Collaborators := example_ext) 1 |}
           {| Interface := 2; IsdAs := IA_String (Collaborators := example_ext) 1 |});
    [lia | reflexivity..].
Defined.
